(** * Coding patterns: a shallow embedding of the Python examples

    The repository is a collection of independent textbook algorithms
    ([examples/python/*.py]).  Each Python module becomes a Rocq [Module]
    below.  Python integers are unbounded, so they are modelled by [Z];
    Python lists are [list]s read and written through [py_index] and
    [py_update], which follow Python's subscript rules (negative subscripts
    count from the end, anything else out of range raises [IndexError]).
    A call either returns, raises, or - for the [while] loops, which are
    modelled by fuel - runs out of fuel; every entry point passes enough fuel
    and the theorems show that the last outcome never occurs.  The depth of
    [dfs_recursive] and of the search of [word_search] grows with the
    input, so these take the frames that the interpreter has left and raise
    [RecursionError] when there is none.  Floats are the binary64 numbers
    of [SpecFloat]; times between the integer ends of intervals are
    rationals. *)

From stdpp Require Import base numbers option list sorting functions gmap.
From Stdlib Require Import ZArith Lia Ascii QArith Qround SpecFloat.

Local Open Scope Z_scope.

(** ** Outcomes of a Python call *)

Inductive exn : Type :=
| IndexError | KeyError | ValueError | AttributeError
| RecursionError | OverflowError | ZeroDivisionError.

Inductive outcome (A : Type) : Type :=
| Ret (a : A)
| Raise (e : exn)
| OutOfFuel.
Arguments Ret {A} a.
Arguments Raise {A} e.
Arguments OutOfFuel {A}.

#[global] Instance outcome_ret : MRet outcome := @Ret.
#[global] Instance outcome_bind : MBind outcome := fun A B f m =>
  match m with
  | Ret a => f a
  | Raise e => Raise e
  | OutOfFuel => OutOfFuel
  end.

Definition returns {A} (m : outcome A) : Prop := exists a, m = Ret a.

(** ** The depth of the call stack

    The interpreter counts the frames of the calls in progress and raises
    [RecursionError] when one more call would exceed
    [sys.getrecursionlimit()], which is 1000 unless a program sets it; no
    module of the repository does.  A function whose depth grows with its
    input takes the number of frames that are still free as its first
    argument, [frames], and every call uses one of them.  What a client
    can pass depends on the depth of its own call; it is never more than
    [recursion_limit]. *)
Definition recursion_limit : nat := 1000.

(** ** Python floats

    A [float] is a binary64 number of IEEE 754: a mantissa of 53 bits,
    exponents below 1024, two zeros, two infinities and [nan]; arithmetic
    rounds to the nearest float, to the even one of two that are as near. *)
Abbreviation float := spec_float.
Definition prec : Z := 53.
Definition emax : Z := 1024.

Definition inf : float := S754_infinity false.
Definition neg_inf : float := S754_infinity true.
Definition nan : float := S754_nan.

(** What an operation on integers gives when the nearest float is an
    infinity. *)
Definition finite_or_overflow (f : float) : outcome float :=
  match f with
  | S754_infinity _ => Raise OverflowError
  | _ => Ret f
  end.

(** [float(z)]: the conversion that [+] and [/] apply to an [int] next to a
    [float]. *)
Definition float_of_int (z : Z) : outcome float :=
  finite_or_overflow (binary_normalize prec emax z 0 false).

(** [a / b] on two [int]s: the float nearest to the quotient. *)
Definition int_truediv (a b : Z) : outcome float :=
  if decide (b = 0) then Raise ZeroDivisionError
  else if decide (a = 0) then Ret (S754_zero (bool_decide (b < 0)))
  else
    let '(q, e, l) := SFdiv_core_binary prec emax (Z.abs a) 0 (Z.abs b) 0 in
    finite_or_overflow
      (binary_round_aux prec emax
         (xorb (bool_decide (a < 0)) (bool_decide (b < 0))) q e l).

(** [f / g] on two [float]s. *)
Definition float_truediv (f g : float) : outcome float :=
  match g with
  | S754_zero _ => Raise ZeroDivisionError
  | _ => Ret (SFdiv prec emax f g)
  end.

(** [math.ceil(f)], an [int]. *)
Definition math_ceil (f : float) : outcome Z :=
  match f with
  | S754_zero _ => Ret 0
  | S754_infinity _ => Raise OverflowError
  | S754_nan => Raise ValueError
  | S754_finite s m e =>
      let n := if s then Z.neg m else Z.pos m in
      Ret (if decide (0 <= e) then n * 2 ^ e else - ((- n) / 2 ^ (- e)))
  end.

(** A value that is an [int] or a [float]. *)
Inductive number : Type :=
| int (z : Z)
| float_ (f : float).

(** An [int] and a [float] are compared by their values, without a
    conversion; [nan] compares with nothing. *)
Definition float_compare_int (f : float) (z : Z) : option comparison :=
  match f with
  | S754_nan => None
  | S754_infinity s => Some (if s then Lt else Gt)
  | S754_zero _ => Some (0 ?= z)
  | S754_finite s m e =>
      let n := if s then Z.neg m else Z.pos m in
      Some (if decide (0 <= e) then n * 2 ^ e ?= z else n ?= z * 2 ^ (- e))
  end.

Definition number_compare (x y : number) : option comparison :=
  match x, y with
  | int a, int b => Some (a ?= b)
  | float_ f, float_ g => SFcompare f g
  | float_ f, int b => float_compare_int f b
  | int a, float_ g => CompOpp <$> float_compare_int g a
  end.

(** [x <= y], [x < y] and [x > y]. *)
Definition number_le (x y : number) : bool :=
  match number_compare x y with
  | Some Lt | Some Eq => true
  | _ => false
  end.

Definition number_lt (x y : number) : bool :=
  match number_compare x y with
  | Some Lt => true
  | _ => false
  end.

Definition number_gt (x y : number) : bool :=
  match number_compare x y with
  | Some Gt => true
  | _ => false
  end.

(** [max(x, y)] and [min(x, y)] keep their first argument unless the second
    one is greater, or less. *)
Definition max2 (x y : number) : number := if number_gt y x then y else x.
Definition min2 (x y : number) : number := if number_lt y x then y else x.

(** [x + y] and [x / y]. *)
Definition number_add (x y : number) : outcome number :=
  match x, y with
  | int a, int b => Ret (int (a + b))
  | float_ f, float_ g => Ret (float_ (SFadd prec emax f g))
  | int a, float_ g => f ← float_of_int a; Ret (float_ (SFadd prec emax f g))
  | float_ f, int b => g ← float_of_int b; Ret (float_ (SFadd prec emax f g))
  end.

Definition number_truediv (x y : number) : outcome number :=
  match x, y with
  | int a, int b => q ← int_truediv a b; Ret (float_ q)
  | float_ f, float_ g => q ← float_truediv f g; Ret (float_ q)
  | int a, float_ g => f ← float_of_int a; q ← float_truediv f g; Ret (float_ q)
  | float_ f, int b => g ← float_of_int b; q ← float_truediv f g; Ret (float_ q)
  end.

(** ** Python sequences *)

Definition len {A} (l : list A) : Z := Z.of_nat (length l).

(** [l[i]]: a negative subscript is taken from the end. *)
Definition py_norm (n i : Z) : Z := if decide (i < 0) then i + n else i.

Definition py_index {A} (l : list A) (i : Z) : outcome A :=
  let j := py_norm (len l) i in
  if decide (0 <= j < len l) then
    match l !! Z.to_nat j with
    | Some x => Ret x
    | None => Raise IndexError
    end
  else Raise IndexError.

(** [l[i] = x]. *)
Definition py_update {A} (l : list A) (i : Z) (x : A) : outcome (list A) :=
  let j := py_norm (len l) i in
  if decide (0 <= j < len l) then Ret (<[Z.to_nat j := x]> l)
  else Raise IndexError.

(** Sortedness, as a test that can be run and as the index property the
    proofs use. *)
Fixpoint is_sorted (l : list Z) : bool :=
  match l with
  | [] => true
  | x :: l' =>
      match l' with
      | [] => true
      | y :: _ => bool_decide (x <= y) && is_sorted l'
      end
  end.

Definition sorted_at (l : list Z) : Prop :=
  forall (i j : nat) (x y : Z),
    (i <= j)%nat -> l !! i = Some x -> l !! j = Some y -> x <= y.

(** * binary_search.py *)

Module BinarySearch.

(** ** class BasicBinarySearch *)

(** The [while left <= right] loop of [binary_search]. *)
Fixpoint binary_search_loop (fuel : nat) (arr : list Z) (target left right : Z)
  : outcome Z :=
  match fuel with
  | O => OutOfFuel
  | S fuel' =>
      if decide (left <= right) then
        let mid := left + (right - left) / 2 in
        x ← py_index arr mid;
        if decide (x = target) then Ret mid
        else if decide (x < target) then
          binary_search_loop fuel' arr target (mid + 1) right
        else binary_search_loop fuel' arr target left (mid - 1)
      else Ret (-1)
  end.

Definition binary_search (arr : list Z) (target : Z) : outcome Z :=
  binary_search_loop (S (length arr)) arr target 0 (len arr - 1).

(** [right: int = None] is the optional argument of the Python function. *)
Fixpoint binary_search_recursive_from (fuel : nat) (arr : list Z)
    (target left : Z) (right : option Z) : outcome Z :=
  match fuel with
  | O => OutOfFuel
  | S fuel' =>
      let right := default (len arr - 1) right in
      if decide (left > right) then Ret (-1)
      else
        let mid := left + (right - left) / 2 in
        x ← py_index arr mid;
        if decide (x = target) then Ret mid
        else if decide (x < target) then
          binary_search_recursive_from fuel' arr target (mid + 1) (Some right)
        else binary_search_recursive_from fuel' arr target left (Some (mid - 1))
  end.

Definition binary_search_recursive (arr : list Z) (target : Z) : outcome Z :=
  binary_search_recursive_from (S (length arr)) arr target 0 None.

Fixpoint find_first_occurrence_loop (fuel : nat) (arr : list Z)
    (target left right result : Z) : outcome Z :=
  match fuel with
  | O => OutOfFuel
  | S fuel' =>
      if decide (left <= right) then
        let mid := left + (right - left) / 2 in
        x ← py_index arr mid;
        if decide (x = target) then
          find_first_occurrence_loop fuel' arr target left (mid - 1) mid
        else if decide (x < target) then
          find_first_occurrence_loop fuel' arr target (mid + 1) right result
        else find_first_occurrence_loop fuel' arr target left (mid - 1) result
      else Ret result
  end.

Definition find_first_occurrence (arr : list Z) (target : Z) : outcome Z :=
  find_first_occurrence_loop (S (length arr)) arr target 0 (len arr - 1) (-1).

Fixpoint find_last_occurrence_loop (fuel : nat) (arr : list Z)
    (target left right result : Z) : outcome Z :=
  match fuel with
  | O => OutOfFuel
  | S fuel' =>
      if decide (left <= right) then
        let mid := left + (right - left) / 2 in
        x ← py_index arr mid;
        if decide (x = target) then
          find_last_occurrence_loop fuel' arr target (mid + 1) right mid
        else if decide (x < target) then
          find_last_occurrence_loop fuel' arr target (mid + 1) right result
        else find_last_occurrence_loop fuel' arr target left (mid - 1) result
      else Ret result
  end.

Definition find_last_occurrence (arr : list Z) (target : Z) : outcome Z :=
  find_last_occurrence_loop (S (length arr)) arr target 0 (len arr - 1) (-1).

(** ** class BinarySearchVariations *)

Fixpoint search_insert_position_loop (fuel : nat) (nums : list Z)
    (target left right : Z) : outcome Z :=
  match fuel with
  | O => OutOfFuel
  | S fuel' =>
      if decide (left < right) then
        let mid := left + (right - left) / 2 in
        x ← py_index nums mid;
        if decide (x < target) then
          search_insert_position_loop fuel' nums target (mid + 1) right
        else search_insert_position_loop fuel' nums target left mid
      else Ret left
  end.

Definition search_insert_position (nums : list Z) (target : Z) : outcome Z :=
  search_insert_position_loop (S (length nums)) nums target 0 (len nums).

Fixpoint search_rotated_array_loop (fuel : nat) (nums : list Z)
    (target left right : Z) : outcome Z :=
  match fuel with
  | O => OutOfFuel
  | S fuel' =>
      if decide (left <= right) then
        let mid := left + (right - left) / 2 in
        m ← py_index nums mid;
        if decide (m = target) then Ret mid
        else
          l ← py_index nums left;
          if decide (l <= m) then
            (* left half is sorted *)
            if decide (l <= target /\ target < m) then
              search_rotated_array_loop fuel' nums target left (mid - 1)
            else search_rotated_array_loop fuel' nums target (mid + 1) right
          else
            (* right half is sorted; [nums[right]] is read only when
               [nums[mid] < target] holds *)
            if decide (m < target) then
              r ← py_index nums right;
              if decide (target <= r) then
                search_rotated_array_loop fuel' nums target (mid + 1) right
              else search_rotated_array_loop fuel' nums target left (mid - 1)
            else search_rotated_array_loop fuel' nums target left (mid - 1)
      else Ret (-1)
  end.

Definition search_rotated_array (nums : list Z) (target : Z) : outcome Z :=
  search_rotated_array_loop (S (length nums)) nums target 0 (len nums - 1).

Fixpoint find_minimum_rotated_loop (fuel : nat) (nums : list Z)
    (left right : Z) : outcome Z :=
  match fuel with
  | O => OutOfFuel
  | S fuel' =>
      if decide (left < right) then
        let mid := left + (right - left) / 2 in
        m ← py_index nums mid;
        r ← py_index nums right;
        if decide (m > r) then find_minimum_rotated_loop fuel' nums (mid + 1) right
        else find_minimum_rotated_loop fuel' nums left mid
      else Ret left
  end.

(** The loop leaves [left]; the function then returns [nums[left]]. *)
Definition find_minimum_rotated (nums : list Z) : outcome Z :=
  left ← find_minimum_rotated_loop (S (length nums)) nums 0 (len nums - 1);
  py_index nums left.

Fixpoint search_2d_matrix_loop (fuel : nat) (matrix : list (list Z))
    (target cols left right : Z) : outcome bool :=
  match fuel with
  | O => OutOfFuel
  | S fuel' =>
      if decide (left <= right) then
        let mid := left + (right - left) / 2 in
        row ← py_index matrix (mid `div` cols);
        mid_value ← py_index row (mid `mod` cols);
        if decide (mid_value = target) then Ret true
        else if decide (mid_value < target) then
          search_2d_matrix_loop fuel' matrix target cols (mid + 1) right
        else search_2d_matrix_loop fuel' matrix target cols left (mid - 1)
      else Ret false
  end.

(** [not matrix or not matrix[0]]: an empty list is falsy, and [or] reads
    [matrix[0]] only when [matrix] is not empty. *)
Definition search_2d_matrix (matrix : list (list Z)) (target : Z) : outcome bool :=
  match matrix with
  | [] => Ret false
  | _ =>
      row0 ← py_index matrix 0;
      match row0 with
      | [] => Ret false
      | _ =>
          let rows := len matrix in
          let cols := len row0 in
          search_2d_matrix_loop (S (Z.to_nat (rows * cols))) matrix target cols
            0 (rows * cols - 1)
      end
  end.

(** ** class OptimizationProblems *)

(** [max(l)], which raises [ValueError] on an empty list, and [sum(l)]. *)
Definition py_max (l : list Z) : outcome Z :=
  match l with
  | [] => Raise ValueError
  | x :: l' => Ret (foldl Z.max x l')
  end.

Definition py_sum (l : list Z) : Z := foldr Z.add 0 l.

(** The [for weight in weights] loop of [can_ship], on the pair
    [(days, current_load)]; it leaves [days]. *)
Fixpoint can_ship_loop (capacity : Z) (weights : list Z) (days current_load : Z)
  : Z :=
  match weights with
  | [] => days
  | weight :: weights' =>
      if decide (current_load + weight > capacity)
      then can_ship_loop capacity weights' (days + 1) weight
      else can_ship_loop capacity weights' days (current_load + weight)
  end.

Definition can_ship (weights : list Z) (D capacity : Z) : bool :=
  bool_decide (can_ship_loop capacity weights 1 0 <= D).

Fixpoint capacity_to_ship_packages_loop (fuel : nat) (weights : list Z)
    (D left right : Z) : outcome Z :=
  match fuel with
  | O => OutOfFuel
  | S fuel' =>
      if decide (left < right) then
        let mid := left + (right - left) / 2 in
        if can_ship weights D mid
        then capacity_to_ship_packages_loop fuel' weights D left mid
        else capacity_to_ship_packages_loop fuel' weights D (mid + 1) right
      else Ret left
  end.

Definition capacity_to_ship_packages (weights : list Z) (D : Z) : outcome Z :=
  left ← py_max weights;
  let right := py_sum weights in
  capacity_to_ship_packages_loop (S (Z.to_nat (right - left))) weights D left right.

(** [split_array_largest_sum] is written out a second time in the source,
    with [can_split] for [can_ship]. *)
Fixpoint can_split_loop (max_sum : Z) (nums : list Z) (splits current_sum : Z)
  : Z :=
  match nums with
  | [] => splits
  | num :: nums' =>
      if decide (current_sum + num > max_sum)
      then can_split_loop max_sum nums' (splits + 1) num
      else can_split_loop max_sum nums' splits (current_sum + num)
  end.

Definition can_split (nums : list Z) (m max_sum : Z) : bool :=
  bool_decide (can_split_loop max_sum nums 1 0 <= m).

Fixpoint split_array_largest_sum_loop (fuel : nat) (nums : list Z)
    (m left right : Z) : outcome Z :=
  match fuel with
  | O => OutOfFuel
  | S fuel' =>
      if decide (left < right) then
        let mid := left + (right - left) / 2 in
        if can_split nums m mid
        then split_array_largest_sum_loop fuel' nums m left mid
        else split_array_largest_sum_loop fuel' nums m (mid + 1) right
      else Ret left
  end.

Definition split_array_largest_sum (nums : list Z) (m : Z) : outcome Z :=
  left ← py_max nums;
  let right := py_sum nums in
  split_array_largest_sum_loop (S (Z.to_nat (right - left))) nums m left right.

(** [sum(math.ceil(num / divisor) for num in nums)], with the sum so far. *)
Fixpoint get_sum (divisor : Z) (nums : list Z) (total : Z) : outcome Z :=
  match nums with
  | [] => Ret total
  | num :: nums' =>
      q ← int_truediv num divisor;
      c ← math_ceil q;
      get_sum divisor nums' (total + c)
  end.

Fixpoint smallest_divisor_loop (fuel : nat) (nums : list Z)
    (threshold left right : Z) : outcome Z :=
  match fuel with
  | O => OutOfFuel
  | S fuel' =>
      if decide (left < right) then
        let mid := left + (right - left) / 2 in
        s ← get_sum mid nums 0;
        if decide (s <= threshold)
        then smallest_divisor_loop fuel' nums threshold left mid
        else smallest_divisor_loop fuel' nums threshold (mid + 1) right
      else Ret left
  end.

Definition smallest_divisor (nums : list Z) (threshold : Z) : outcome Z :=
  right ← py_max nums;
  smallest_divisor_loop (S (Z.to_nat (right - 1))) nums threshold 1 right.

(** What the two functions are meant to minimise: [weights] can be cut into
    at most [D] consecutive groups, each of total weight at most
    [capacity]. *)
Definition ships_within (weights : list Z) (D capacity : Z) : Prop :=
  exists groups : list (list Z),
    mjoin groups = weights /\
    Forall (fun g => py_sum g <= capacity) groups /\
    len groups <= D.

(** The groups that the loop of [can_ship] forms, [current] being the group
    that is open. *)
Fixpoint groups_of (capacity : Z) (weights current : list Z) : list (list Z) :=
  match weights with
  | [] => [current]
  | weight :: weights' =>
      if decide (py_sum current + weight > capacity)
      then current :: groups_of capacity weights' [weight]
      else groups_of capacity weights' (current ++ [weight])
  end.

(** ** class MedianProblems *)

(** The [while left <= right] loop of [find_median_sorted_arrays]; the
    cells of the lists are [int]s, the values next to the ends of a list
    are [float('-inf')] and [float('inf')]. *)
Fixpoint find_median_sorted_arrays_loop (fuel : nat) (nums1 nums2 : list Z)
    (m n total half left right : Z) : outcome number :=
  match fuel with
  | O => OutOfFuel
  | S fuel' =>
      if decide (left <= right) then
        let i := (left + right) / 2 in
        let j := half - i in
        nums1_left ← (if decide (i > 0)
                      then x ← py_index nums1 (i - 1); Ret (int x)
                      else Ret (float_ neg_inf));
        nums1_right ← (if decide (i < m)
                       then x ← py_index nums1 i; Ret (int x)
                       else Ret (float_ inf));
        nums2_left ← (if decide (j > 0)
                      then x ← py_index nums2 (j - 1); Ret (int x)
                      else Ret (float_ neg_inf));
        nums2_right ← (if decide (j < n)
                       then x ← py_index nums2 j; Ret (int x)
                       else Ret (float_ inf));
        if number_le nums1_left nums2_right && number_le nums2_left nums1_right
        then
          if decide (total mod 2 = 0) then
            s ← number_add (max2 nums1_left nums2_left)
                  (min2 nums1_right nums2_right);
            number_truediv s (int 2)
          else Ret (min2 nums1_right nums2_right)
        else if number_gt nums1_left nums2_right then
          find_median_sorted_arrays_loop fuel' nums1 nums2 m n total half
            left (i - 1)
        else
          find_median_sorted_arrays_loop fuel' nums1 nums2 m n total half
            (i + 1) right
      else Ret (float_ (S754_zero false))
  end.

(** The shorter list comes first; every round of the loop brings [left] and
    [right] nearer to each other. *)
Definition find_median_sorted_arrays (nums1 nums2 : list Z) : outcome number :=
  let '(nums1, nums2) :=
    if decide (len nums1 > len nums2) then (nums2, nums1) else (nums1, nums2) in
  let m := len nums1 in
  let n := len nums2 in
  let total := m + n in
  let half := total / 2 in
  find_median_sorted_arrays_loop (S (S (length nums1))) nums1 nums2 m n total half
    0 m.

(** ** class PeakFinding *)

Fixpoint find_peak_element_loop (fuel : nat) (nums : list Z) (left right : Z)
  : outcome Z :=
  match fuel with
  | O => OutOfFuel
  | S fuel' =>
      if decide (left < right) then
        let mid := left + (right - left) / 2 in
        a ← py_index nums mid;
        b ← py_index nums (mid + 1);
        if decide (a < b) then find_peak_element_loop fuel' nums (mid + 1) right
        else find_peak_element_loop fuel' nums left mid
      else Ret left
  end.

Definition find_peak_element (nums : list Z) : outcome Z :=
  find_peak_element_loop (S (length nums)) nums 0 (len nums - 1).

(** [matrix[r][c]]. *)
Definition cell (matrix : list (list Z)) (r c : Z) : outcome Z :=
  row ← py_index matrix r; py_index row c.

(** [for i in range(rows): if matrix[i][mid_col] > matrix[max_row][mid_col]:
    max_row = i]. *)
Fixpoint max_row_scan (matrix : list (list Z)) (mid_col : Z) (range : list Z)
    (max_row : Z) : outcome Z :=
  match range with
  | [] => Ret max_row
  | i :: range' =>
      a ← cell matrix i mid_col;
      b ← cell matrix max_row mid_col;
      max_row_scan matrix mid_col range' (if decide (a > b) then i else max_row)
  end.

Fixpoint find_peak_2d_loop (fuel : nat) (matrix : list (list Z))
    (rows cols left right : Z) : outcome (list Z) :=
  match fuel with
  | O => OutOfFuel
  | S fuel' =>
      if decide (left <= right) then
        let mid_col := left + (right - left) / 2 in
        max_row ← max_row_scan matrix mid_col (seqZ 0 rows) 0;
        left_val ← (if decide (mid_col > 0) then cell matrix max_row (mid_col - 1)
                    else Ret (-1));
        right_val ← (if decide (mid_col < cols - 1)
                     then cell matrix max_row (mid_col + 1) else Ret (-1));
        here ← cell matrix max_row mid_col;
        if decide (here >= left_val /\ here >= right_val) then
          Ret [max_row; mid_col]
        else if decide (left_val > here) then
          find_peak_2d_loop fuel' matrix rows cols left (mid_col - 1)
        else find_peak_2d_loop fuel' matrix rows cols (mid_col + 1) right
      else Ret [-1; -1]
  end.

(** [rows, cols = len(matrix), len(matrix[0])] comes first, without a guard. *)
Definition find_peak_2d (matrix : list (list Z)) : outcome (list Z) :=
  let rows := len matrix in
  row0 ← py_index matrix 0;
  let cols := len row0 in
  find_peak_2d_loop (S (length row0)) matrix rows cols 0 (cols - 1).


(** ** Inputs of the rotated searches

    A strictly increasing list, that list rotated ([s[k:] + s[:k]]), and
    the shape a rotation has: two increasing runs, the second one below the
    first, meeting at index [d]. *)
Fixpoint is_increasing (l : list Z) : bool :=
  match l with
  | [] => true
  | x :: l' =>
      match l' with
      | [] => true
      | y :: _ => bool_decide (x < y) && is_increasing l'
      end
  end.

Definition rotated (s : list Z) (k : nat) : list Z := drop k s ++ take k s.

Definition two_runs (nums : list Z) (d : nat) : Prop :=
  (forall (i j : nat) (x y : Z),
     (i < j)%nat -> (j < d)%nat \/ (d <= i)%nat ->
     nums !! i = Some x -> nums !! j = Some y -> x < y) /\
  (forall (i j : nat) (x y : Z),
     (i < d)%nat -> (d <= j)%nat ->
     nums !! i = Some x -> nums !! j = Some y -> y < x).

End BinarySearch.

(** * sliding_window.py *)

Module SlidingWindow.

(** [sum(l)]. *)
Definition sum (l : list Z) : Z := foldr Z.add 0 l.

(** [l[:k]]: a negative bound counts from the end, and both ends are
    clamped to the list. *)
Definition py_slice_to {A} (l : list A) (k : Z) : list A :=
  take (Z.to_nat (py_norm (len l) k)) l.

(** The body of [for i in range(k, len(arr))], on the pair
    [(window_sum, max_sum)]. *)
Fixpoint slide (arr : list Z) (k : Z) (range : list Z) (window_sum max_sum : Z)
  : outcome Z :=
  match range with
  | [] => Ret max_sum
  | i :: range' =>
      a ← py_index arr i;
      b ← py_index arr (i - k);
      let window_sum := window_sum + (a - b) in
      slide arr k range' window_sum (Z.max max_sum window_sum)
  end.

Definition max_sum_subarray (arr : list Z) (k : Z) : outcome Z :=
  if decide (len arr < k) then Ret (-1)
  else
    let window_sum := sum (py_slice_to arr k) in
    slide arr k (seqZ k (len arr - k)) window_sum window_sum.

(** The sum of the window of size [k] that starts at index [i], and what it
    means for [m] to be the greatest of them. *)
Definition window (arr : list Z) (i k : nat) : Z := sum (take k (drop i arr)).

Definition is_max_window_sum (arr : list Z) (k : nat) (m : Z) : Prop :=
  (exists i : nat, (i + k <= length arr)%nat /\ window arr i k = m) /\
  (forall i : nat, (i + k <= length arr)%nat -> window arr i k <= m).


(** ** smallest_subarray_sum *)

(** [min_length] starts as [float('inf')], for which [None] stands:
    [min(min_length, x)]. *)
Definition min_inf (min_length : option Z) (x : Z) : option Z :=
  match min_length with
  | None => Some x
  | Some y => Some (Z.min y x)
  end.

(** The [while window_sum >= target] loop, on
    [(left, window_sum, min_length)]. *)
Fixpoint shrink (fuel : nat) (arr : list Z) (target right left window_sum : Z)
    (min_length : option Z) : outcome (Z * Z * option Z) :=
  match fuel with
  | O => OutOfFuel
  | S fuel' =>
      if decide (window_sum >= target) then
        let min_length := min_inf min_length (right - left + 1) in
        a ← py_index arr left;
        shrink fuel' arr target right (left + 1) (window_sum - a) min_length
      else Ret (left, window_sum, min_length)
  end.

(** [for right in range(len(arr))].  A round of the inner loop moves [left]
    one cell to the right or raises, so it takes no more rounds than the
    list has cells, and one test more. *)
Fixpoint smallest_subarray_sum_loop (range : list Z) (arr : list Z)
    (target left window_sum : Z) (min_length : option Z) : outcome (option Z) :=
  match range with
  | [] => Ret min_length
  | r :: range' =>
      let right := r in
      a ← py_index arr right;
      '(left, window_sum, min_length) ←
        shrink (S (S (length arr))) arr target right left (window_sum + a)
          min_length;
      smallest_subarray_sum_loop range' arr target left window_sum min_length
  end.

(** [return min_length if min_length != float('inf') else 0]. *)
Definition smallest_subarray_sum (arr : list Z) (target : Z) : outcome Z :=
  min_length ← smallest_subarray_sum_loop (seqZ 0 (len arr)) arr target 0 0 None;
  Ret (default 0 min_length).

(** The sum of the first [n] cells, and a window of [k] cells from index
    [i] on that reaches the target. *)
Definition prefix (arr : list Z) (n : nat) : Z := sum (take n arr).

Definition reaches (arr : list Z) (target : Z) (i k : nat) : Prop :=
  (0 < k)%nat /\ (i + k <= length arr)%nat /\ target <= window arr i k.

End SlidingWindow.

(** * two_pointers.py *)

Module TwoPointers.

(** The [while current <= right] loop of [sort_colors].  A tuple assignment
    [nums[i], nums[j] = nums[j], nums[i]] reads both right-hand sides and
    then stores into [nums[i]] and [nums[j]], in this order. *)
Fixpoint sort_colors_loop (fuel : nat) (nums : list Z) (left current right : Z)
  : outcome (list Z) :=
  match fuel with
  | O => OutOfFuel
  | S fuel' =>
      if decide (current <= right) then
        c ← py_index nums current;
        if decide (c = 0) then
          a ← py_index nums current;
          b ← py_index nums left;
          nums ← py_update nums left a;
          nums ← py_update nums current b;
          sort_colors_loop fuel' nums (left + 1) (current + 1) right
        else if decide (c = 2) then
          a ← py_index nums right;
          b ← py_index nums current;
          nums ← py_update nums current a;
          nums ← py_update nums right b;
          sort_colors_loop fuel' nums left current (right - 1)
        else sort_colors_loop fuel' nums left (current + 1) right
      else Ret nums
  end.

(** [sort_colors] returns [None] and sorts [nums] in place: the model
    returns the final contents of [nums]. *)
Definition sort_colors (nums : list Z) : outcome (list Z) :=
  sort_colors_loop (S (length nums)) nums 0 0 (len nums - 1).

(** "Array containing only 0, 1, 2". *)
Definition colors (nums : list Z) : Prop := Forall (fun x => 0 <= x <= 2) nums.

(** The three-way partition invariant: [nums] is a block of zeros, a block
    of ones, the unexamined part [u] and a block of twos, with [left],
    [current] and [right] at the block boundaries. *)
Definition flag (a b : nat) (u : list Z) (c : nat) : list Z :=
  replicate a 0 ++ replicate b 1 ++ u ++ replicate c 2.


(** The [while left < right] loop of [two_sum_sorted]. *)
Fixpoint two_sum_sorted_loop (fuel : nat) (arr : list Z) (target left right : Z)
  : outcome (list Z) :=
  match fuel with
  | O => OutOfFuel
  | S fuel' =>
      if decide (left < right) then
        a ← py_index arr left;
        b ← py_index arr right;
        let current_sum := a + b in
        if decide (current_sum = target) then Ret [left; right]
        else if decide (current_sum < target) then
          two_sum_sorted_loop fuel' arr target (left + 1) right
        else two_sum_sorted_loop fuel' arr target left (right - 1)
      else Ret [-1; -1]
  end.

Definition two_sum_sorted (arr : list Z) (target : Z) : outcome (list Z) :=
  two_sum_sorted_loop (S (length arr)) arr target 0 (len arr - 1).

(** [for fast in range(1, len(arr))], on the pair [(arr, slow)]. *)
Fixpoint remove_duplicates_loop (range : list Z) (arr : list Z) (slow : Z)
  : outcome (list Z * Z) :=
  match range with
  | [] => Ret (arr, slow)
  | fast :: range' =>
      a ← py_index arr fast;
      b ← py_index arr slow;
      if decide (a <> b) then
        let slow := slow + 1 in
        x ← py_index arr fast;
        arr ← py_update arr slow x;
        remove_duplicates_loop range' arr slow
      else remove_duplicates_loop range' arr slow
  end.

(** [remove_duplicates] works in place: the model returns the final
    contents of [arr] next to the result. *)
Definition remove_duplicates (arr : list Z) : outcome (list Z * Z) :=
  match arr with
  | [] => Ret (arr, 0)
  | _ =>
      '(arr, slow) ← remove_duplicates_loop (seqZ 1 (len arr - 1)) arr 0;
      Ret (arr, slow + 1)
  end.

(** The [while left < right] loop of [max_area]. *)
Fixpoint max_area_loop (fuel : nat) (height : list Z) (left right max_water : Z)
  : outcome Z :=
  match fuel with
  | O => OutOfFuel
  | S fuel' =>
      if decide (left < right) then
        let width := right - left in
        a ← py_index height left;
        b ← py_index height right;
        let current_area := Z.min a b * width in
        let max_water := Z.max max_water current_area in
        (* move the pointer with the smaller height *)
        if decide (a < b)
        then max_area_loop fuel' height (left + 1) right max_water
        else max_area_loop fuel' height left (right - 1) max_water
      else Ret max_water
  end.

Definition max_area (height : list Z) : outcome Z :=
  max_area_loop (S (length height)) height 0 (len height - 1) 0.

(** The water held between the lines at [i] and [j]. *)
Definition area (height : list Z) (i j : nat) : Z :=
  Z.min (default 0 (height !! i)) (default 0 (height !! j)) * (Z.of_nat j - Z.of_nat i).

End TwoPointers.

(** * subsets_backtracking.py *)

Module SubsetsBacktracking.

(** ** class SubsetGeneration *)







(** ** class PermutationGeneration *)






(** ** class WordProblems *)

(** A board is a list of rows of one-character strings.  [word_search]
    writes into the board it was given, and what it has written is still
    there when a call raises.  So a computation on the board takes the
    board and gives the board as it leaves it, next to its outcome. *)
Abbreviation board_t := (list (list ascii)).

Definition on_board (A : Type) : Type := board_t -> board_t * outcome A.

#[global] Instance on_board_ret : MRet on_board := fun A a board => (board, Ret a).
#[global] Instance on_board_bind : MBind on_board := fun A B k m board =>
  match m board with
  | (board, Ret a) => k a board
  | (board, Raise e) => (board, Raise e)
  | (board, OutOfFuel) => (board, OutOfFuel)
  end.

(** The visited marker ['#']. *)
Definition marker : ascii := "#"%char.

(** [board[row][col]] and [board[row][col] = x]. *)
Definition get (row col : Z) : on_board ascii := fun board =>
  (board, r ← py_index board row; py_index r col).

Definition set (row col : Z) (x : ascii) : on_board unit := fun board =>
  match (r ← py_index board row;
         r ← py_update r col x;
         py_update board row r) with
  | Ret board' => (board', Ret ())
  | Raise e => (board, Raise e)
  | OutOfFuel => (board, OutOfFuel)
  end.

(** [a or b] on calls that return booleans: [b] is evaluated only when [a]
    is false. *)
Definition or_else (a b : on_board bool) : on_board bool :=
  found ← a; if found : bool then mret true else b.

(** The inner function [backtrack] of [word_search].  Every call is a frame
    of the interpreter, and a call for which no frame is left raises
    [RecursionError].  The argument [w] is the rest of the word,
    [word[index:]]: [index == len(word)] is [w = []], [word[index]] is its
    head and [index + 1] its tail. *)
Fixpoint backtrack (frames : nat) (rows cols : Z) (w : list ascii)
    (row col : Z) : on_board bool :=
  match frames with
  | O => fun board => (board, Raise RecursionError)
  | S frames' =>
      match w with
      | [] => mret true
      | ch :: w' =>
          if decide (row < 0 \/ row >= rows \/ col < 0 \/ col >= cols)
          then mret false
          else
            x ← get row col;
            if decide (x <> ch) then mret false
            else
              (* mark the cell as visited *)
              temp ← get row col;
              _ ← set row col marker;
              (* search in all 4 directions *)
              found ←
                or_else (backtrack frames' rows cols w' (row + 1) col)
                  (or_else (backtrack frames' rows cols w' (row - 1) col)
                     (or_else (backtrack frames' rows cols w' row (col + 1))
                        (backtrack frames' rows cols w' row (col - 1))));
              (* restore the cell *)
              _ ← set row col temp;
              mret found
      end
  end.

(** [for j in range(cols): if backtrack(i, j, 0): return True]. *)
Fixpoint scan_cols (frames : nat) (rows cols : Z) (word : list ascii)
    (i : Z) (range : list Z) : on_board bool :=
  match range with
  | [] => mret false
  | j :: range' =>
      found ← backtrack frames rows cols word i j;
      if found : bool then mret true
      else scan_cols frames rows cols word i range'
  end.

(** [for i in range(rows): ...]. *)
Fixpoint scan_rows (frames : nat) (rows cols : Z) (word : list ascii)
    (range : list Z) : on_board bool :=
  match range with
  | [] => mret false
  | i :: range' =>
      found ← scan_cols frames rows cols word i (seqZ 0 cols);
      if found : bool then mret true
      else scan_rows frames rows cols word range'
  end.

(** [word_search] returns its boolean; the model gives the board as the call
    leaves it, and the boolean or the exception.  The call itself takes a
    frame, and the calls of [backtrack] are made inside it. *)
Definition word_search (frames : nat) (board : board_t) (word : list ascii)
  : board_t * outcome bool :=
  match frames with
  | O => (board, Raise RecursionError)
  | S frames' =>
      let rows := len board in
      match py_index board 0 with
      | Ret row0 =>
          let cols := len row0 in
          scan_rows frames' rows cols word (seqZ 0 rows) board
      | Raise e => (board, Raise e)
      | OutOfFuel => (board, OutOfFuel)
      end
  end.

(** A board with [rows] rows of [cols] cells each. *)
Definition shaped (rows cols : Z) (board : board_t) : Prop :=
  len board = rows /\ Forall (fun r => len r = cols) board.

(** A rectangular board: it has a first row and all rows have its length. *)
Definition rectangular (board : board_t) : Prop :=
  exists row0, board !! 0%nat = Some row0 /\ shaped (len board) (len row0) board.

(** The board of the demonstration block. *)
Definition demo_board : board_t :=
  [["A"; "B"; "C"; "E"]; ["S"; "F"; "C"; "S"]; ["A"; "D"; "E"; "E"]]%char.

(** What a call that was started on [board] may end with: a result and
    [board] as it was, or [RecursionError]. *)
Definition restores {A} (board : board_t) (r : board_t * outcome A) : Prop :=
  match r with
  | (board', Ret _) => board' = board
  | (_, Raise e) => e = RecursionError
  | (_, OutOfFuel) => False
  end.

(** The number of cells that hold the marker. *)
Definition marked (board : board_t) : nat :=
  sum_list ((fun r => length (filter (fun c => c = marker) r)) <$> board).

End SubsetsBacktracking.

(** * merge_intervals.py *)

Module MergeIntervals.

(** An interval [[start, end]] is a mutable Python list, and
    [merge_intervals] writes into the intervals it was given: the list it
    returns shares its intervals with the argument.  So intervals live in a
    store, addressed by reference, and a list of intervals is a list of
    references. *)
Abbreviation ref := nat (only parsing).
Abbreviation store := (nat -> Z * Z).

(** [x[0]], [x[1]] and [x[1] = e] for the interval at reference [x]. *)
Definition start_of (h : store) (x : ref) : Z := (h x).1.
Definition end_of (h : store) (x : ref) : Z := (h x).2.
Definition set_end (h : store) (x : ref) (e : Z) : store :=
  <[x := (start_of h x, e)]> h.

(** What [==] sees of a list of intervals. *)
Definition value (h : store) (l : list ref) : list (Z * Z) := h <$> l.

(** [l.sort(key=...)] and [sorted(l)] are stable; the result of a stable
    sort is determined by the keys, and insertion sort computes it. *)
Fixpoint insert_by {A} (key : A -> Z) (x : A) (l : list A) : list A :=
  match l with
  | [] => [x]
  | y :: l' => if decide (key x <= key y) then x :: l else y :: insert_by key x l'
  end.

Definition sort_by {A} (key : A -> Z) (l : list A) : list A :=
  foldr (insert_by key) [] l.

(** [for current in intervals[1:]], with the store and the list [merged]. *)
Fixpoint merge_loop (h : store) (merged rest : list ref)
  : outcome (store * list ref) :=
  match rest with
  | [] => Ret (h, merged)
  | current :: rest' =>
      last_merged ← py_index merged (-1);
      if decide (start_of h current <= end_of h last_merged) then
        (* merge intervals by updating end time *)
        let h := set_end h last_merged
                   (Z.max (end_of h last_merged) (end_of h current)) in
        merge_loop h merged rest'
      else
        (* no overlap, add current interval *)
        merge_loop h (merged ++ [current]) rest'
  end.

(** The call returns the list [merged]; it also leaves the store and the
    argument list (sorted in place) changed, so the model returns all
    three, in this order: store, argument list, result. *)
Definition merge_intervals (h : store) (intervals : list ref)
  : outcome (store * list ref * list ref) :=
  match intervals with
  | [] => Ret (h, [], [])
  | _ =>
      let intervals := sort_by (start_of h) intervals in
      first ← py_index intervals 0;
      '(h, merged) ← merge_loop h [first] (drop 1 intervals);
      Ret (h, intervals, merged)
  end.

(** A call on freshly built intervals, as the tests make it: interval [i]
    of [xs] is stored at reference [i]. *)
Definition fresh (xs : list (Z * Z)) : store := fun x => default (0, 0) (xs !! x).

Definition merge_fresh (xs : list (Z * Z)) : outcome (list (Z * Z)) :=
  '(h, _, merged) ← merge_intervals (fresh xs) (seq 0 (length xs));
  Ret (value h merged).

(** [start <= end] for the interval at [x]. *)
Definition well_formed (h : store) (x : ref) : Prop := start_of h x <= end_of h x.

(** ** Meeting rooms *)

(** The [while start_ptr < len(intervals)] loop of [min_meeting_rooms]. *)
Fixpoint rooms_loop (fuel : nat) (n : Z) (starts ends : list Z)
    (start_ptr end_ptr rooms_needed max_rooms : Z) : outcome Z :=
  match fuel with
  | O => OutOfFuel
  | S fuel' =>
      if decide (start_ptr < n) then
        s ← py_index starts start_ptr;
        e ← py_index ends end_ptr;
        if decide (s < e) then
          (* a meeting starts before another ends: a new room *)
          let rooms_needed := rooms_needed + 1 in
          rooms_loop fuel' n starts ends (start_ptr + 1) end_ptr rooms_needed
            (Z.max max_rooms rooms_needed)
        else
          (* a meeting ended: free up a room *)
          rooms_loop fuel' n starts ends start_ptr (end_ptr + 1)
            (rooms_needed - 1) max_rooms
      else Ret max_rooms
  end.

(** [min_meeting_rooms] only reads its intervals, so they are values here. *)
Definition min_meeting_rooms (intervals : list (Z * Z)) : outcome Z :=
  match intervals with
  | [] => Ret 0
  | _ =>
      let starts := sort_by id (fst <$> intervals) in
      let ends := sort_by id (snd <$> intervals) in
      rooms_loop (S (2 * length intervals)) (len intervals) starts ends 0 0 0 0
  end.

(** The number of meetings in progress at time [t], a meeting [[s, e]]
    occupying its room on [s <= t < e]. *)
Definition occupancy (intervals : list (Z * Z)) (t : Z) : Z :=
  len (filter (fun i => i.1 <= t < i.2) intervals).

(** ** Notions used to state the properties *)

(** Non-decreasing keys, by index. *)
Definition ascending {A} (key : A -> Z) (l : list A) : Prop :=
  forall (i j : nat) (a b : A),
    (i < j)%nat -> l !! i = Some a -> l !! j = Some b -> key a <= key b.

(** Each interval of the list ends before the next one starts. *)
Definition separated (h : store) (l : list ref) : Prop :=
  forall (i : nat) (a b : ref),
    l !! i = Some a -> l !! S i = Some b -> end_of h a < start_of h b.

(** The number of elements of [l] that are at most [t]. *)
Definition upto (l : list Z) (t : Z) : Z := len (filter (fun x => x <= t) l).

(** Meetings started minus meetings ended, at time [t]. *)
Definition in_progress (starts ends : list Z) (t : Z) : Z :=
  upto starts t - upto ends t.


(** Times are rationals: the ends of the intervals are integers, and a
    time may lie between two integers, as the times between [[1, 2]] and
    [[3, 4]] do.  [within s e t]: the time [t] lies in [[s, e]], ends
    included. *)
Definition within (s e : Z) (t : Q) : Prop :=
  (inject_Z s <= t <= inject_Z e)%Q.

(** The time [t] lies in one of the intervals of [l], ends included. *)
Definition covered (h : store) (l : list ref) (t : Q) : Prop :=
  exists x, x ∈ l /\ within (start_of h x) (end_of h x) t.

(** A time compares with an integer as [grid t] compares with twice the
    integer: [grid t] is twice [t] when [t] is an integer, and twice the
    point half way between the integers next to [t] when it is not.  This
    takes the comparisons of the proofs to integer arithmetic. *)
Definition grid (t : Q) : Z := Qfloor t + Qceiling t.


(** ** insert_interval *)

(** [x[0] = s] for the interval at reference [x]. *)
Definition set_start (h : store) (x : ref) (s : Z) : store :=
  <[x := (s, end_of h x)]> h.

(** [insert_interval] writes into [new_interval] and puts it into the list
    it returns, so its intervals live in the store as well.  The first
    loop: the intervals that end before the new interval starts. *)
Fixpoint insert_before (fuel : nat) (h : store) (intervals : list ref)
    (new_interval : ref) (i : Z) (result : list ref) : outcome (Z * list ref) :=
  match fuel with
  | O => OutOfFuel
  | S fuel' =>
      if decide (i < len intervals) then
        x ← py_index intervals i;
        if decide (end_of h x < start_of h new_interval) then
          insert_before fuel' h intervals new_interval (i + 1) (result ++ [x])
        else Ret (i, result)
      else Ret (i, result)
  end.

(** The second loop: the intervals that overlap the new interval are
    merged into it. *)
Fixpoint insert_absorb (fuel : nat) (h : store) (intervals : list ref)
    (new_interval : ref) (i : Z) : outcome (store * Z) :=
  match fuel with
  | O => OutOfFuel
  | S fuel' =>
      if decide (i < len intervals) then
        x ← py_index intervals i;
        if decide (start_of h x <= end_of h new_interval) then
          let h := set_start h new_interval
                     (Z.min (start_of h new_interval) (start_of h x)) in
          let h := set_end h new_interval
                     (Z.max (end_of h new_interval) (end_of h x)) in
          insert_absorb fuel' h intervals new_interval (i + 1)
        else Ret (h, i)
      else Ret (h, i)
  end.

(** The third loop: the remaining intervals. *)
Fixpoint insert_after (fuel : nat) (intervals : list ref) (i : Z)
    (result : list ref) : outcome (list ref) :=
  match fuel with
  | O => OutOfFuel
  | S fuel' =>
      if decide (i < len intervals) then
        x ← py_index intervals i;
        insert_after fuel' intervals (i + 1) (result ++ [x])
      else Ret result
  end.

(** Every round of the three loops moves [i] one cell to the right. *)
Definition insert_interval (h : store) (intervals : list ref) (new_interval : ref)
  : outcome (store * list ref) :=
  '(i, result) ← insert_before (S (length intervals)) h intervals new_interval 0 [];
  '(h, i) ← insert_absorb (S (length intervals)) h intervals new_interval i;
  let result := result ++ [new_interval] in
  result ← insert_after (S (length intervals)) intervals i result;
  Ret (h, result).


(** ** employee_free_time *)

(** [for i in range(1, len(merged))]: the gaps between neighbours, which
    are new lists [[end, start]]. *)
Fixpoint free_time_loop (h : store) (merged : list ref) (range : list Z)
    (free_time : list (Z * Z)) : outcome (list (Z * Z)) :=
  match range with
  | [] => Ret free_time
  | i :: range' =>
      prev ← py_index merged (i - 1);
      cur ← py_index merged i;
      if decide (end_of h prev < start_of h cur) then
        free_time_loop h merged range'
          (free_time ++ [(end_of h prev, start_of h cur)])
      else free_time_loop h merged range' free_time
  end.

(** [all_intervals] is a new list that takes the intervals of the
    schedules, and it is handed to [merge_intervals], which writes into
    them. *)
Definition employee_free_time (h : store) (schedule : list (list ref))
  : outcome (store * list (Z * Z)) :=
  let all_intervals := mjoin schedule in
  '(h, _, merged) ← merge_intervals h all_intervals;
  free_time ← free_time_loop h merged (seqZ 1 (len merged - 1)) [];
  Ret (h, free_time).


(** ** Intersections *)

(** [interval_intersection] only reads its intervals and builds new ones, so
    intervals are values here.  The loop is
    [while i < len(first_list) and j < len(second_list)]. *)
Fixpoint interval_intersection_loop (fuel : nat)
    (first_list second_list : list (Z * Z)) (i j : Z) (result : list (Z * Z))
  : outcome (list (Z * Z)) :=
  match fuel with
  | O => OutOfFuel
  | S fuel' =>
      if decide (i < len first_list /\ j < len second_list) then
        a ← py_index first_list i;
        b ← py_index second_list j;
        let start := Z.max a.1 b.1 in
        let end_ := Z.min a.2 b.2 in
        let result :=
          if decide (start <= end_) then result ++ [(start, end_)] else result in
        (* move the pointer of the interval that ends first *)
        if decide (a.2 < b.2)
        then interval_intersection_loop fuel' first_list second_list (i + 1) j result
        else interval_intersection_loop fuel' first_list second_list i (j + 1) result
      else Ret result
  end.

Definition interval_intersection (first_list second_list : list (Z * Z))
  : outcome (list (Z * Z)) :=
  interval_intersection_loop (S (length first_list + length second_list))
    first_list second_list 0 0 [].

(** The time [t] lies in one of the intervals, ends included; and a list
    of intervals with [start <= end] in which each interval ends no later
    than the following ones start. *)
Definition covers (l : list (Z * Z)) (t : Q) : Prop :=
  exists i, i ∈ l /\ within i.1 i.2 t.

Definition chained (l : list (Z * Z)) : Prop :=
  Forall (fun i => i.1 <= i.2) l /\ StronglySorted (fun x y => x.2 <= y.1) l.

(** ** Attending all meetings *)

(** [for i in range(1, len(intervals))]: the first pair of neighbours that
    overlap ends the loop. *)
Fixpoint can_attend_loop (intervals : list (Z * Z)) (range : list Z)
  : outcome bool :=
  match range with
  | [] => Ret true
  | i :: range' =>
      cur ← py_index intervals i;
      prev ← py_index intervals (i - 1);
      if decide (cur.1 < prev.2) then Ret false
      else can_attend_loop intervals range'
  end.

(** The call sorts its argument in place; the model returns the argument
    as the call leaves it, and the result. *)
Definition can_attend_meetings (intervals : list (Z * Z))
  : outcome (list (Z * Z) * bool) :=
  match intervals with
  | [] => Ret ([], true)
  | _ =>
      let intervals := sort_by fst intervals in
      r ← can_attend_loop intervals (seqZ 1 (len intervals - 1));
      Ret (intervals, r)
  end.

End MergeIntervals.

(** * fast_slow_pointers.py *)

Module FastSlowPointers.

(** [ListNode] objects live in an arena and are identified by their index;
    a variable of type [Optional[ListNode]] holds [None] or an index.  Two
    nodes are [==] when they are the same object ([ListNode] defines no
    [__eq__]). *)
Record ListNode : Type := { val : Z; next : option nat }.

Abbreviation heap := (list ListNode).

(** [x.next] for a node [x], and for a variable that may hold [None]. *)
Definition next_of (h : heap) (x : nat) : option nat := h !! x ≫= next.

Definition attr_next (h : heap) (x : option nat) : outcome (option nat) :=
  match x with
  | None => Raise AttributeError
  | Some a => Ret (next_of h a)
  end.

(** The loop [while fast and fast.next] of [has_cycle]. *)
Fixpoint has_cycle_loop (fuel : nat) (h : heap) (slow fast : option nat)
  : outcome bool :=
  match fuel with
  | O => OutOfFuel
  | S fuel' =>
      match fast ≫= next_of h with
      | None => Ret false
      | Some fast_next =>
          slow ← attr_next h slow;
          let fast := next_of h fast_next in
          if decide (slow = fast) then Ret true
          else has_cycle_loop fuel' h slow fast
      end
  end.

Definition has_cycle (h : heap) (head : option nat) : outcome bool :=
  match head ≫= next_of h with
  | None => Ret false
  | Some _ => has_cycle_loop (length h + 2) h head head
  end.

(** The first loop of [find_cycle_start]: [Some slow] when it leaves by
    [break], [None] when the condition fails and the [else] clause runs. *)
Fixpoint meet_loop (fuel : nat) (h : heap) (slow fast : option nat)
  : outcome (option (option nat)) :=
  match fuel with
  | O => OutOfFuel
  | S fuel' =>
      match fast ≫= next_of h with
      | None => Ret None
      | Some fast_next =>
          slow ← attr_next h slow;
          let fast := next_of h fast_next in
          if decide (slow = fast) then Ret (Some slow)
          else meet_loop fuel' h slow fast
      end
  end.

(** The second loop, [while current != slow]. *)
Fixpoint cycle_start_loop (fuel : nat) (h : heap) (current slow : option nat)
  : outcome (option nat) :=
  match fuel with
  | O => OutOfFuel
  | S fuel' =>
      if decide (current <> slow) then
        current ← attr_next h current;
        slow ← attr_next h slow;
        cycle_start_loop fuel' h current slow
      else Ret current
  end.

Definition find_cycle_start (h : heap) (head : option nat) : outcome (option nat) :=
  match head ≫= next_of h with
  | None => Ret None
  | Some _ =>
      met ← meet_loop (length h + 2) h head head;
      match met with
      | None => Ret None
      | Some slow => cycle_start_loop (length h + 1) h head slow
      end
  end.

(** ** The middle node *)

(** The loop [while fast and fast.next] of [find_middle_node], which has no
    other exit. *)
Fixpoint find_middle_node_loop (fuel : nat) (h : heap) (slow fast : option nat)
  : outcome (option nat) :=
  match fuel with
  | O => OutOfFuel
  | S fuel' =>
      match fast ≫= next_of h with
      | None => Ret slow
      | Some fast_next =>
          slow ← attr_next h slow;
          let fast := next_of h fast_next in
          find_middle_node_loop fuel' h slow fast
      end
  end.

Definition find_middle_node (h : heap) (head : option nat) : outcome (option nat) :=
  match head with
  | None => Ret None
  | Some _ => find_middle_node_loop (length h + 2) h head head
  end.


(** ** Chains *)

(** The node reached from [x] by following [next] [n] times. *)
Fixpoint walk (h : heap) (n : nat) (x : option nat) : option nat :=
  match n with
  | O => x
  | S n' => walk h n' (x ≫= next_of h)
  end.

(** [k] lies on a cycle: following [next] from [k] comes back to [k]. *)
Definition on_cycle (h : heap) (k : nat) : Prop :=
  exists p : nat, (0 < p)%nat /\ walk h p (Some k) = Some k.

(** The chain from [head] has a cycle, and [k] is the first node of the
    traversal that lies on it. *)
Definition cycle_starts_at (h : heap) (head : option nat) (k : nat) : Prop :=
  exists mu : nat,
    walk h mu head = Some k /\ on_cycle h k /\
    forall (i : nat) (y : nat),
      (i < mu)%nat -> walk h i head = Some y -> ~ on_cycle h y.

(** The chain from [head] ends. *)
Definition acyclic (h : heap) (head : option nat) : Prop :=
  exists n : nat, walk h n head = None.

(** The lists of [test_has_cycle]: 1 -> 2 -> 3 -> 2 and 1 -> 2 -> 3 -> None. *)
Definition test_cyclic : heap :=
  [ {| val := 1; next := Some 1%nat |};
    {| val := 2; next := Some 2%nat |};
    {| val := 3; next := Some 1%nat |} ].

Definition test_acyclic : heap :=
  [ {| val := 1; next := Some 1%nat |};
    {| val := 2; next := Some 2%nat |};
    {| val := 3; next := None |} ].

End FastSlowPointers.

(** * graph_traversal.py *)

Module GraphTraversal.

(** A graph is a [dict] from a vertex to the list of its neighbours, and
    [graph[v]] raises [KeyError] for a vertex without an entry. *)
Abbreviation graph := (gmap Z (list Z)).

Definition adj (g : graph) (v : Z) : outcome (list Z) :=
  match g !! v with
  | Some neighbors => Ret neighbors
  | None => Raise KeyError
  end.

(** ** Recursive DFS

    The set [visited] is shared by all the calls, which add to it in place:
    a call takes it and returns it next to its result.  [visit_neighbors] is
    the [for neighbor in graph[start]] loop, [self] being the recursive
    call.  Every call of [dfs_recursive] is a frame of the interpreter, and
    a call for which no frame is left raises [RecursionError]. *)
Fixpoint visit_neighbors (self : Z -> gset Z -> outcome (list Z * gset Z))
    (neighbors : list Z) (result : list Z) (visited : gset Z)
  : outcome (list Z * gset Z) :=
  match neighbors with
  | [] => Ret (result, visited)
  | neighbor :: neighbors' =>
      if decide (neighbor ∈ visited) then
        visit_neighbors self neighbors' result visited
      else
        '(sub, visited) ← self neighbor visited;
        visit_neighbors self neighbors' (result ++ sub) visited
  end.

Fixpoint dfs_recursive_from (frames : nat) (g : graph) (start : Z)
    (visited : gset Z) : outcome (list Z * gset Z) :=
  match frames with
  | O => Raise RecursionError
  | S frames' =>
      let visited := {[start]} ∪ visited in
      let result := [start] in
      neighbors ← adj g start;
      visit_neighbors (dfs_recursive_from frames' g) neighbors result visited
  end.

(** The call of a client, [visited=None]: a new empty set. *)
Definition dfs_recursive (frames : nat) (g : graph) (start : Z)
  : outcome (list Z) :=
  '(result, _) ← dfs_recursive_from frames g start ∅;
  Ret result.

(** ** Iterative DFS

    The stack is kept with its top first: [stack.append(v)] is [v :: stack]
    and [stack.pop()] takes the head.  [push_unvisited] is the loop
    [for neighbor in reversed(graph[vertex])], so it is run on the reversed
    list of neighbours. *)
Fixpoint push_unvisited (visited : gset Z) (neighbors : list Z) (stack : list Z)
  : list Z :=
  match neighbors with
  | [] => stack
  | neighbor :: neighbors' =>
      push_unvisited visited neighbors'
        (if decide (neighbor ∈ visited) then stack else neighbor :: stack)
  end.

Fixpoint dfs_iterative_loop (fuel : nat) (g : graph) (stack : list Z)
    (visited : gset Z) (result : list Z) : outcome (list Z) :=
  match fuel with
  | O => OutOfFuel
  | S fuel' =>
      match stack with
      | [] => Ret result
      | vertex :: stack =>
          if decide (vertex ∈ visited) then
            dfs_iterative_loop fuel' g stack visited result
          else
            let visited := {[vertex]} ∪ visited in
            let result := result ++ [vertex] in
            neighbors ← adj g vertex;
            let stack := push_unvisited visited (reverse neighbors) stack in
            dfs_iterative_loop fuel' g stack visited result
      end
  end.

(** The number of entries of all adjacency lists: every round of the loop
    pops one vertex, and no more vertices are pushed than this, after
    [start]. *)
Definition edges (g : graph) : nat :=
  sum_list ((fun e => length e.2) <$> map_to_list g).

Definition dfs_iterative (g : graph) (start : Z) : outcome (list Z) :=
  dfs_iterative_loop (S (S (edges g))) g [start] ∅ [].

(** ** BFS

    The queue is a [deque]: [popleft] takes the head, [append] adds at the
    end.  [enqueue_unvisited] is the loop [for neighbor in graph[vertex]]. *)
Fixpoint enqueue_unvisited (visited : gset Z) (neighbors : list Z) (queue : list Z)
  : list Z :=
  match neighbors with
  | [] => queue
  | neighbor :: neighbors' =>
      enqueue_unvisited visited neighbors'
        (if decide (neighbor ∈ visited) then queue else queue ++ [neighbor])
  end.

Fixpoint bfs_loop (fuel : nat) (g : graph) (queue : list Z)
    (visited : gset Z) (result : list Z) : outcome (list Z) :=
  match fuel with
  | O => OutOfFuel
  | S fuel' =>
      match queue with
      | [] => Ret result
      | vertex :: queue =>
          if decide (vertex ∈ visited) then
            bfs_loop fuel' g queue visited result
          else
            let visited := {[vertex]} ∪ visited in
            let result := result ++ [vertex] in
            neighbors ← adj g vertex;
            let queue := enqueue_unvisited visited neighbors queue in
            bfs_loop fuel' g queue visited result
      end
  end.

(** As for [dfs_iterative], no more vertices are enqueued than the
    adjacency lists have entries, after [start]. *)
Definition bfs (g : graph) (start : Z) : outcome (list Z) :=
  bfs_loop (S (S (edges g))) g [start] ∅ [].

(** The vertex [u] has an entry, and all its neighbours are in [V]. *)
Definition settled (g : graph) (V : gset Z) (u : Z) : Prop :=
  exists neighbors, g !! u = Some neighbors /\ forall w, w ∈ neighbors -> w ∈ V.


(** [v] can be reached from [s] along entries of the graph. *)
Inductive reachable (g : graph) (s : Z) : Z -> Prop :=
| reachable_refl : reachable g s s
| reachable_step (u v : Z) (neighbors : list Z) :
    reachable g s u -> g !! u = Some neighbors -> v ∈ neighbors ->
    reachable g s v.

(** "An entry for every reachable vertex". *)
Definition closed_from (g : graph) (s : Z) : Prop :=
  forall v, reachable g s v -> is_Some (g !! v).

(** ** Notions used to state the properties *)

(** The graph of the demonstration block. *)
Definition demo_graph : graph :=
  list_to_map [(0, [1; 2]); (1, [0; 3; 4]); (2, [0; 5; 6]);
               (3, [1]); (4, [1]); (5, [2]); (6, [2])].

(** A test for [closed_from] that can be run: the start vertex has an entry,
    and so has every vertex in an adjacency list. *)
Definition all_entries (g : graph) (start : Z) : bool :=
  bool_decide (is_Some (g !! start)) &&
  forallb (fun e : Z * list Z => forallb (fun n => bool_decide (is_Some (g !! n))) e.2)
    (map_to_list g).

(** The path [0 -> 1 -> ... -> n - 1]. *)
Definition path_graph (n : Z) : graph :=
  list_to_map
    ((fun i => (i, if decide (i + 1 < n) then [i + 1] else [])) <$> seqZ 0 n).

(** [simulates o run continue]: if the recursive call has outcome [o], the
    loop started as [run] takes some rounds and then goes on as [continue],
    with the set [visited] and the vertices the call returned; if the call
    raises because of the graph, so does the loop.  Nothing is said of a
    call that ran out of frames: the loop needs none. *)
Definition simulates (o : outcome (list Z * gset Z))
    (run : nat -> outcome (list Z))
    (continue : nat -> gset Z -> list Z -> outcome (list Z)) : Prop :=
  match o with
  | Ret (r, visited') => exists n, forall k, run (n + k)%nat = continue k visited' r
  | Raise RecursionError => True
  | Raise e => exists n, forall k, run (n + k)%nat = Raise e
  | OutOfFuel => True
  end.

(** The loop with [stack] and [result] as given, and the loop once a call
    has returned. *)
Definition run_from (g : graph) (stack : list Z) (visited : gset Z) (result : list Z)
  : nat -> outcome (list Z) :=
  fun fuel => dfs_iterative_loop fuel g stack visited result.

Definition resume (g : graph) (stack : list Z) (res : list Z)
  : nat -> gset Z -> list Z -> outcome (list Z) :=
  fun fuel visited' r => dfs_iterative_loop fuel g stack visited' (res ++ r).

(** The entries of the adjacency lists of the vertices that are not
    visited yet: a bound on what the loop can still push. *)
Definition unvisited_edges (g : graph) (visited : gset Z) : nat :=
  sum_list ((fun e : Z * list Z =>
               if decide (e.1 ∈ visited) then 0%nat else length e.2)
            <$> map_to_list g).

End GraphTraversal.

(* ================================================================= *)
(** * Properties *)

(** ** Running a call

    [bind_ret] takes one step of a sequence of calls whose first call is
    known to return or to raise. *)
Tactic Notation "bind_ret" := cbn [mbind outcome_bind].
Tactic Notation "bind_ret" "in" hyp(H) := cbn [mbind outcome_bind] in H.
Tactic Notation "bind_ret" "in" "*" := cbn [mbind outcome_bind] in *.

(** ** Python sequences *)

Lemma py_index_Ret {A} (l : list A) (i : Z) (x : A) :
  0 <= i -> l !! Z.to_nat i = Some x -> py_index l i = Ret x.
Proof.
  intros Hi Hx. unfold py_index, py_norm, len.
  pose proof (lookup_lt_Some _ _ _ Hx) as Hlt.
  destruct (decide (i < 0)) as [?|_]; [lia|].
  destruct (decide (0 <= i < Z.of_nat (length l))) as [_|?]; [|lia].
  by rewrite Hx.
Qed.

Lemma py_index_in_range {A} (l : list A) (i : Z) :
  0 <= i < len l -> exists x, l !! Z.to_nat i = Some x /\ py_index l i = Ret x.
Proof.
  intros Hi. unfold len in Hi.
  destruct (lookup_lt_is_Some_2 l (Z.to_nat i)) as [x Hx]; [lia|].
  exists x. split; [done|]. apply py_index_Ret; [lia|done].
Qed.

Lemma py_index_nil {A} (i : Z) : py_index (@nil A) i = Raise IndexError.
Proof.
  unfold py_index, py_norm, len. simpl.
  destruct (decide (i < 0)); case_decide; auto; lia.
Qed.

Lemma is_sorted_cons_inv (x : Z) (l : list Z) :
  is_sorted (x :: l) = true ->
  is_sorted l = true /\ forall y, y ∈ l -> x <= y.
Proof.
  revert x. induction l as [|y l IH]; intros x H.
  - split; [done|]. intros y Hy. by apply elem_of_nil in Hy.
  - simpl in H. apply andb_true_iff in H as [Hxy Hl].
    apply bool_decide_eq_true in Hxy.
    split; [exact Hl|].
    intros z Hz. apply elem_of_cons in Hz as [->|Hz]; [done|].
    destruct (IH y Hl) as [_ Hall]. specialize (Hall z Hz). lia.
Qed.

Lemma is_sorted_sorted_at (l : list Z) : is_sorted l = true -> sorted_at l.
Proof.
  induction l as [|a l IH]; intros Hs i j x y Hij Hi Hj.
  - by rewrite lookup_nil in Hi.
  - apply is_sorted_cons_inv in Hs as [Hl Hall].
    destruct i as [|i], j as [|j]; simpl in *.
    + simplify_eq. lia.
    + simplify_eq. apply Hall. by eapply list_elem_of_lookup_2.
    + lia.
    + eapply (IH Hl i j); eauto. lia.
Qed.

Lemma is_sorted_StronglySorted (l : list Z) :
  is_sorted l = true <-> StronglySorted Z.le l.
Proof.
  split.
  - induction l as [|x l IH]; intros Hs; [constructor|].
    apply is_sorted_cons_inv in Hs as [Hl Hall].
    constructor; [by apply IH|]. by apply Forall_forall.
  - induction 1 as [|x l Hl IH Hall]; [done|].
    destruct l as [|y l]; [done|]. simpl.
    apply Forall_cons in Hall as [Hxy _].
    apply andb_true_iff. split; [by apply bool_decide_eq_true|exact IH].
Qed.

Lemma StronglySorted_sorted_at (l : list Z) : StronglySorted Z.le l -> sorted_at l.
Proof. intros H. by apply is_sorted_sorted_at, is_sorted_StronglySorted. Qed.

(** ** binary_search.py *)

Module BinarySearchSpec.
Import BinarySearch.

(** The demonstration block of the module. *)
Example demo_binary_search : binary_search [1; 3; 5; 5; 5; 7; 9; 11] 5 = Ret 3.
Proof. reflexivity. Qed.
Example demo_first : find_first_occurrence [1; 3; 5; 5; 5; 7; 9; 11] 5 = Ret 2.
Proof. reflexivity. Qed.
Example demo_last : find_last_occurrence [1; 3; 5; 5; 5; 7; 9; 11] 5 = Ret 4.
Proof. reflexivity. Qed.
Example demo_insert : search_insert_position [1; 3; 5; 6] 2 = Ret 1.
Proof. reflexivity. Qed.
Example demo_rotated : search_rotated_array [4; 5; 6; 7; 0; 1; 2] 0 = Ret 4.
Proof. reflexivity. Qed.
Example demo_minimum : find_minimum_rotated [4; 5; 6; 7; 0; 1; 2] = Ret 0.
Proof. reflexivity. Qed.
Example demo_2d :
  search_2d_matrix [[1; 4; 7; 11]; [2; 5; 8; 12]; [3; 6; 9; 16]; [10; 13; 14; 17]] 5
  = Ret false.
Proof. reflexivity. Qed.
Example demo_peak : find_peak_element [1; 2; 3; 1] = Ret 2.
Proof. reflexivity. Qed.
Example demo_peak_2d : find_peak_2d [[1; 4]; [3; 2]] = Ret [1; 0].
Proof. reflexivity. Qed.

(** *** Exact search *)

Section sorted_input.
Variable S : list Z.
Variable v : Z.
Hypothesis S_sorted : sorted_at S.

Lemma mid_bounds (left right : Z) :
  left <= right -> left <= left + (right - left) / 2 <= right.
Proof. intros. Z.div_mod_to_equations. lia. Qed.

Lemma binary_search_loop_found (fuel : nat) : forall left right : Z,
  0 <= left -> right < len S -> right - left + 1 < Z.of_nat fuel ->
  (exists p : nat, left <= Z.of_nat p <= right /\ S !! p = Some v) ->
  exists i, binary_search_loop fuel S v left right = Ret i /\
            left <= i <= right /\ S !! Z.to_nat i = Some v.
Proof.
  induction fuel as [|fuel IH]; intros left right Hl Hr Hfuel [p [Hp Hpv]].
  - lia.
  - simpl. rewrite decide_True by lia.
    pose proof (mid_bounds left right ltac:(lia)) as Hmid.
    set (mid := left + (right - left) / 2) in *.
    destruct (py_index_in_range S mid ltac:(lia)) as [x [Hx ->]]. simpl.
    destruct (decide (x = v)) as [->|Hne].
    { exists mid. split; [done|]. split; [lia|done]. }
    destruct (decide (x < v)) as [Hlt|Hge].
    + destruct (IH (mid + 1) right) as [i [Hi [Hrange Hiv]]]; try lia.
      { exists p. split; [|done].
        destruct (decide (Z.of_nat p <= mid)) as [Hle|]; [|lia].
        pose proof (S_sorted p (Z.to_nat mid) v x ltac:(lia) Hpv Hx). lia. }
      exists i. split; [done|]. split; [lia|done].
    + destruct (IH left (mid - 1)) as [i [Hi [Hrange Hiv]]]; try lia.
      { exists p. split; [|done].
        destruct (decide (mid <= Z.of_nat p)) as [Hle|]; [|lia].
        pose proof (S_sorted (Z.to_nat mid) p x v ltac:(lia) Hx Hpv). lia. }
      exists i. split; [done|]. split; [lia|done].
Qed.

(** *** First and last occurrence

    Both loops keep [result] next to the window once a match was seen:
    [result = right + 1] for the first occurrence, [result = left - 1] for
    the last one. *)

Lemma find_first_occurrence_loop_min (fuel : nat) : forall left right result : Z,
  0 <= left -> right < len S -> right - left + 1 < Z.of_nat fuel ->
  (forall (j : nat) y, Z.of_nat j < left -> S !! j = Some y -> y < v) ->
  (forall (j : nat) y, right < Z.of_nat j -> S !! j = Some y -> v <= y) ->
  (exists p : nat, left <= Z.of_nat p <= right /\ S !! p = Some v) \/
  (result = right + 1 /\ left <= result /\ S !! Z.to_nat result = Some v) ->
  exists i, find_first_occurrence_loop fuel S v left right result = Ret i /\
            0 <= i < len S /\ S !! Z.to_nat i = Some v /\
            forall (j : nat) y, Z.of_nat j < i -> S !! j = Some y -> y < v.
Proof.
  induction fuel as [|fuel IH]; intros left right result Hl Hr Hfuel Hlo Hhi Hres.
  - destruct Hres as [[p [Hp _]]|[-> [? _]]]; lia.
  - simpl. destruct (decide (left <= right)) as [Hle|Hgt].
    + pose proof (mid_bounds left right Hle) as Hmid.
      set (mid := left + (right - left) / 2) in *.
      destruct (py_index_in_range S mid ltac:(lia)) as [x [Hx ->]]. simpl.
      destruct (decide (x = v)) as [->|Hne]; [|destruct (decide (x < v)) as [Hlt|Hge]].
      * apply IH; try lia; auto.
        { intros j y Hj Hy.
          apply (S_sorted (Z.to_nat mid) j v y ltac:(lia) Hx Hy). }
        right. split; [lia|]. split; [lia|done].
      * apply IH; try lia; auto.
        { intros j y Hj Hy.
          pose proof (S_sorted j (Z.to_nat mid) y x ltac:(lia) Hy Hx). lia. }
        destruct Hres as [[p [Hp Hpv]]|[-> [? Hrv]]].
        -- left. exists p. split; [|done].
           destruct (decide (Z.of_nat p <= mid)); [|lia].
           pose proof (S_sorted p (Z.to_nat mid) v x ltac:(lia) Hpv Hx). lia.
        -- right. split; [done|]. split; [lia|done].
      * apply IH; try lia; auto.
        { intros j y Hj Hy.
          pose proof (S_sorted (Z.to_nat mid) j x y ltac:(lia) Hx Hy). lia. }
        destruct Hres as [[p [Hp Hpv]]|[-> [? Hrv]]].
        -- left. exists p. split; [|done].
           destruct (decide (mid <= Z.of_nat p)); [|lia].
           pose proof (S_sorted (Z.to_nat mid) p x v ltac:(lia) Hx Hpv). lia.
        -- pose proof (S_sorted (Z.to_nat mid) (Z.to_nat (right + 1)) x v
                         ltac:(lia) Hx Hrv). lia.
    + destruct Hres as [[p [Hp _]]|[-> [? Hrv]]]; [lia|].
      exists (right + 1). split; [done|].
      pose proof (lookup_lt_Some _ _ _ Hrv). unfold len.
      split; [lia|]. split; [done|].
      intros j y Hj Hy. apply (Hlo j y); [lia|done].
Qed.

Lemma find_last_occurrence_loop_max (fuel : nat) : forall left right result : Z,
  0 <= left -> right < len S -> right - left + 1 < Z.of_nat fuel ->
  (forall (j : nat) y, Z.of_nat j < left -> S !! j = Some y -> y <= v) ->
  (forall (j : nat) y, right < Z.of_nat j -> S !! j = Some y -> v < y) ->
  (exists p : nat, left <= Z.of_nat p <= right /\ S !! p = Some v) \/
  (result = left - 1 /\ 0 <= result <= right /\ S !! Z.to_nat result = Some v) ->
  exists i, find_last_occurrence_loop fuel S v left right result = Ret i /\
            0 <= i < len S /\ S !! Z.to_nat i = Some v /\
            forall (j : nat) y, i < Z.of_nat j -> S !! j = Some y -> v < y.
Proof.
  induction fuel as [|fuel IH]; intros left right result Hl Hr Hfuel Hlo Hhi Hres.
  - destruct Hres as [[p [Hp _]]|[-> [? _]]]; lia.
  - simpl. destruct (decide (left <= right)) as [Hle|Hgt].
    + pose proof (mid_bounds left right Hle) as Hmid.
      set (mid := left + (right - left) / 2) in *.
      destruct (py_index_in_range S mid ltac:(lia)) as [x [Hx ->]]. simpl.
      destruct (decide (x = v)) as [->|Hne]; [|destruct (decide (x < v)) as [Hlt|Hge]].
      * apply IH; try lia; auto.
        { intros j y Hj Hy.
          apply (S_sorted j (Z.to_nat mid) y v ltac:(lia) Hy Hx). }
        right. split; [lia|]. split; [lia|].
        replace (mid + 1 - 1) with mid by lia. done.
      * apply IH; try lia; auto.
        { intros j y Hj Hy.
          pose proof (S_sorted j (Z.to_nat mid) y x ltac:(lia) Hy Hx). lia. }
        destruct Hres as [[p [Hp Hpv]]|[-> [? Hrv]]].
        -- left. exists p. split; [|done].
           destruct (decide (Z.of_nat p <= mid)); [|lia].
           pose proof (S_sorted p (Z.to_nat mid) v x ltac:(lia) Hpv Hx). lia.
        -- pose proof (S_sorted (Z.to_nat (left - 1)) (Z.to_nat mid) v x
                         ltac:(lia) Hrv Hx). lia.
      * apply IH; try lia; auto.
        { intros j y Hj Hy.
          pose proof (S_sorted (Z.to_nat mid) j x y ltac:(lia) Hx Hy). lia. }
        destruct Hres as [[p [Hp Hpv]]|[-> [? Hrv]]].
        -- left. exists p. split; [|done].
           destruct (decide (mid <= Z.of_nat p)); [|lia].
           pose proof (S_sorted (Z.to_nat mid) p x v ltac:(lia) Hx Hpv). lia.
        -- right. split; [done|]. split; [lia|done].
    + destruct Hres as [[p [Hp _]]|[-> [? Hrv]]]; [lia|].
      exists (left - 1). split; [done|].
      pose proof (lookup_lt_Some _ _ _ Hrv). unfold len.
      split; [lia|]. split; [done|].
      intros j y Hj Hy. apply (Hhi j y); [lia|done].
Qed.

(** *** Insert position *)

Lemma search_insert_position_loop_spec (fuel : nat) : forall left right : Z,
  0 <= left <= right -> right <= len S -> right - left < Z.of_nat fuel ->
  (forall (j : nat) y, Z.of_nat j < left -> S !! j = Some y -> y < v) ->
  (forall (j : nat) y, right <= Z.of_nat j -> S !! j = Some y -> v <= y) ->
  exists k, search_insert_position_loop fuel S v left right = Ret k /\
            0 <= k <= len S /\
            (forall (j : nat) y, Z.of_nat j < k -> S !! j = Some y -> y < v) /\
            (forall (j : nat) y, k <= Z.of_nat j -> S !! j = Some y -> v <= y).
Proof.
  induction fuel as [|fuel IH]; intros left right Hl Hr Hfuel Hlo Hhi; [lia|].
  simpl. destruct (decide (left < right)) as [Hlt|Hge].
  - pose proof (mid_bounds left (right - 1) ltac:(lia)) as Hmid'.
    assert (left <= left + (right - left) / 2 < right) as Hmid
      by (Z.div_mod_to_equations; lia). clear Hmid'.
    set (mid := left + (right - left) / 2) in *.
    destruct (py_index_in_range S mid ltac:(lia)) as [x [Hx ->]]. simpl.
    destruct (decide (x < v)) as [Hxv|Hxv].
    + apply IH; try lia; auto.
      intros j y Hj Hy.
      pose proof (S_sorted j (Z.to_nat mid) y x ltac:(lia) Hy Hx). lia.
    + apply IH; try lia; auto.
      intros j y Hj Hy.
      pose proof (S_sorted (Z.to_nat mid) j x y ltac:(lia) Hx Hy). lia.
  - exists left. split; [done|]. split; [lia|]. split; [done|].
    intros j y Hj Hy. apply (Hhi j y); [lia|done].
Qed.

End sorted_input.

(** C1.  On a sorted list [S] that contains [v] (possibly several times),
    [binary_search] returns a valid index holding [v],
    [find_first_occurrence] returns the least index holding [v] and
    [find_last_occurrence] the greatest one. *)
Theorem binary_search_occurrences (S : list Z) (v : Z) :
  is_sorted S = true -> v ∈ S ->
  (exists i, binary_search S v = Ret i /\
     0 <= i < len S /\ S !! Z.to_nat i = Some v) /\
  (exists i, find_first_occurrence S v = Ret i /\
     0 <= i < len S /\ S !! Z.to_nat i = Some v /\
     forall j : nat, S !! j = Some v -> i <= Z.of_nat j) /\
  (exists i, find_last_occurrence S v = Ret i /\
     0 <= i < len S /\ S !! Z.to_nat i = Some v /\
     forall j : nat, S !! j = Some v -> Z.of_nat j <= i).
Proof.
  intros Hs%is_sorted_sorted_at Hv.
  apply list_elem_of_lookup in Hv as [p Hp].
  pose proof (lookup_lt_Some _ _ _ Hp) as Hlen.
  assert (exists q : nat, 0 <= Z.of_nat q <= len S - 1 /\ S !! q = Some v) as Hex.
  { exists p. unfold len. split; [lia|done]. }
  split; [|split].
  - destruct (binary_search_loop_found S v Hs (Datatypes.S (length S)) 0 (len S - 1))
      as [i [Hi [Hr Hiv]]]; unfold len in *; [lia|lia|lia|done|].
    exists i. split; [exact Hi|]. split; [lia|done].
  - destruct (find_first_occurrence_loop_min S v Hs (Datatypes.S (length S))
                0 (len S - 1) (-1)) as [i [Hi [Hr [Hiv Hmin]]]];
      unfold len in *; [lia|lia|lia| | |by left|].
    { intros j y Hj. lia. }
    { intros j y Hj Hy. apply lookup_lt_Some in Hy. lia. }
    exists i. split; [exact Hi|]. split; [lia|]. split; [done|].
    intros j Hj. destruct (decide (i <= Z.of_nat j)) as [|Hlt]; [done|].
    pose proof (Hmin j v ltac:(lia) Hj). lia.
  - destruct (find_last_occurrence_loop_max S v Hs (Datatypes.S (length S))
                0 (len S - 1) (-1)) as [i [Hi [Hr [Hiv Hmax]]]];
      unfold len in *; [lia|lia|lia| | |by left|].
    { intros j y Hj. lia. }
    { intros j y Hj Hy. apply lookup_lt_Some in Hy. lia. }
    exists i. split; [exact Hi|]. split; [lia|]. split; [done|].
    intros j Hj. destruct (decide (Z.of_nat j <= i)) as [|Hlt]; [done|].
    pose proof (Hmax j v ltac:(lia) Hj). lia.
Qed.

Lemma binary_search_occurrences_witness :
  (exists i, binary_search [1; 3; 5; 5; 5; 7; 9; 11] 5 = Ret i /\
     0 <= i < len [1; 3; 5; 5; 5; 7; 9; 11] /\
     [1; 3; 5; 5; 5; 7; 9; 11] !! Z.to_nat i = Some 5) /\
  (exists i, find_first_occurrence [1; 3; 5; 5; 5; 7; 9; 11] 5 = Ret i /\
     0 <= i < len [1; 3; 5; 5; 5; 7; 9; 11] /\
     [1; 3; 5; 5; 5; 7; 9; 11] !! Z.to_nat i = Some 5 /\
     forall j : nat, [1; 3; 5; 5; 5; 7; 9; 11] !! j = Some 5 -> i <= Z.of_nat j) /\
  (exists i, find_last_occurrence [1; 3; 5; 5; 5; 7; 9; 11] 5 = Ret i /\
     0 <= i < len [1; 3; 5; 5; 5; 7; 9; 11] /\
     [1; 3; 5; 5; 5; 7; 9; 11] !! Z.to_nat i = Some 5 /\
     forall j : nat, [1; 3; 5; 5; 5; 7; 9; 11] !! j = Some 5 -> Z.of_nat j <= i).
Proof.
  apply (binary_search_occurrences [1; 3; 5; 5; 5; 7; 9; 11] 5).
  - reflexivity.
  - do 2 apply list_elem_of_further. apply list_elem_of_here.
Defined.

(** C7.  On a sorted list, [search_insert_position] returns the leftmost
    insertion index [k]: everything in [S[0..k)] is below [v] and
    everything in [S[k..)] is at least [v]. *)
Theorem search_insert_position_leftmost (S : list Z) (v : Z) :
  is_sorted S = true ->
  exists k, search_insert_position S v = Ret k /\
    0 <= k <= len S /\
    Forall (fun x => x < v) (take (Z.to_nat k) S) /\
    Forall (fun x => v <= x) (drop (Z.to_nat k) S).
Proof.
  intros Hs%is_sorted_sorted_at.
  destruct (search_insert_position_loop_spec S v Hs (Datatypes.S (length S)) 0 (len S))
    as [k [Hk [Hr [Hlo Hhi]]]]; unfold len in *; [lia|lia|lia| | |].
  { intros j y Hj. lia. }
  { intros j y Hj Hy. apply lookup_lt_Some in Hy. lia. }
  exists k. split; [exact Hk|]. split; [lia|]. split.
  - apply Forall_lookup. intros j y Hy.
    apply lookup_take_Some in Hy as [Hy Hj]. apply (Hlo j y); [lia|done].
  - apply Forall_lookup. intros j y Hy.
    rewrite lookup_drop in Hy. apply (Hhi (Z.to_nat k + j)%nat y); [lia|done].
Qed.

Lemma search_insert_position_leftmost_witness :
  exists k, search_insert_position [1; 3; 5; 6] 2 = Ret k /\
    0 <= k <= len [1; 3; 5; 6] /\
    Forall (fun x => x < 2) (take (Z.to_nat k) [1; 3; 5; 6]) /\
    Forall (fun x => 2 <= x) (drop (Z.to_nat k) [1; 3; 5; 6]).
Proof.
  apply (search_insert_position_leftmost [1; 3; 5; 6] 2). reflexivity.
Defined.

(** *** Empty input *)

(** [find_median_sorted_arrays] with one empty list: the first round of the
    loop ends the search, with [-inf] and [inf] next to the empty list. *)
Lemma find_median_sorted_arrays_loop_one_empty (l : list Z) (fuel : nat) (b : Z) :
  l !! Z.to_nat (len l / 2) = Some b ->
  find_median_sorted_arrays_loop (S fuel) [] l 0 (len l) (0 + len l) (len l / 2) 0 0
  = if decide (len l mod 2 = 0) then
      match l !! Z.to_nat (len l / 2 - 1) with
      | Some a => number_truediv (int (a + b)) (int 2)
      | None => Raise IndexError
      end
    else Ret (int b).
Proof.
  intros Hb. pose proof (lookup_lt_Some _ _ _ Hb) as Hlt.
  assert (0 < len l) as Hlen by (unfold len; lia).
  set (half := len l / 2) in *.
  assert (0 <= half < len l) as Hhalf by (unfold half; Z.div_mod_to_equations; lia).
  cbn [find_median_sorted_arrays_loop].
  destruct (decide (0 <= 0)) as [_|]; [|lia].
  change ((0 + 0) / 2) with 0.
  destruct (decide (0 > 0)) as [|_]; [lia|]. bind_ret.
  destruct (decide (0 < 0)) as [|_]; [lia|]. bind_ret.
  replace (half - 0) with half by lia. replace (0 + len l) with (len l) by lia.
  destruct (decide (half < len l)) as [_|]; [|lia].
  rewrite (py_index_Ret l half b) by (lia || done).
  destruct (decide (half > 0)) as [Hpos|Hzero].
  - destruct (py_index_in_range l (half - 1) ltac:(lia)) as [a [Ha ->]].
    rewrite Ha. bind_ret.
    change (number_le (float_ neg_inf) (int b)) with true.
    change (number_le (int a) (float_ inf)) with true. cbn [andb].
    change (max2 (float_ neg_inf) (int a)) with (int a).
    change (min2 (float_ inf) (int b)) with (int b).
    by destruct (decide (len l mod 2 = 0)).
  - bind_ret.
    change (number_le (float_ neg_inf) (int b)) with true.
    change (number_le (float_ neg_inf) (float_ inf)) with true. cbn [andb].
    change (min2 (float_ inf) (int b)) with (int b).
    destruct (decide (len l mod 2 = 0)) as [Heven|]; [|done].
    unfold half in Hzero. Z.div_mod_to_equations. lia.
Qed.

(** With one list empty the call gives the median of the other list: its
    middle cell, or the half of the sum of its two middle cells, a float. *)
Lemma find_median_one_empty (x : Z) (nums : list Z) :
  let l := x :: nums in
  exists b, l !! Z.to_nat (len l / 2) = Some b /\
    find_median_sorted_arrays l [] = find_median_sorted_arrays [] l /\
    if decide (len l mod 2 = 0) then
      exists a, l !! Z.to_nat (len l / 2 - 1) = Some a /\
        find_median_sorted_arrays [] l = number_truediv (int (a + b)) (int 2)
    else find_median_sorted_arrays [] l = Ret (int b).
Proof.
  intros l.
  assert (0 < len l) as Hlen by (unfold l, len; simpl; lia).
  assert (len (@nil Z) = 0) as Hnil by done.
  destruct (py_index_in_range l (len l / 2)) as [b [Hb _]];
    [Z.div_mod_to_equations; lia|].
  exists b. split; [done|].
  assert (find_median_sorted_arrays [] l =
          find_median_sorted_arrays_loop 2 [] l 0 (len l) (0 + len l) (len l / 2) 0 0)
    as Hcall.
  { unfold find_median_sorted_arrays.
    destruct (decide (len [] > len l)); [lia|done]. }
  split.
  - rewrite Hcall. unfold find_median_sorted_arrays.
    destruct (decide (len l > len [])); [done|lia].
  - rewrite Hcall, (find_median_sorted_arrays_loop_one_empty l 1 b Hb).
    destruct (decide (len l mod 2 = 0)) as [Heven|]; [|done].
    destruct (py_index_in_range l (len l / 2 - 1)) as [a [Ha _]];
      [Z.div_mod_to_equations; lia|].
    exists a. by rewrite Ha.
Qed.

Example demo_median : find_median_sorted_arrays [1; 3] [2] = Ret (int 2).
Proof. reflexivity. Qed.

(** C2 does not hold for every function of the family: six of the
    fourteen raise on an empty input.  [find_minimum_rotated] has no
    sentinel: after its loop it reads [nums[left]], which raises on the
    empty list.  [find_peak_2d] reads [matrix[0]] before its loop, without
    the guard of [search_2d_matrix], and raises on the empty matrix.
    [capacity_to_ship_packages], [split_array_largest_sum] and
    [smallest_divisor] start with [max] of their list, which raises on the
    empty list.  [find_median_sorted_arrays] halves the sum of two cells of
    the list that is not empty, and the half may be too large for a
    float. *)
Lemma empty_input_raises :
  find_minimum_rotated [] = Raise IndexError /\
  find_peak_2d [] = Raise IndexError /\
  capacity_to_ship_packages [] 1 = Raise ValueError /\
  split_array_largest_sum [] 1 = Raise ValueError /\
  smallest_divisor [] 1 = Raise ValueError /\
  find_median_sorted_arrays [] [2 ^ 1024; 2 ^ 1024] = Raise OverflowError /\
  ~ returns (find_minimum_rotated []) /\ ~ returns (find_peak_2d []) /\
  ~ returns (capacity_to_ship_packages [] 1) /\
  ~ returns (split_array_largest_sum [] 1) /\
  ~ returns (smallest_divisor [] 1) /\
  ~ returns (find_median_sorted_arrays [] [2 ^ 1024; 2 ^ 1024]).
Proof.
  assert (find_median_sorted_arrays [] [2 ^ 1024; 2 ^ 1024] = Raise OverflowError)
    as Hmedian by (vm_compute; reflexivity).
  repeat split; try reflexivity; try exact Hmedian;
    intros [a Ha]; try discriminate; rewrite Hmedian in Ha; discriminate.
Qed.

(** C2, as the code has it, for the fourteen functions of the module.  On
    an empty list the exact-match searches return [-1];
    [search_2d_matrix] returns [False] on an empty matrix and on a matrix
    whose first row is empty; [find_peak_2d] returns [[-1, -1]] on a matrix
    whose first row is empty; the half-open loops of
    [search_insert_position] and [find_peak_element] return index [0];
    [find_median_sorted_arrays] returns [nan] on two empty lists, the half
    of [-inf + inf].  None of these calls raises.  The other calls raise:
    [find_minimum_rotated] and [find_peak_2d] on the empty matrix raise
    [IndexError], and the three optimisation functions raise [ValueError]
    whatever their second argument is.  With one list empty,
    [find_median_sorted_arrays] gives the median of the other list [l]:
    the middle cell, or what [/ 2] gives for the sum of the two middle
    cells, which is a float or [OverflowError]. *)
Theorem empty_input_results (v x : Z) (nums : list Z) (rest : list (list Z)) :
  binary_search [] v = Ret (-1) /\
  binary_search_recursive [] v = Ret (-1) /\
  find_first_occurrence [] v = Ret (-1) /\
  find_last_occurrence [] v = Ret (-1) /\
  search_rotated_array [] v = Ret (-1) /\
  search_2d_matrix [] v = Ret false /\
  search_2d_matrix ([] :: rest) v = Ret false /\
  find_peak_2d ([] :: rest) = Ret [-1; -1] /\
  search_insert_position [] v = Ret 0 /\
  find_peak_element [] = Ret 0 /\
  find_median_sorted_arrays [] [] = Ret (float_ nan) /\
  find_minimum_rotated [] = Raise IndexError /\
  find_peak_2d [] = Raise IndexError /\
  capacity_to_ship_packages [] v = Raise ValueError /\
  split_array_largest_sum [] v = Raise ValueError /\
  smallest_divisor [] v = Raise ValueError /\
  (let l := x :: nums in
   exists b, l !! Z.to_nat (len l / 2) = Some b /\
     find_median_sorted_arrays l [] = find_median_sorted_arrays [] l /\
     if decide (len l mod 2 = 0) then
       exists a, l !! Z.to_nat (len l / 2 - 1) = Some a /\
         find_median_sorted_arrays [] l = number_truediv (int (a + b)) (int 2)
     else find_median_sorted_arrays [] l = Ret (int b)).
Proof.
  repeat (split; [reflexivity|]). apply find_median_one_empty.
Qed.

(** *** Lists that need not be sorted

    The loops keep their indices inside the list whatever its contents, so
    the searches raise nothing, and an index they return holds the
    target. *)

Section any_list.
Variable arr : list Z.
Variable target : Z.

Lemma binary_search_loop_sound (fuel : nat) : forall left right : Z,
  0 <= left -> right < len arr -> left <= right + 1 ->
  right - left + 1 < Z.of_nat fuel ->
  exists r, binary_search_loop fuel arr target left right = Ret r /\
    (r = -1 \/ (0 <= r < len arr /\ arr !! Z.to_nat r = Some target)).
Proof.
  induction fuel as [|fuel IH]; intros left right Hl Hr Hlr Hfuel.
  - (* no fuel is needed only for an empty window *)
    lia.
  - cbn [binary_search_loop].
    destruct (decide (left <= right)) as [Hle|Hgt]; [|by exists (-1); auto].
    pose proof (mid_bounds left right Hle) as Hmid.
    set (mid := left + (right - left) / 2) in *.
    destruct (py_index_in_range arr mid ltac:(lia)) as [x [Hx ->]]. bind_ret.
    destruct (decide (x = target)) as [->|Hne].
    { exists mid. split; [done|]. right. split; [lia|done]. }
    destruct (decide (x < target)); apply IH; lia.
Qed.

Lemma find_first_occurrence_loop_sound (fuel : nat) : forall left right result : Z,
  0 <= left -> right < len arr -> left <= right + 1 ->
  right - left + 1 < Z.of_nat fuel ->
  result = -1 \/ (0 <= result < len arr /\ arr !! Z.to_nat result = Some target) ->
  exists r, find_first_occurrence_loop fuel arr target left right result = Ret r /\
    (r = -1 \/ (0 <= r < len arr /\ arr !! Z.to_nat r = Some target)).
Proof.
  induction fuel as [|fuel IH]; intros left right result Hl Hr Hlr Hfuel Hres; [lia|].
  cbn [find_first_occurrence_loop].
  destruct (decide (left <= right)) as [Hle|Hgt]; [|by exists result].
  pose proof (mid_bounds left right Hle) as Hmid.
  set (mid := left + (right - left) / 2) in *.
  destruct (py_index_in_range arr mid ltac:(lia)) as [x [Hx ->]]. bind_ret.
  destruct (decide (x = target)) as [->|Hne].
  { apply IH; [lia..|]. right. split; [lia|done]. }
  destruct (decide (x < target)); apply IH; auto; lia.
Qed.

Lemma find_last_occurrence_loop_sound (fuel : nat) : forall left right result : Z,
  0 <= left -> right < len arr -> left <= right + 1 ->
  right - left + 1 < Z.of_nat fuel ->
  result = -1 \/ (0 <= result < len arr /\ arr !! Z.to_nat result = Some target) ->
  exists r, find_last_occurrence_loop fuel arr target left right result = Ret r /\
    (r = -1 \/ (0 <= r < len arr /\ arr !! Z.to_nat r = Some target)).
Proof.
  induction fuel as [|fuel IH]; intros left right result Hl Hr Hlr Hfuel Hres; [lia|].
  cbn [find_last_occurrence_loop].
  destruct (decide (left <= right)) as [Hle|Hgt]; [|by exists result].
  pose proof (mid_bounds left right Hle) as Hmid.
  set (mid := left + (right - left) / 2) in *.
  destruct (py_index_in_range arr mid ltac:(lia)) as [x [Hx ->]]. bind_ret.
  destruct (decide (x = target)) as [->|Hne].
  { apply IH; [lia..|]. right. split; [lia|done]. }
  destruct (decide (x < target)); apply IH; auto; lia.
Qed.

End any_list.

(** X1.  On every list, sorted or not, the three searches of
    [BasicBinarySearch] return without raising, and what they return is
    [-1] or an index of the list that holds the target. *)
Theorem basic_searches_sound (arr : list Z) (target : Z) :
  forall search,
    search ∈ [binary_search; find_first_occurrence; find_last_occurrence] ->
    exists r, search arr target = Ret r /\
      (r = -1 \/ (0 <= r < len arr /\ arr !! Z.to_nat r = Some target)).
Proof.
  intros search Hsearch.
  repeat (apply elem_of_cons in Hsearch as [->|Hsearch]);
    [| | |by apply elem_of_nil in Hsearch].
  - apply binary_search_loop_sound; unfold len; lia.
  - apply find_first_occurrence_loop_sound; unfold len; auto; lia.
  - apply find_last_occurrence_loop_sound; unfold len; auto; lia.
Qed.

Lemma basic_searches_sound_witness :
  exists r, find_last_occurrence [3; 1; 3; 2] 3 = Ret r /\
    (r = -1 \/ (0 <= r < len [3; 1; 3; 2] /\ [3; 1; 3; 2] !! Z.to_nat r = Some 3)).
Proof.
  apply (basic_searches_sound [3; 1; 3; 2] 3 find_last_occurrence).
  do 2 apply list_elem_of_further. apply list_elem_of_here.
Defined.

(** A target that does not occur in the list gives [-1], from each of the
    three searches and on every list. *)
Lemma basic_searches_absent (arr : list Z) (target : Z) :
  target ∉ arr ->
  binary_search arr target = Ret (-1) /\
  find_first_occurrence arr target = Ret (-1) /\
  find_last_occurrence arr target = Ret (-1).
Proof.
  intros Habsent.
  assert (forall r, r = -1 \/ (0 <= r < len arr /\ arr !! Z.to_nat r = Some target) ->
                    r = -1) as Hminus.
  { intros r [->|[_ Hr]]; [done|].
    exfalso. apply Habsent. by eapply list_elem_of_lookup_2. }
  split; [|split].
  - destruct (binary_search_loop_sound arr target (S (length arr)) 0 (len arr - 1))
      as (r & Hr & Hsound); [unfold len; lia..|].
    unfold binary_search. by rewrite Hr, (Hminus r Hsound).
  - destruct (find_first_occurrence_loop_sound arr target (S (length arr)) 0
                (len arr - 1) (-1)) as (r & Hr & Hsound); [unfold len; lia..|auto|].
    unfold find_first_occurrence. by rewrite Hr, (Hminus r Hsound).
  - destruct (find_last_occurrence_loop_sound arr target (S (length arr)) 0
                (len arr - 1) (-1)) as (r & Hr & Hsound); [unfold len; lia..|auto|].
    unfold find_last_occurrence. by rewrite Hr, (Hminus r Hsound).
Qed.

Lemma basic_searches_absent_witness :
  binary_search [1; 3; 5] 4 = Ret (-1) /\
  find_first_occurrence [1; 3; 5] 4 = Ret (-1) /\
  find_last_occurrence [1; 3; 5] 4 = Ret (-1).
Proof.
  apply (basic_searches_absent [1; 3; 5] 4).
  intros Hin. repeat (apply elem_of_cons in Hin as [?|Hin]; [lia|]).
  by apply elem_of_nil in Hin.
Defined.


(** *** The recursive search *)

Lemma binary_search_recursive_from_loop (arr : list Z) (target : Z) (fuel : nat) :
  forall left right : Z,
    binary_search_recursive_from fuel arr target left (Some right)
    = binary_search_loop fuel arr target left right.
Proof.
  induction fuel as [|fuel IH]; intros left right; [done|].
  cbn [binary_search_recursive_from binary_search_loop default from_option id].
  destruct (decide (left > right)), (decide (left <= right)); try lia; [done|].
  destruct (py_index arr (left + (right - left) / 2)) as [x| |]; [bind_ret|done..].
  by rewrite !IH.
Qed.

(** X2.  [binary_search_recursive], called with its default bounds, has the
    outcome of [binary_search] on every list and every target. *)
Theorem binary_search_recursive_iterative (arr : list Z) (target : Z) :
  binary_search_recursive arr target = binary_search arr target.
Proof.
  unfold binary_search_recursive, binary_search.
  rewrite <- binary_search_recursive_from_loop.
  by destruct (length arr).
Qed.

(** *** Insertion position and first occurrence *)

(** X3.  On a sorted list that contains the target, [search_insert_position]
    and [find_first_occurrence] return the same index. *)
Theorem insert_position_is_first_occurrence (S : list Z) (v : Z) :
  is_sorted S = true -> v ∈ S ->
  exists i, search_insert_position S v = Ret i /\
            find_first_occurrence S v = Ret i /\
            S !! Z.to_nat i = Some v.
Proof.
  intros Hs%is_sorted_sorted_at Hv.
  apply list_elem_of_lookup in Hv as [p Hp].
  pose proof (lookup_lt_Some _ _ _ Hp) as Hlen.
  destruct (search_insert_position_loop_spec S v Hs (Datatypes.S (length S)) 0 (len S))
    as [k [Hk [Hr [Hlo Hhi]]]]; unfold len in *; [lia|lia|lia| | |].
  { intros j y Hj. lia. }
  { intros j y Hj Hy. apply lookup_lt_Some in Hy. lia. }
  destruct (find_first_occurrence_loop_min S v Hs (Datatypes.S (length S))
              0 (len S - 1) (-1)) as [i [Hi [Hri [Hiv Hmin]]]];
    unfold len in *; [lia|lia|lia| | | |].
  { intros j y Hj. lia. }
  { intros j y Hj Hy. apply lookup_lt_Some in Hy. lia. }
  { left. exists p. split; [lia|done]. }
  assert (k = i) as ->.
  { destruct (Z.lt_trichotomy k i) as [Hlt|[->|Hgt]]; [|done|].
    - (* [S[k]] is below [v] as it comes before [i], and at least [v] *)
      destruct (lookup_lt_is_Some_2 S (Z.to_nat k) ltac:(lia)) as [y Hy].
      pose proof (Hmin (Z.to_nat k) y ltac:(lia) Hy).
      pose proof (Hhi (Z.to_nat k) y ltac:(lia) Hy). lia.
    - pose proof (Hlo (Z.to_nat i) v ltac:(lia) Hiv). lia. }
  exists i. unfold search_insert_position, find_first_occurrence, len.
  by rewrite Hk, Hi.
Qed.

Lemma insert_position_is_first_occurrence_witness :
  exists i, search_insert_position [1; 3; 5; 5; 5; 7] 5 = Ret i /\
            find_first_occurrence [1; 3; 5; 5; 5; 7] 5 = Ret i /\
            [1; 3; 5; 5; 5; 7] !! Z.to_nat i = Some 5.
Proof.
  apply (insert_position_is_first_occurrence [1; 3; 5; 5; 5; 7] 5).
  - reflexivity.
  - do 2 apply list_elem_of_further. apply list_elem_of_here.
Defined.

(** *** Peaks *)

Lemma find_peak_element_loop_peak (nums : list Z) (fuel : nat) :
  forall left right : Z,
    0 <= left <= right -> right < len nums -> right - left < Z.of_nat fuel ->
    (forall x y, 0 < left -> nums !! Z.to_nat (left - 1) = Some x ->
                 nums !! Z.to_nat left = Some y -> x < y) ->
    (forall y z, nums !! Z.to_nat right = Some y ->
                 nums !! Z.to_nat (right + 1) = Some z -> z <= y) ->
    exists i, find_peak_element_loop fuel nums left right = Ret i /\
      0 <= i < len nums /\
      (forall x y, 0 < i -> nums !! Z.to_nat (i - 1) = Some x ->
                   nums !! Z.to_nat i = Some y -> x < y) /\
      (forall y z, nums !! Z.to_nat i = Some y ->
                   nums !! Z.to_nat (i + 1) = Some z -> z <= y).
Proof.
  induction fuel as [|fuel IH]; intros left right Hl Hr Hfuel Hup Hdown; [lia|].
  cbn [find_peak_element_loop].
  destruct (decide (left < right)) as [Hlt|Hge].
  - assert (left <= left + (right - left) / 2 < right) as Hmid
      by (Z.div_mod_to_equations; lia).
    set (mid := left + (right - left) / 2) in *.
    destruct (py_index_in_range nums mid ltac:(lia)) as [a [Ha ->]]. bind_ret.
    destruct (py_index_in_range nums (mid + 1) ltac:(lia)) as [b [Hb ->]]. bind_ret.
    destruct (decide (a < b)) as [Hab|Hab].
    + apply IH; [lia..| |done].
      intros x y _ Hx Hy. replace (mid + 1 - 1) with mid in Hx by lia. congruence.
    + apply IH; [lia..|done|].
      intros y z Hy Hz. assert (y = a /\ z = b) as [-> ->] by (split; congruence). lia.
  - assert (left = right) as -> by lia.
    exists right. split; [done|]. split; [lia|]. split; [exact Hup|exact Hdown].
Qed.

(** X4.  On a list that is not empty, [find_peak_element] returns an index
    of the list whose left neighbour, if there is one, is smaller and whose
    right neighbour, if there is one, is not larger. *)
Theorem find_peak_element_is_peak (nums : list Z) :
  nums <> [] ->
  exists i, find_peak_element nums = Ret i /\ 0 <= i < len nums /\
    (forall x y, 0 < i -> nums !! Z.to_nat (i - 1) = Some x ->
                 nums !! Z.to_nat i = Some y -> x < y) /\
    (forall y z, nums !! Z.to_nat i = Some y ->
                 nums !! Z.to_nat (i + 1) = Some z -> z <= y).
Proof.
  intros Hne. assert (0 < length nums)%nat as Hlen by (destruct nums; [done|simpl; lia]).
  apply find_peak_element_loop_peak; unfold len; [lia..| |].
  - intros x y Hpos. lia.
  - intros y z _ Hz. apply lookup_lt_Some in Hz. lia.
Qed.

Lemma find_peak_element_is_peak_witness :
  exists i, find_peak_element [1; 2; 3; 1] = Ret i /\ 0 <= i < len [1; 2; 3; 1] /\
    (forall x y, 0 < i -> [1; 2; 3; 1] !! Z.to_nat (i - 1) = Some x ->
                 [1; 2; 3; 1] !! Z.to_nat i = Some y -> x < y) /\
    (forall y z, [1; 2; 3; 1] !! Z.to_nat i = Some y ->
                 [1; 2; 3; 1] !! Z.to_nat (i + 1) = Some z -> z <= y).
Proof. apply (find_peak_element_is_peak [1; 2; 3; 1]). discriminate. Defined.


(** *** The matrix search as a search of one list

    [search_2d_matrix] reads cell [mid // cols], [mid % cols]; on a matrix
    whose rows all have [cols] cells this is cell [mid] of the rows laid end
    to end, [mjoin matrix]. *)

Section matrix.
Variable matrix : list (list Z).
Variable cols : Z.
Hypothesis cols_pos : 0 < cols.
Hypothesis same_length : Forall (fun row => len row = cols) matrix.

Lemma same_length_nat : Forall (fun row => length row = Z.to_nat cols) matrix.
Proof. eapply Forall_impl; [exact same_length|]. unfold len. intros row Hrow. simpl in Hrow. lia. Qed.

Lemma len_mjoin : len (mjoin matrix) = len matrix * cols.
Proof.
  clear cols_pos. unfold len. induction matrix as [|row rest IH]; [simpl; lia|].
  apply Forall_cons in same_length as [Hrow Hrest].
  change (mjoin (row :: rest)) with (row ++ mjoin rest).
  rewrite length_app, length_cons. unfold len in Hrow.
  specialize (IH Hrest). lia.
Qed.

Lemma cell_mjoin (mid : Z) :
  0 <= mid < len matrix * cols ->
  exists row x, py_index matrix (mid `div` cols) = Ret row /\
                py_index row (mid `mod` cols) = Ret x /\
                py_index (mjoin matrix) mid = Ret x.
Proof.
  intros Hmid.
  destruct (py_index_in_range (mjoin matrix) mid) as [x [Hx Hidx]];
    [rewrite len_mjoin; lia|].
  apply (join_lookup_Some_same_length (Z.to_nat cols)) in Hx
    as (j & row & i & Hrow & Hi & Hji); [|exact same_length_nat].
  pose proof (lookup_lt_Some _ _ _ Hi) as Hlt.
  pose proof (proj1 (Forall_lookup _ _) same_length j row Hrow) as Hlen.
  unfold len in Hlen. simpl in Hlen.
  assert (mid = Z.of_nat j * cols + Z.of_nat i) as Hsplit by lia.
  assert (mid `div` cols = Z.of_nat j) as ->.
  { symmetry. apply (Z.div_unique_pos _ _ _ (Z.of_nat i)); lia. }
  assert (mid `mod` cols = Z.of_nat i) as ->.
  { symmetry. apply (Z.mod_unique_pos _ _ (Z.of_nat j)); lia. }
  exists row, x. split; [|split; [|done]].
  - apply py_index_Ret; [lia|]. by rewrite Nat2Z.id.
  - apply py_index_Ret; [lia|]. by rewrite Nat2Z.id.
Qed.

Lemma search_2d_matrix_loop_mjoin (target : Z) (fuel : nat) :
  forall left right : Z,
    0 <= left -> right < len matrix * cols ->
    search_2d_matrix_loop fuel matrix target cols left right
    = (i ← binary_search_loop fuel (mjoin matrix) target left right;
       Ret (bool_decide (i <> -1))).
Proof.
  induction fuel as [|fuel IH]; intros left right Hl Hr; [done|].
  cbn [search_2d_matrix_loop binary_search_loop].
  destruct (decide (left <= right)) as [Hle|Hgt]; [|done].
  pose proof (mid_bounds left right Hle) as Hmid.
  set (mid := left + (right - left) / 2) in *.
  destruct (cell_mjoin mid ltac:(lia)) as (row & x & -> & Hx & ->). bind_ret.
  rewrite Hx. bind_ret.
  destruct (decide (x = target)) as [_|_].
  { bind_ret. by rewrite bool_decide_true by lia. }
  destruct (decide (x < target)); apply IH; lia.
Qed.

End matrix.

(** X5.  On a matrix that is not empty and whose rows all have the same
    positive number of cells, [search_2d_matrix] answers whether
    [binary_search], run on the rows laid end to end, finds the target; the
    two calls also fail together. *)
Theorem search_2d_matrix_flattened (matrix : list (list Z)) (cols target : Z) :
  matrix <> [] -> 0 < cols -> Forall (fun row => len row = cols) matrix ->
  search_2d_matrix matrix target
  = (i ← binary_search (mjoin matrix) target; Ret (bool_decide (i <> -1))).
Proof.
  intros Hne Hcols Hrect.
  destruct matrix as [|row0 rest]; [done|].
  pose proof (Forall_inv Hrect) as Hrow0. simpl in Hrow0.
  unfold search_2d_matrix.
  rewrite (py_index_Ret _ 0 row0) by (done || lia). bind_ret.
  destruct row0 as [|c row0]; [unfold len in Hrow0; simpl in Hrow0; lia|].
  rewrite Hrow0.
  rewrite (search_2d_matrix_loop_mjoin _ cols Hcols Hrect) by lia.
  unfold binary_search.
  pose proof (len_mjoin _ cols Hrect) as Hlen. rewrite <- Hlen.
  unfold len at 1. by rewrite Nat2Z.id.
Qed.

Lemma search_2d_matrix_flattened_witness :
  search_2d_matrix [[1; 3]; [5; 7]] 5
  = (i ← binary_search (mjoin [[1; 3]; [5; 7]]) 5; Ret (bool_decide (i <> -1))).
Proof.
  apply (search_2d_matrix_flattened [[1; 3]; [5; 7]] 2 5).
  - discriminate.
  - lia.
  - repeat constructor.
Defined.

(** X6.  When the rows all have the same length and, laid end to end, form
    a sorted list, [search_2d_matrix] returns [True] exactly when the target
    is a cell of the matrix. *)
Theorem search_2d_matrix_decides (matrix : list (list Z)) (cols target : Z) :
  Forall (fun row => len row = cols) matrix ->
  is_sorted (mjoin matrix) = true ->
  search_2d_matrix matrix target
  = Ret (bool_decide (Exists (fun row => target ∈ row) matrix)).
Proof.
  intros Hrect Hsorted%is_sorted_sorted_at.
  assert (Exists (fun row => target ∈ row) matrix <-> target ∈ mjoin matrix) as Hin.
  { rewrite list_elem_of_join, Exists_exists.
    split; intros (row & ? & ?); exists row; done. }
  destruct matrix as [|row0 rest].
  { rewrite bool_decide_false; [done|]. by intros ?%Exists_nil. }
  pose proof (Forall_inv Hrect) as Hrow0. simpl in Hrow0.
  unfold search_2d_matrix.
  rewrite (py_index_Ret _ 0 row0) by (done || lia). bind_ret.
  destruct row0 as [|c row0].
  { (* every row is empty *)
    rewrite bool_decide_false; [done|].
    intros (row & Hrow & Htarget)%Exists_exists.
    pose proof (proj1 (Forall_forall _ _) Hrect row Hrow) as Hlen. simpl in Hlen.
    rewrite <- Hrow0 in Hlen. destruct row; [|done]. by apply elem_of_nil in Htarget. }
  assert (0 < cols) as Hcols by (rewrite <- Hrow0; unfold len; simpl; lia).
  rewrite Hrow0.
  rewrite (search_2d_matrix_loop_mjoin _ cols Hcols Hrect) by lia.
  pose proof (len_mjoin _ cols Hrect) as Hlen.
  set (flat := mjoin ((c :: row0) :: rest)) in *.
  set (rows := len ((c :: row0) :: rest)) in *.
  destruct (decide (target ∈ flat)) as [Hyes|Hno].
  - rewrite bool_decide_true by (by apply Hin).
    apply list_elem_of_lookup in Hyes as [p Hp].
    pose proof (lookup_lt_Some _ _ _ Hp) as Hlt. unfold len in Hlen.
    destruct (binary_search_loop_found flat target Hsorted
                (S (Z.to_nat (rows * cols))) 0 (rows * cols - 1))
      as (i & -> & Hi & _); [unfold len; lia..| |].
    { exists p. split; [lia|done]. }
    bind_ret. by rewrite bool_decide_true by lia.
  - rewrite bool_decide_false by (by rewrite Hin).
    destruct (binary_search_loop_sound flat target
                (S (Z.to_nat (rows * cols))) 0 (rows * cols - 1))
      as (i & -> & [->|[_ Hi]]); [unfold len in *; lia..| |].
    + done.
    + exfalso. apply Hno. by eapply list_elem_of_lookup_2.
Qed.

Lemma search_2d_matrix_decides_witness :
  search_2d_matrix [[1; 3]; [5; 7]] 5
  = Ret (bool_decide (Exists (fun row => 5 ∈ row) [[1; 3]; [5; 7]])).
Proof.
  apply (search_2d_matrix_decides [[1; 3]; [5; 7]] 2 5).
  - repeat constructor.
  - reflexivity.
Defined.


(** *** Rotated lists *)

Lemma is_increasing_lookup (l : list Z) :
  is_increasing l = true ->
  forall (i j : nat) (x y : Z),
    (i < j)%nat -> l !! i = Some x -> l !! j = Some y -> x < y.
Proof.
  induction l as [|a l IH]; intros Hinc i j x y Hij Hi Hj.
  - by rewrite lookup_nil in Hi.
  - assert (is_increasing l = true /\ forall z, l !! 0%nat = Some z -> a < z)
      as [Hl Hhead].
    { destruct l as [|b l]; [by split|]. simpl in Hinc.
      apply andb_true_iff in Hinc as [Hab%bool_decide_eq_true Hl].
      split; [exact Hl|]. intros z [= <-]. exact Hab. }
    destruct j as [|j]; [lia|]. simpl in Hj.
    destruct i as [|i]; simpl in Hi.
    + injection Hi as <-. destruct j as [|j]; [by apply Hhead|].
      destruct (lookup_lt_is_Some_2 l 0%nat) as [z Hz];
        [apply lookup_lt_Some in Hj; lia|].
      pose proof (Hhead z Hz). pose proof (IH Hl 0%nat (S j) z y ltac:(lia) Hz Hj). lia.
    + apply (IH Hl i j); [lia|done..].
Qed.

Lemma rotated_two_runs (s : list Z) (k : nat) :
  is_increasing s = true -> two_runs (rotated s k) (length s - k).
Proof.
  intros Hinc. pose proof (is_increasing_lookup s Hinc) as Hlt.
  assert (forall i x, rotated s k !! i = Some x ->
            ((i < length s - k)%nat /\ s !! (k + i)%nat = Some x) \/
            ((length s - k <= i)%nat /\ (i - (length s - k) < k)%nat /\
             s !! (i - (length s - k))%nat = Some x)) as Hlookup.
  { intros i x. unfold rotated. rewrite lookup_app, length_drop.
    destruct (drop k s !! i) as [y|] eqn:Hdrop.
    - intros [= <-]. left. rewrite lookup_drop in Hdrop.
      split; [|done]. apply lookup_lt_Some in Hdrop. lia.
    - intros Htake. apply lookup_take_Some in Htake as [Hx Hik]. right.
      apply lookup_ge_None in Hdrop. rewrite length_drop in Hdrop. done. }
  split.
  - intros i j x y Hij Hside Hi Hj.
    apply Hlookup in Hi as [[Hi1 Hi]|(Hi1 & Hi2 & Hi)];
      apply Hlookup in Hj as [[Hj1 Hj]|(Hj1 & Hj2 & Hj)]; try lia.
    + apply (Hlt (k + i)%nat (k + j)%nat x y); [lia|done..].
    + apply (Hlt (i - (length s - k))%nat (j - (length s - k))%nat x y);
        [lia|done..].
  - intros i j x y Hid Hdj Hi Hj.
    apply Hlookup in Hi as [[Hi1 Hi]|(Hi1 & Hi2 & Hi)]; [|lia].
    apply Hlookup in Hj as [[Hj1 Hj]|(Hj1 & Hj2 & Hj)]; [lia|].
    apply (Hlt (j - (length s - k))%nat (k + i)%nat y x); [lia|done..].
Qed.

(** A list that is one run has its junction at index 0 as well. *)
Lemma two_runs_whole (nums : list Z) (d : nat) :
  two_runs nums d -> (length nums <= d)%nat -> two_runs nums 0.
Proof.
  intros [Hrun _] Hd. split.
  - intros i j x y Hij _ Hi Hj. apply (Hrun i j); [done| |done..].
    left. apply lookup_lt_Some in Hj. lia.
  - intros i j x y Hi. lia.
Qed.

Section rotated_input.
Variable nums : list Z.
Variable d : nat.
Hypothesis runs : two_runs nums d.
Hypothesis d_lt : (d < length nums)%nat.

Lemma find_minimum_rotated_loop_junction (fuel : nat) : forall left right : Z,
  0 <= left <= Z.of_nat d -> Z.of_nat d <= right < len nums ->
  right - left < Z.of_nat fuel ->
  find_minimum_rotated_loop fuel nums left right = Ret (Z.of_nat d).
Proof.
  destruct runs as [Hrun Hcross].
  induction fuel as [|fuel IH]; intros left right Hl Hr Hfuel; [lia|].
  cbn [find_minimum_rotated_loop].
  destruct (decide (left < right)) as [Hlt|Hge]; [|f_equal; lia].
  assert (left <= left + (right - left) / 2 < right) as Hmid
    by (Z.div_mod_to_equations; lia).
  set (mid := left + (right - left) / 2) in *.
  destruct (py_index_in_range nums mid ltac:(lia)) as [m [Hm ->]]. bind_ret.
  destruct (py_index_in_range nums right ltac:(lia)) as [r [Hr' ->]]. bind_ret.
  destruct (decide (m > r)) as [Hmr|Hmr].
  - apply IH; [|lia..].
    destruct (decide (Z.of_nat d <= mid)) as [Hd|]; [|lia].
    pose proof (Hrun (Z.to_nat mid) (Z.to_nat right) m r ltac:(lia)
                  ltac:(right; lia) Hm Hr'). lia.
  - apply IH; [lia| |lia].
    destruct (decide (mid < Z.of_nat d)) as [Hd|]; [|lia].
    pose proof (Hcross (Z.to_nat mid) (Z.to_nat right) m r ltac:(lia)
                  ltac:(lia) Hm Hr'). lia.
Qed.

Lemma junction_least (x y : Z) :
  nums !! d = Some x -> y ∈ nums -> x <= y.
Proof.
  destruct runs as [Hrun Hcross].
  intros Hx [j Hj]%list_elem_of_lookup.
  destruct (Nat.lt_trichotomy j d) as [Hlt|[->|Hgt]].
  - pose proof (Hcross j d y x Hlt ltac:(lia) Hj Hx). lia.
  - assert (x = y) by congruence. lia.
  - pose proof (Hrun d j x y Hgt ltac:(right; lia) Hx Hj). lia.
Qed.

Lemma search_rotated_array_loop_found (target : Z) (p : nat) (fuel : nat) :
  nums !! p = Some target ->
  forall left right : Z,
    0 <= left <= Z.of_nat p -> Z.of_nat p <= right < len nums ->
    right - left + 1 < Z.of_nat fuel ->
    search_rotated_array_loop fuel nums target left right = Ret (Z.of_nat p).
Proof.
  destruct runs as [Hrun Hcross]. intros Hp.
  assert (forall i x, nums !! i = Some x -> x = target -> i = p) as Hunique.
  { intros i x Hi ->.
    destruct (Nat.lt_trichotomy i p) as [Hlt|[->|Hgt]]; [|done|]; exfalso.
    - destruct (decide (p < d \/ d <= i)%nat) as [Hside|Hside].
      + pose proof (Hrun i p target target Hlt Hside Hi Hp). lia.
      + pose proof (Hcross i p target target ltac:(lia) ltac:(lia) Hi Hp). lia.
    - destruct (decide (i < d \/ d <= p)%nat) as [Hside|Hside].
      + pose proof (Hrun p i target target Hgt Hside Hp Hi). lia.
      + pose proof (Hcross p i target target ltac:(lia) ltac:(lia) Hp Hi). lia. }
  (* every comparison of two cells is settled by where they lie *)
  assert (forall (i j : nat) x y, nums !! i = Some x -> nums !! j = Some y ->
            (i < j)%nat ->
            ((j < d)%nat \/ (d <= i)%nat) /\ x < y \/
            ((i < d)%nat /\ (d <= j)%nat) /\ y < x) as Hcmp.
  { intros i j x y Hi Hj Hij.
    destruct (decide (j < d \/ d <= i)%nat) as [Hside|Hside].
    - left. split; [done|]. by apply (Hrun i j).
    - right. split; [lia|]. apply (Hcross i j); [lia|lia|done..]. }
  induction fuel as [|fuel IH]; intros left right Hl Hr Hfuel; [lia|].
  cbn [search_rotated_array_loop].
  destruct (decide (left <= right)) as [Hle|]; [|lia].
  pose proof (mid_bounds left right Hle) as Hmid.
  set (mid := left + (right - left) / 2) in *.
  destruct (py_index_in_range nums mid ltac:(lia)) as [m [Hm ->]]. bind_ret.
  destruct (decide (m = target)) as [Heq|Hne].
  { f_equal. pose proof (Hunique _ _ Hm Heq). lia. }
  assert (Z.to_nat mid <> p) as Hmp by (intros <-; congruence).
  destruct (py_index_in_range nums left ltac:(lia)) as [l [Hleft ->]]. bind_ret.
  assert (left = mid \/ left < mid) as Hlm by lia.
  assert (left = mid -> l = m) as Hsame by (intros Heq; rewrite Heq in Hleft; congruence).
  assert (left = Z.of_nat p \/ left < Z.of_nat p) as Hlp by lia.
  assert (right = Z.of_nat p \/ Z.of_nat p < right) as Hrp by lia.
  destruct (decide (l <= m)) as [Hlm'|Hlm'].
  - destruct (decide (l <= target /\ target < m)) as [Hin|Hout].
    + apply IH; [lia| |lia].
      destruct (decide (Z.of_nat p < mid)) as [|Hpm]; [lia|exfalso].
      destruct (Hcmp (Z.to_nat mid) p m target Hm Hp ltac:(lia)) as [[Hs ?]|[Hs ?]];
        [lia|].
      pose proof (Hcross (Z.to_nat left) p l target ltac:(lia) ltac:(lia) Hleft Hp).
      lia.
    + apply IH; [|lia..].
      destruct (decide (mid < Z.of_nat p)) as [|Hpm]; [lia|exfalso].
      destruct Hlm as [Hlm|Hlm]; [lia|].
      destruct (Hcmp (Z.to_nat left) (Z.to_nat mid) l m Hleft Hm ltac:(lia))
        as [[Hs' ?]|[Hs' ?]]; [|lia].
      destruct (Hcmp p (Z.to_nat mid) target m Hp Hm ltac:(lia)) as [[Hs ?]|[Hs ?]];
        [|lia].
      destruct Hlp as [->|Hlp].
      * rewrite Nat2Z.id in Hleft. assert (l = target) by congruence. lia.
      * destruct (Hcmp (Z.to_nat left) p l target Hleft Hp ltac:(lia))
          as [[Hs'' ?]|[Hs'' ?]]; lia.
  - assert (left < mid) as Hlm''
      by (destruct Hlm as [Heq|]; [specialize (Hsame Heq); lia|done]).
    destruct (Hcmp (Z.to_nat left) (Z.to_nat mid) l m Hleft Hm ltac:(lia))
      as [[Hs' ?]|[Hs' ?]]; [lia|].
    destruct (py_index_in_range nums right ltac:(lia)) as [r [Hright Hr']].
    assert (Z.of_nat p < mid -> Z.of_nat p < Z.of_nat d ->
            r < target) as Hfirst.
    { intros ? ?. apply (Hcross p (Z.to_nat right)); [lia|lia|done..]. }
    assert (Z.of_nat p < mid -> Z.of_nat d <= Z.of_nat p -> target < m) as Hsecond.
    { intros ? ?. apply (Hrun p (Z.to_nat mid)); [lia|right; lia|done..]. }
    assert (mid < Z.of_nat p -> m < target /\ target <= r) as Hafter.
    { intros ?. split.
      - apply (Hrun (Z.to_nat mid) p); [lia|right; lia|done..].
      - destruct Hrp as [->|Hrp].
        + rewrite Nat2Z.id in Hright. assert (r = target) by congruence. lia.
        + pose proof (Hrun p (Z.to_nat right) target r ltac:(lia)
                        ltac:(right; lia) Hp Hright). lia. }
    destruct (decide (m < target)) as [Hmt|Hmt].
    + rewrite Hr'. bind_ret.
      destruct (decide (target <= r)) as [Htr|Htr]; apply IH; lia.
    + apply IH; lia.
Qed.

End rotated_input.

Lemma search_rotated_array_loop_sound (nums : list Z) (target : Z) (fuel : nat) :
  forall left right : Z,
    0 <= left -> right < len nums -> left <= right + 1 ->
    right - left + 1 < Z.of_nat fuel ->
    exists r, search_rotated_array_loop fuel nums target left right = Ret r /\
      (r = -1 \/ (0 <= r < len nums /\ nums !! Z.to_nat r = Some target)).
Proof.
  induction fuel as [|fuel IH]; intros left right Hl Hr Hlr Hfuel; [lia|].
  cbn [search_rotated_array_loop].
  destruct (decide (left <= right)) as [Hle|Hgt]; [|by exists (-1); auto].
  pose proof (mid_bounds left right Hle) as Hmid.
  set (mid := left + (right - left) / 2) in *.
  destruct (py_index_in_range nums mid ltac:(lia)) as [m [Hm ->]]. bind_ret.
  destruct (decide (m = target)) as [->|Hne].
  { exists mid. split; [done|]. right. split; [lia|done]. }
  destruct (py_index_in_range nums left ltac:(lia)) as [l [_ ->]]. bind_ret.
  destruct (py_index_in_range nums right ltac:(lia)) as [r [_ Hr']].
  destruct (decide (l <= m)).
  - destruct (decide (l <= target /\ target < m)); apply IH; lia.
  - destruct (decide (m < target)); [rewrite Hr'; bind_ret|].
    + destruct (decide (target <= r)); apply IH; lia.
    + apply IH; lia.
Qed.

(** X7.  On a strictly increasing list that was rotated,
    [find_minimum_rotated] returns the least element. *)
Theorem find_minimum_rotated_least (s : list Z) (k : nat) :
  is_increasing s = true -> s <> [] ->
  exists m, find_minimum_rotated (rotated s k) = Ret m /\
            m ∈ rotated s k /\ Forall (fun x => m <= x) (rotated s k).
Proof.
  intros Hinc Hne.
  assert (exists d, two_runs (rotated s k) d /\ (d < length (rotated s k))%nat)
    as (d & Hruns & Hd).
  { assert (0 < length (rotated s k))%nat as Hlen.
    { unfold rotated. rewrite length_app, length_drop, length_take.
      destruct s; [done|simpl; lia]. }
    pose proof (rotated_two_runs s k Hinc) as Hruns.
    destruct (decide (length s - k < length (rotated s k))%nat) as [Hlt|Hge].
    - by exists (length s - k)%nat.
    - exists 0%nat. split; [|done]. eapply two_runs_whole; [exact Hruns|lia]. }
  destruct (lookup_lt_is_Some_2 _ _ Hd) as [m Hm].
  exists m. unfold find_minimum_rotated.
  rewrite (find_minimum_rotated_loop_junction _ d Hruns Hd) by (unfold len; lia).
  bind_ret. split; [|split].
  - apply py_index_Ret; [lia|]. by rewrite Nat2Z.id.
  - by eapply list_elem_of_lookup_2.
  - apply Forall_forall. intros y Hy. by eapply junction_least.
Qed.

Lemma find_minimum_rotated_least_witness :
  exists m, find_minimum_rotated (rotated [0; 1; 2; 4; 5; 6; 7] 3) = Ret m /\
            m ∈ rotated [0; 1; 2; 4; 5; 6; 7] 3 /\
            Forall (fun x => m <= x) (rotated [0; 1; 2; 4; 5; 6; 7] 3).
Proof.
  apply (find_minimum_rotated_least [0; 1; 2; 4; 5; 6; 7] 3).
  - reflexivity.
  - discriminate.
Defined.

(** X8.  On a strictly increasing list that was rotated,
    [search_rotated_array] returns the index of the target when the target
    occurs, and [-1] when it does not. *)
Theorem search_rotated_array_finds (s : list Z) (k : nat) (target : Z) :
  is_increasing s = true ->
  exists i, search_rotated_array (rotated s k) target = Ret i /\
    (target ∈ s -> 0 <= i < len s /\ rotated s k !! Z.to_nat i = Some target) /\
    (target ∉ s -> i = -1).
Proof.
  intros Hinc.
  assert (length (rotated s k) = length s) as Hlen.
  { unfold rotated. rewrite length_app, length_drop, length_take. lia. }
  assert (forall x, x ∈ rotated s k <-> x ∈ s) as Hsame.
  { intros x. unfold rotated. rewrite elem_of_app.
    rewrite <- (take_drop k s) at 3. rewrite elem_of_app. tauto. }
  destruct (decide (target ∈ s)) as [Hyes|Hno].
  - apply Hsame in Hyes as Hrot. apply list_elem_of_lookup in Hrot as [p Hp].
    pose proof (lookup_lt_Some _ _ _ Hp) as Hplt.
    assert (exists d, two_runs (rotated s k) d /\ (d < length (rotated s k))%nat)
      as (d & Hruns & Hd).
    { pose proof (rotated_two_runs s k Hinc) as Hruns.
      destruct (decide (length s - k < length (rotated s k))%nat) as [Hlt|Hge].
      - by exists (length s - k)%nat.
      - exists 0%nat. split; [|lia]. eapply two_runs_whole; [exact Hruns|lia]. }
    exists (Z.of_nat p). unfold search_rotated_array.
    rewrite (search_rotated_array_loop_found _ d Hruns Hd target p) by
      (done || unfold len; lia).
    split; [done|]. split; [|done].
    intros _. unfold len. rewrite Nat2Z.id. split; [lia|done].
  - destruct (search_rotated_array_loop_sound (rotated s k) target
                (S (length (rotated s k))) 0 (len (rotated s k) - 1))
      as (r & Hr & Hsound); [unfold len; lia..|].
    exists r. split; [exact Hr|]. split; [done|]. intros _.
    destruct Hsound as [->|[_ Hin]]; [done|].
    exfalso. apply Hno, Hsame. by eapply list_elem_of_lookup_2.
Qed.

Lemma search_rotated_array_finds_witness :
  exists i, search_rotated_array (rotated [0; 1; 2; 4; 5; 6; 7] 3) 0 = Ret i /\
    (0 ∈ [0; 1; 2; 4; 5; 6; 7] ->
     0 <= i < len [0; 1; 2; 4; 5; 6; 7] /\
     rotated [0; 1; 2; 4; 5; 6; 7] 3 !! Z.to_nat i = Some 0) /\
    (0 ∉ [0; 1; 2; 4; 5; 6; 7] -> i = -1).
Proof.
  apply (search_rotated_array_finds [0; 1; 2; 4; 5; 6; 7] 3 0). reflexivity.
Defined.


(** *** Optimisation by binary search *)

Lemma py_sum_app (l1 l2 : list Z) : py_sum (l1 ++ l2) = py_sum l1 + py_sum l2.
Proof. unfold py_sum. induction l1 as [|x l1 IH]; simpl; lia. Qed.

Lemma py_sum_nonneg (l : list Z) : Forall (fun x => 0 <= x) l -> 0 <= py_sum l.
Proof. unfold py_sum. induction 1; simpl; lia. Qed.

Lemma elem_le_py_sum (l : list Z) (x : Z) :
  Forall (fun x => 0 <= x) l -> x ∈ l -> x <= py_sum l.
Proof.
  intros Hl [l1 [l2 ->]]%list_elem_of_split.
  apply Forall_app in Hl as [H1 [Hx H2]%Forall_cons].
  apply py_sum_nonneg in H1, H2.
  rewrite py_sum_app. change (py_sum (x :: l2)) with (x + py_sum l2). lia.
Qed.

Lemma foldl_max_spec (l : list Z) : forall a,
  (foldl Z.max a l = a \/ foldl Z.max a l ∈ l) /\
  a <= foldl Z.max a l /\ Forall (fun x => x <= foldl Z.max a l) l.
Proof.
  induction l as [|x l IH]; intros a; simpl.
  - split; [by left|]. split; [lia|constructor].
  - destruct (IH (Z.max a x)) as ([Heq|Hin] & Hle & Hall).
    + split; [|split; [lia|constructor; [lia|done]]].
      rewrite Heq. destruct (Z.max_spec a x) as [[_ ->]|[_ ->]];
        [right; apply list_elem_of_here|by left].
    + split; [right; by apply list_elem_of_further|].
      split; [lia|constructor; [lia|done]].
Qed.

Lemma py_max_spec (l : list Z) :
  l <> [] ->
  exists m, py_max l = Ret m /\ m ∈ l /\ Forall (fun x => x <= m) l.
Proof.
  destruct l as [|x l]; [done|]. intros _. simpl.
  destruct (foldl_max_spec l x) as ([Heq|Hin] & Hle & Hall).
  - exists (foldl Z.max x l). split; [done|].
    split; [rewrite Heq; apply list_elem_of_here|by constructor].
  - exists (foldl Z.max x l). split; [done|].
    split; [by apply list_elem_of_further|by constructor].
Qed.

(** The loop of [can_split] is the loop of [can_ship]. *)
Lemma can_split_loop_ship (c : Z) (nums : list Z) : forall d l,
  can_split_loop c nums d l = can_ship_loop c nums d l.
Proof.
  induction nums as [|x nums IH]; intros d l; [done|].
  simpl. by rewrite !IH.
Qed.

Lemma split_array_largest_sum_ship (nums : list Z) (m : Z) :
  split_array_largest_sum nums m = capacity_to_ship_packages nums m.
Proof.
  unfold split_array_largest_sum, capacity_to_ship_packages.
  destruct (py_max nums) as [left| |]; [bind_ret|done..].
  generalize (S (Z.to_nat (py_sum nums - left))) as fuel.
  generalize (py_sum nums) as right. intros right fuel. revert left right.
  induction fuel as [|fuel IH]; intros left right; [done|].
  cbn [split_array_largest_sum_loop capacity_to_ship_packages_loop].
  unfold can_split, can_ship. rewrite can_split_loop_ship.
  by rewrite !IH.
Qed.

Section shipping.
Variable weights : list Z.
Variable D : Z.
Hypothesis weights_nonneg : Forall (fun x => 0 <= x) weights.
Hypothesis D_pos : 1 <= D.

(** A state of the loop that is ahead - fewer days, or the same day and a
    lighter load - stays ahead, also under a larger capacity. *)
Lemma can_ship_loop_mono (c c' : Z) (ws : list Z) : forall d l d' l',
  c <= c' -> Forall (fun x => 0 <= x) ws -> 0 <= l ->
  d' < d \/ (d' = d /\ l' <= l) ->
  can_ship_loop c' ws d' l' <= can_ship_loop c ws d l.
Proof.
  induction ws as [|w ws IH]; intros d l d' l' Hc Hws Hl Hahead.
  - simpl. lia.
  - apply Forall_cons in Hws as [Hw Hws]. simpl.
    destruct (decide (l + w > c)), (decide (l' + w > c'));
      apply IH; auto; lia.
Qed.

Lemma can_ship_mono (c c' : Z) :
  c <= c' -> can_ship weights D c = true -> can_ship weights D c' = true.
Proof.
  unfold can_ship. intros Hc Hship%bool_decide_eq_true. apply bool_decide_eq_true.
  pose proof (can_ship_loop_mono c c' weights 1 0 1 0 Hc weights_nonneg). lia.
Qed.

Lemma can_ship_loop_groups (c : Z) (ws : list Z) : forall cur d,
  can_ship_loop c ws d (py_sum cur) = d + len (groups_of c ws cur) - 1.
Proof.
  induction ws as [|w ws IH]; intros cur d; simpl.
  - unfold len. simpl. lia.
  - destruct (decide (py_sum cur + w > c)).
    + assert (w = py_sum [w]) as Hw by (unfold py_sum; simpl; lia).
      rewrite Hw at 1. rewrite IH. unfold len. simpl. lia.
    + replace (py_sum cur + w) with (py_sum (cur ++ [w]))
        by (rewrite py_sum_app; unfold py_sum; simpl; lia).
      by rewrite IH.
Qed.

Lemma groups_of_join (c : Z) (ws : list Z) : forall cur,
  mjoin (groups_of c ws cur) = cur ++ ws.
Proof.
  induction ws as [|w ws IH]; intros cur; simpl.
  - by rewrite app_nil_r.
  - destruct (decide _); simpl; rewrite IH; [done|]. by rewrite <- app_assoc.
Qed.

Lemma groups_of_sums (c : Z) (ws : list Z) : forall cur,
  py_sum cur <= c -> Forall (fun x => x <= c) ws ->
  Forall (fun g => py_sum g <= c) (groups_of c ws cur).
Proof.
  induction ws as [|w ws IH]; intros cur Hcur Hws; simpl.
  - by constructor.
  - apply Forall_cons in Hws as [Hw Hws].
    destruct (decide _).
    + constructor; [done|]. apply IH; [|done]. unfold py_sum. simpl. lia.
    + apply IH; [|done]. rewrite py_sum_app. unfold py_sum at 2. simpl. lia.
Qed.

Lemma can_ship_ships (c : Z) :
  0 <= c -> Forall (fun x => x <= c) weights ->
  can_ship weights D c = true -> ships_within weights D c.
Proof.
  intros Hc Hmax Hship%bool_decide_eq_true.
  exists (groups_of c weights []). split; [apply groups_of_join|].
  split; [by apply groups_of_sums|].
  pose proof (can_ship_loop_groups c weights [] 1) as Hdays.
  change (py_sum []) with 0 in Hdays. lia.
Qed.

(** The loop of [can_ship] needs no more days than any cut into groups
    has groups. *)
Lemma can_ship_loop_le_groups (c : Z) (gs : list (list Z)) : forall g d l,
  Forall (fun x => 0 <= x) (mjoin (g :: gs)) -> 0 <= l ->
  l + py_sum g <= c -> Forall (fun g => py_sum g <= c) gs ->
  can_ship_loop c (mjoin (g :: gs)) d l <= d + len gs.
Proof.
  induction gs as [|g' gs IH]; intros g; induction g as [|w g IHg];
    intros d l Hnonneg Hl Hfit Hgs.
  - simpl. unfold len. simpl. lia.
  - change (mjoin ((w :: g) :: [])) with (w :: mjoin [g]) in *.
    apply Forall_cons in Hnonneg as [Hw Hnonneg].
    pose proof (py_sum_nonneg (mjoin [g]) Hnonneg) as Hrest.
    change (mjoin [g]) with (g ++ []) in Hrest. rewrite app_nil_r in Hrest.
    change (py_sum (w :: g)) with (w + py_sum g) in Hfit.
    simpl. destruct (decide (l + w > c)); [lia|].
    apply IHg; [done|lia|lia|done].
  - change (mjoin ([] :: g' :: gs)) with (mjoin (g' :: gs)) in *.
    apply Forall_cons in Hgs as [Hg' Hgs].
    pose proof (IH g' (d + 1) 0 Hnonneg ltac:(lia) ltac:(lia) Hgs) as Hnext.
    pose proof (can_ship_loop_mono c c (mjoin (g' :: gs)) (d + 1) 0 d l
                  ltac:(lia) Hnonneg ltac:(lia) ltac:(lia)) as Hahead.
    unfold len in *. rewrite length_cons. lia.
  - change (mjoin ((w :: g) :: g' :: gs)) with (w :: mjoin (g :: g' :: gs)) in *.
    apply Forall_cons in Hnonneg as [Hw Hnonneg].
    assert (0 <= py_sum g) as Hrest.
    { apply py_sum_nonneg. change (mjoin (g :: g' :: gs)) with (g ++ mjoin (g' :: gs))
        in Hnonneg. by apply Forall_app in Hnonneg as [? _]. }
    change (py_sum (w :: g)) with (w + py_sum g) in Hfit.
    simpl. destruct (decide (l + w > c)); [lia|].
    apply IHg; [done|lia|lia|done].
Qed.

Lemma ships_can_ship (c : Z) :
  ships_within weights D c -> can_ship weights D c = true.
Proof.
  intros (groups & Hjoin & Hsums & Hlen). apply bool_decide_eq_true.
  destruct groups as [|g gs].
  - simpl in Hjoin. subst weights. simpl. lia.
  - apply Forall_cons in Hsums as [Hg Hgs].
    pose proof (can_ship_loop_le_groups c gs g 1 0) as Hle.
    rewrite Hjoin in Hle. specialize (Hle weights_nonneg ltac:(lia) ltac:(lia) Hgs).
    unfold len in *. rewrite length_cons in Hlen. lia.
Qed.

Lemma ships_within_max (c : Z) :
  ships_within weights D c -> Forall (fun x => x <= c) weights.
Proof.
  intros (groups & Hjoin & Hsums & _). apply Forall_forall. intros x Hx.
  rewrite <- Hjoin in Hx. apply list_elem_of_join in Hx as (g & Hxg & Hg).
  pose proof (proj1 (Forall_forall _ _) Hsums g Hg) as Hsum. simpl in Hsum.
  assert (Forall (fun x => 0 <= x) g) as Hnonneg.
  { apply Forall_forall. intros y Hy.
    apply (proj1 (Forall_forall _ _) weights_nonneg). rewrite <- Hjoin.
    apply list_elem_of_join. by exists g. }
  pose proof (elem_le_py_sum g x Hnonneg Hxg). lia.
Qed.

Lemma capacity_to_ship_packages_loop_least (lo : Z) (fuel : nat) :
  forall left right : Z,
    left <= right -> right - left < Z.of_nat fuel ->
    can_ship weights D right = true ->
    (forall c, lo <= c < left -> can_ship weights D c = false) ->
    exists r, capacity_to_ship_packages_loop fuel weights D left right = Ret r /\
      left <= r <= right /\ can_ship weights D r = true /\
      forall c, lo <= c < r -> can_ship weights D c = false.
Proof.
  induction fuel as [|fuel IH]; intros left right Hlr Hfuel Hright Hleft; [lia|].
  cbn [capacity_to_ship_packages_loop].
  destruct (decide (left < right)) as [Hlt|Hge].
  - assert (left <= left + (right - left) / 2 < right) as Hmid
      by (Z.div_mod_to_equations; lia).
    set (mid := left + (right - left) / 2) in *.
    destruct (can_ship weights D mid) eqn:Hship.
    + destruct (IH left mid) as (r & Hr & Hrange & Hok & Hleast);
        [lia|lia|done|done|].
      exists r. split; [done|]. split; [lia|done].
    + destruct (IH (mid + 1) right) as (r & Hr & Hrange & Hok & Hleast);
        [lia|lia|done| |].
      { intros c Hc. destruct (can_ship weights D c) eqn:Hc'; [|done].
        destruct (decide (c < left)) as [|Hcl]; [rewrite Hleft in Hc'; [done|lia]|].
        rewrite (can_ship_mono c mid) in Hship; [done|lia|done]. }
      exists r. split; [done|]. split; [lia|done].
  - assert (left = right) as -> by lia.
    exists right. split; [done|]. split; [lia|]. split; [done|done].
Qed.

Lemma least_capacity :
  weights <> [] ->
  exists c, capacity_to_ship_packages weights D = Ret c /\
    ships_within weights D c /\
    forall c', ships_within weights D c' -> c <= c'.
Proof.
  intros Hne.
  destruct (py_max_spec weights Hne) as (m & Hmax & Hm & Hall).
  pose proof (elem_le_py_sum weights m weights_nonneg Hm) as Hms.
  pose proof (proj1 (Forall_forall _ _) weights_nonneg m Hm) as Hm0. simpl in Hm0.
  assert (can_ship weights D (py_sum weights) = true) as Hsum.
  { apply ships_can_ship. exists [weights]. split; [simpl; by rewrite app_nil_r|].
    split; [constructor; [lia|constructor]|]. unfold len. simpl. lia. }
  destruct (capacity_to_ship_packages_loop_least m
              (S (Z.to_nat (py_sum weights - m))) m (py_sum weights))
    as (c & Hc & Hrange & Hok & Hleast); [lia|lia|done| |].
  { intros c Hc. lia. }
  exists c. unfold capacity_to_ship_packages. rewrite Hmax. bind_ret.
  split; [exact Hc|]. split.
  - apply can_ship_ships; [lia| |done].
    eapply Forall_impl; [exact Hall|]. intros x Hx. simpl in Hx. lia.
  - intros c' Hships. destruct (decide (c <= c')) as [|Hlt]; [done|exfalso].
    pose proof (proj1 (Forall_forall _ _) (ships_within_max c' Hships) m Hm) as Hmc.
    simpl in Hmc. pose proof (Hleast c' ltac:(lia)) as Hfalse.
    by rewrite (ships_can_ship c' Hships) in Hfalse.
Qed.

End shipping.

(** X9.  For weights that are not negative, at least one of them, and
    [D >= 1], [capacity_to_ship_packages] returns the least capacity under
    which the weights can be cut into at most [D] consecutive groups, each
    within the capacity. *)
Theorem capacity_to_ship_packages_least (weights : list Z) (D : Z) :
  Forall (fun x => 0 <= x) weights -> 1 <= D -> weights <> [] ->
  exists c, capacity_to_ship_packages weights D = Ret c /\
    ships_within weights D c /\
    forall c', ships_within weights D c' -> c <= c'.
Proof. apply least_capacity. Qed.

Lemma capacity_to_ship_packages_least_witness :
  exists c, capacity_to_ship_packages [1; 2; 3; 4; 5; 6; 7; 8; 9; 10] 5 = Ret c /\
    ships_within [1; 2; 3; 4; 5; 6; 7; 8; 9; 10] 5 c /\
    forall c', ships_within [1; 2; 3; 4; 5; 6; 7; 8; 9; 10] 5 c' -> c <= c'.
Proof.
  apply (capacity_to_ship_packages_least [1; 2; 3; 4; 5; 6; 7; 8; 9; 10] 5).
  - repeat constructor; lia.
  - lia.
  - discriminate.
Defined.

(** X10.  Under the same conditions [split_array_largest_sum] returns the
    least bound under which the numbers can be cut into at most [m]
    consecutive groups, each with a sum within the bound. *)
Theorem split_array_largest_sum_least (nums : list Z) (m : Z) :
  Forall (fun x => 0 <= x) nums -> 1 <= m -> nums <> [] ->
  exists c, split_array_largest_sum nums m = Ret c /\
    ships_within nums m c /\
    forall c', ships_within nums m c' -> c <= c'.
Proof. rewrite split_array_largest_sum_ship. apply least_capacity. Qed.

Lemma split_array_largest_sum_least_witness :
  exists c, split_array_largest_sum [7; 2; 5; 10; 8] 2 = Ret c /\
    ships_within [7; 2; 5; 10; 8] 2 c /\
    forall c', ships_within [7; 2; 5; 10; 8] 2 c' -> c <= c'.
Proof.
  apply (split_array_largest_sum_least [7; 2; 5; 10; 8] 2).
  - repeat constructor; lia.
  - lia.
  - discriminate.
Defined.

(** The three functions start with [max] of their list, so an empty list
    makes them raise [ValueError], whatever the second argument. *)
Lemma optimization_empty_list_raises (D : Z) :
  capacity_to_ship_packages [] D = Raise ValueError /\
  split_array_largest_sum [] D = Raise ValueError /\
  smallest_divisor [] D = Raise ValueError.
Proof. by repeat split. Qed.

(** *** The fuel of the loops with floats *)

Lemma bind_halts {A B} (m : outcome A) (k : A -> outcome B) :
  m <> OutOfFuel -> (forall a, k a <> OutOfFuel) -> (x ← m; k x) <> OutOfFuel.
Proof. intros Hm Hk. destruct m; bind_ret; [apply Hk|done..]. Qed.

Lemma py_index_halts {A} (l : list A) (i : Z) : py_index l i <> OutOfFuel.
Proof.
  unfold py_index. destruct (decide _); [|done].
  by destruct (l !! _).
Qed.

Lemma finite_or_overflow_halts (f : float) : finite_or_overflow f <> OutOfFuel.
Proof. by destruct f. Qed.

Lemma int_truediv_halts (a b : Z) : int_truediv a b <> OutOfFuel.
Proof.
  unfold int_truediv. destruct (decide (b = 0)); [done|].
  destruct (decide (a = 0)); [done|].
  destruct (SFdiv_core_binary _ _ _ _ _ _) as [[q e] l].
  apply finite_or_overflow_halts.
Qed.

Lemma get_sum_halts (divisor : Z) (nums : list Z) :
  forall total, get_sum divisor nums total <> OutOfFuel.
Proof.
  induction nums as [|num nums IH]; intros total; [done|].
  cbn [get_sum]. apply bind_halts; [apply int_truediv_halts|].
  intros q. apply bind_halts; [by destruct q|]. intros c. apply IH.
Qed.

Lemma smallest_divisor_loop_runs (nums : list Z) (threshold : Z) (fuel : nat) :
  forall left right,
    Z.max 0 (right - left) < Z.of_nat fuel ->
    smallest_divisor_loop fuel nums threshold left right <> OutOfFuel.
Proof.
  induction fuel as [|fuel IH]; intros left right Hfuel; [lia|].
  cbn [smallest_divisor_loop].
  destruct (decide (left < right)) as [Hlt|]; [|done].
  apply bind_halts; [apply get_sum_halts|]. intros total.
  destruct (decide (total <= threshold)); apply IH;
    Z.div_mod_to_equations; lia.
Qed.

(** [smallest_divisor] returns or raises on every list: the fuel of its loop
    is enough. *)
Lemma smallest_divisor_runs (nums : list Z) (threshold : Z) :
  smallest_divisor nums threshold <> OutOfFuel.
Proof.
  unfold smallest_divisor. apply bind_halts; [by destruct nums|].
  intros right. apply smallest_divisor_loop_runs. lia.
Qed.

Lemma number_add_halts (x y : number) : number_add x y <> OutOfFuel.
Proof.
  destruct x as [a|f], y as [b|g]; cbn [number_add]; try done;
    (apply bind_halts; [apply finite_or_overflow_halts|done]).
Qed.

Lemma number_truediv_halts (x y : number) : number_truediv x y <> OutOfFuel.
Proof.
  assert (forall f g, float_truediv f g <> OutOfFuel) as Hdiv
    by (intros f g; by destruct g).
  destruct x as [a|f], y as [b|g]; cbn [number_truediv].
  - apply bind_halts; [apply int_truediv_halts|done].
  - apply bind_halts; [apply finite_or_overflow_halts|]. intros f.
    apply bind_halts; [apply Hdiv|done].
  - apply bind_halts; [apply finite_or_overflow_halts|]. intros g.
    apply bind_halts; [apply Hdiv|done].
  - apply bind_halts; [apply Hdiv|done].
Qed.

Lemma find_median_sorted_arrays_loop_runs (nums1 nums2 : list Z)
    (m n total half : Z) (fuel : nat) :
  forall left right,
    Z.max 0 (right - left + 1) < Z.of_nat fuel ->
    find_median_sorted_arrays_loop fuel nums1 nums2 m n total half left right
    <> OutOfFuel.
Proof.
  induction fuel as [|fuel IH]; intros left right Hfuel; [lia|].
  cbn [find_median_sorted_arrays_loop].
  destruct (decide (left <= right)) as [Hle|]; [|done].
  apply bind_halts;
    [destruct (decide _); [apply bind_halts; [apply py_index_halts|done]|done]|].
  intros nums1_left.
  apply bind_halts;
    [destruct (decide _); [apply bind_halts; [apply py_index_halts|done]|done]|].
  intros nums1_right.
  apply bind_halts;
    [destruct (decide _); [apply bind_halts; [apply py_index_halts|done]|done]|].
  intros nums2_left.
  apply bind_halts;
    [destruct (decide _); [apply bind_halts; [apply py_index_halts|done]|done]|].
  intros nums2_right.
  destruct (_ && _).
  - destruct (decide (total mod 2 = 0)); [|done].
    apply bind_halts; [apply number_add_halts|]. intros sum.
    apply number_truediv_halts.
  - destruct (number_gt _ _); apply IH; Z.div_mod_to_equations; lia.
Qed.

(** [find_median_sorted_arrays] returns or raises on every two lists. *)
Lemma find_median_sorted_arrays_runs (nums1 nums2 : list Z) :
  find_median_sorted_arrays nums1 nums2 <> OutOfFuel.
Proof.
  unfold find_median_sorted_arrays.
  destruct (decide (len nums1 > len nums2));
    apply find_median_sorted_arrays_loop_runs; unfold len; lia.
Qed.

End BinarySearchSpec.
(** ** sliding_window.py *)

Module SlidingWindowSpec.
Import SlidingWindow.

Example demo_max_sum : max_sum_subarray [2; 1; 5; 1; 3; 2] 3 = Ret 9.
Proof. reflexivity. Qed.

Lemma minus_one_is_a_window_sum :
  max_sum_subarray [-1] 1 = Ret (-1) /\ is_max_window_sum [-1] 1 (-1).
Proof.
  split; [reflexivity|]. split.
  - exists 0%nat. split; [simpl; lia|reflexivity].
  - intros i Hi. simpl in Hi. assert (i = 0%nat) as -> by lia. reflexivity.
Qed.

(** C10.  When the array is shorter than the window, [max_sum_subarray]
    returns [-1] and does not raise.  The value is ambiguous for a caller:
    [-1] is also the result for an array that has a window of size [k] whose
    greatest window sum is [-1]. *)
Theorem max_sum_subarray_short_input (arr : list Z) (k : Z) :
  len arr < k ->
  max_sum_subarray arr k = Ret (-1) /\
  exists (arr' : list Z) (k' : nat),
    (0 < k' <= length arr')%nat /\
    max_sum_subarray arr' (Z.of_nat k') = Ret (-1) /\
    is_max_window_sum arr' k' (-1).
Proof.
  intros Hshort. split.
  - unfold max_sum_subarray. by rewrite decide_True.
  - exists [-1], 1%nat. split; [simpl; lia|]. apply minus_one_is_a_window_sum.
Qed.

Lemma max_sum_subarray_short_input_witness :
  max_sum_subarray [1; 2] 3 = Ret (-1) /\
  exists (arr' : list Z) (k' : nat),
    (0 < k' <= length arr')%nat /\
    max_sum_subarray arr' (Z.of_nat k') = Ret (-1) /\
    is_max_window_sum arr' k' (-1).
Proof. apply (max_sum_subarray_short_input [1; 2] 3). reflexivity. Defined.


(** *** The greatest window sum *)

Lemma sum_app (l1 l2 : list Z) : sum (l1 ++ l2) = sum l1 + sum l2.
Proof. unfold sum. induction l1 as [|x l1 IH]; simpl; lia. Qed.

(** Moving the window one cell to the right adds the cell that enters and
    takes away the cell that leaves. *)
Lemma window_shift (arr : list Z) (j k : nat) (a b : Z) :
  arr !! j = Some b -> arr !! (j + k)%nat = Some a ->
  window arr (S j) k = window arr j k + (a - b).
Proof.
  intros Hb Ha. unfold window.
  destruct k as [|k].
  { rewrite Nat.add_0_r in Ha. assert (a = b) by congruence. simpl. lia. }
  rewrite (drop_S arr b j Hb). rewrite firstn_cons.
  assert (drop (S j) arr !! k = Some a) as Hlast
    by (rewrite lookup_drop; by replace (S j + k)%nat with (j + S k)%nat by lia).
  rewrite (take_S_r _ _ _ Hlast), sum_app.
  change (sum (b :: take k (drop (S j) arr))) with (b + sum (take k (drop (S j) arr))).
  unfold sum at 2. simpl. lia.
Qed.

Lemma slide_spec (arr : list Z) (k : nat) (n : nat) :
  forall (i : nat) (window_sum max_sum : Z),
    (k <= i)%nat -> (i + n = length arr)%nat ->
    window_sum = window arr (i - k) k ->
    (forall j : nat, (j <= i - k)%nat -> window arr j k <= max_sum) ->
    (exists j : nat, (j <= i - k)%nat /\ window arr j k = max_sum) ->
    exists m,
      slide arr (Z.of_nat k) (seqZ (Z.of_nat i) (Z.of_nat n)) window_sum max_sum
      = Ret m /\
      is_max_window_sum arr k m.
Proof.
  induction n as [|n IH]; intros i window_sum max_sum Hki Hlen Hws Hmax Hwit.
  - exists max_sum. split; [done|]. destruct Hwit as (j & Hj & Hjm). split.
    + exists j. split; [lia|done].
    + intros j' Hj'. apply Hmax. lia.
  - rewrite seqZ_cons by lia. cbn [slide].
    destruct (py_index_in_range arr (Z.of_nat i)) as [a [Ha ->]];
      [unfold len; lia|]. bind_ret.
    destruct (py_index_in_range arr (Z.of_nat i - Z.of_nat k)) as [b [Hb ->]];
      [unfold len; lia|]. bind_ret.
    rewrite Nat2Z.id in Ha.
    replace (Z.to_nat (Z.of_nat i - Z.of_nat k)) with (i - k)%nat in Hb by lia.
    assert (window arr (S (i - k)) k = window_sum + (a - b)) as Hshift.
    { rewrite Hws. apply window_shift; [done|].
      by replace (i - k + k)%nat with i by lia. }
    replace (Z.succ (Z.of_nat i)) with (Z.of_nat (S i)) by lia.
    replace (Z.pred (Z.of_nat (S n))) with (Z.of_nat n) by lia.
    replace (S (i - k)) with (S i - k)%nat in Hshift by lia.
    apply IH; [lia|lia|done| |].
    + intros j Hj. destruct (decide (j <= i - k)%nat) as [Hold|Hnew].
      * pose proof (Hmax j Hold). lia.
      * replace j with (S i - k)%nat by lia. rewrite Hshift. lia.
    + destruct (Z.max_spec max_sum (window_sum + (a - b))) as [[_ ->]|[_ ->]].
      * exists (S i - k)%nat. split; [lia|done].
      * destruct Hwit as (j & Hj & Hjm). exists j. split; [lia|done].
Qed.

(** X22.  When the window fits ([0 <= k <= len(arr)]), [max_sum_subarray]
    returns the greatest sum of [k] consecutive cells. *)
Theorem max_sum_subarray_greatest (arr : list Z) (k : nat) :
  (k <= length arr)%nat ->
  exists m, max_sum_subarray arr (Z.of_nat k) = Ret m /\ is_max_window_sum arr k m.
Proof.
  intros Hk. unfold max_sum_subarray.
  rewrite decide_False by (unfold len; lia).
  assert (py_slice_to arr (Z.of_nat k) = take k arr) as ->.
  { unfold py_slice_to, py_norm. rewrite decide_False by lia. by rewrite Nat2Z.id. }
  replace (len arr - Z.of_nat k) with (Z.of_nat (length arr - k)) by (unfold len; lia).
  apply slide_spec; [lia|lia| | |].
  - by rewrite Nat.sub_diag.
  - intros j Hj. replace j with 0%nat by lia. unfold window. by rewrite drop_0.
  - exists 0%nat. split; [lia|]. unfold window. by rewrite drop_0.
Qed.

Lemma max_sum_subarray_greatest_witness :
  exists m, max_sum_subarray [2; 1; 5; 1; 3; 2] (Z.of_nat 3) = Ret m /\
            is_max_window_sum [2; 1; 5; 1; 3; 2] 3 m.
Proof. apply (max_sum_subarray_greatest [2; 1; 5; 1; 3; 2] 3). simpl. lia. Defined.


(** *** The shortest window that reaches a target

    Both loops of [smallest_subarray_sum] keep [window_sum] equal to the
    difference of two prefix sums, also while [left] is ahead of
    [right]. *)

Lemma py_index_past_end {A} (l : list A) (i : Z) :
  len l <= i -> py_index l i = Raise IndexError.
Proof.
  intros Hi. unfold py_index, py_norm. unfold len in *.
  destruct (decide (i < 0)) as [?|_]; [lia|].
  destruct (decide (0 <= i < Z.of_nat (length l))) as [?|_]; [lia|done].
Qed.

Lemma prefix_S (arr : list Z) (n : nat) (a : Z) :
  arr !! n = Some a -> prefix arr (S n) = prefix arr n + a.
Proof.
  intros Ha. unfold prefix. rewrite (take_S_r _ _ _ Ha), sum_app.
  unfold sum at 2. simpl. lia.
Qed.

Lemma prefix_ge (arr : list Z) (n : nat) :
  (length arr <= n)%nat -> prefix arr n = prefix arr (length arr).
Proof. intros Hn. unfold prefix. by rewrite !take_ge by lia. Qed.

Lemma window_prefix (arr : list Z) (i k : nat) :
  window arr i k = prefix arr (i + k) - prefix arr i.
Proof.
  unfold window, prefix. revert arr. induction i as [|i IH]; intros arr.
  - rewrite drop_0. simpl. unfold sum. simpl. lia.
  - destruct arr as [|x arr]; [by rewrite drop_nil, !take_nil|].
    simpl. rewrite IH. unfold sum. simpl. lia.
Qed.

Section smallest.
Variable arr : list Z.
Variable target : Z.
Hypothesis arr_nonneg : Forall (fun x => 0 <= x) arr.

Lemma prefix_mono (n n' : nat) : (n <= n')%nat -> prefix arr n <= prefix arr n'.
Proof.
  intros Hn. replace n' with (n + (n' - n))%nat by lia.
  pose proof (window_prefix arr n (n' - n)) as Hw.
  assert (0 <= window arr n (n' - n)); [|lia].
  unfold window.
  assert (Forall (fun x => 0 <= x) (take (n' - n)%nat (drop n arr))) as Hl
    by (by apply Forall_take, Forall_drop).
  unfold sum. induction Hl; simpl; lia.
Qed.

(** The inner loop, whatever the target: it raises [IndexError], or leaves
    a window below the target. *)
Lemma shrink_outcome (right : Z) (fuel : nat) :
  forall (left : nat) (window_sum : Z) (min_length : option Z),
    (left <= length arr)%nat -> (length arr - left + 1 < fuel)%nat ->
    window_sum = prefix arr (Z.to_nat (right + 1)) - prefix arr left ->
    shrink fuel arr target right (Z.of_nat left) window_sum min_length
    = Raise IndexError \/
    exists (left' : nat) window_sum' min_length',
      shrink fuel arr target right (Z.of_nat left) window_sum min_length
      = Ret (Z.of_nat left', window_sum', min_length') /\
      (left <= left' <= length arr)%nat /\
      window_sum' = prefix arr (Z.to_nat (right + 1)) - prefix arr left' /\
      window_sum' < target.
Proof.
  induction fuel as [|fuel IH]; intros left ws m Hleft Hfuel Hws; [lia|].
  cbn [shrink]. destruct (decide (ws >= target)) as [Hge|Hlt].
  - destruct (decide (left < length arr)%nat) as [Hin|Hout].
    + destruct (py_index_in_range arr (Z.of_nat left)) as [a [Ha ->]];
        [unfold len; lia|]. bind_ret. rewrite Nat2Z.id in Ha.
      replace (Z.of_nat left + 1) with (Z.of_nat (S left)) by lia.
      destruct (IH (S left) (ws - a) (min_inf m (right - Z.of_nat left + 1)))
        as [Hraise|(left' & ws' & m' & Hrun & Hrange & Hsum & Hbelow)];
        [lia|lia|rewrite (prefix_S _ _ _ Ha); lia|by left|].
      right. exists left', ws', m'. split; [done|]. split; [lia|done].
    + left. rewrite py_index_past_end by (unfold len; lia). done.
  - right. exists left, ws, m. split; [done|]. split; [lia|]. split; [done|lia].
Qed.

Lemma smallest_subarray_sum_nonpositive :
  arr <> [] -> target <= 0 ->
  smallest_subarray_sum arr target = Raise IndexError.
Proof.
  intros Hne Htarget.
  assert (forall (n right left : nat) ws m,
            (right + S n = length arr)%nat -> (left <= length arr)%nat ->
            ws = prefix arr right - prefix arr left ->
            smallest_subarray_sum_loop (seqZ (Z.of_nat right) (Z.of_nat (S n)))
              arr target (Z.of_nat left) ws m = Raise IndexError) as Hloop.
  { induction n as [|n IH]; intros right left ws m Hlen Hleft Hws;
      rewrite seqZ_cons by lia; cbn [smallest_subarray_sum_loop];
      (destruct (py_index_in_range arr (Z.of_nat right)) as [a [Ha ->]];
         [unfold len; lia|]); bind_ret; rewrite Nat2Z.id in Ha;
      (destruct (shrink_outcome (Z.of_nat right) (S (S (length arr))) left
                   (ws + a) m)
         as [->|(left' & ws' & m' & -> & Hrange & Hsum & Hbelow)];
         [lia|lia| |done|]);
      try (replace (Z.to_nat (Z.of_nat right + 1)) with (S right) by lia;
           rewrite (prefix_S _ _ _ Ha); lia);
      bind_ret; replace (Z.to_nat (Z.of_nat right + 1)) with (S right) in Hsum by lia.
    - exfalso. pose proof (prefix_mono left' (S right) ltac:(lia)). lia.
    - replace (Z.succ (Z.of_nat right)) with (Z.of_nat (S right)) by lia.
      replace (Z.pred (Z.of_nat (S (S n)))) with (Z.of_nat (S n)) by lia.
      apply IH; [lia|lia|done]. }
  unfold smallest_subarray_sum.
  destruct arr as [|x rest] eqn:Harr; [done|]. rewrite <- Harr in *.
  replace (len arr) with (Z.of_nat (S (length rest)))
    by (rewrite Harr; unfold len; simpl; lia).
  pose proof (Hloop (length rest) 0%nat 0%nat 0 None) as Hrun.
  change (Z.of_nat 0) with 0 in Hrun. rewrite Hrun; [done| |lia|].
  - rewrite Harr. simpl. lia.
  - unfold prefix. simpl. unfold sum. simpl. lia.
Qed.

Hypothesis target_pos : 0 < target.

(** What the loops know when [right] cells are done and the window starts
    at [left]: every window that reaches the target and starts before
    [left] or ends within the cells done is at least as long as
    [min_length], and [min_length] is the length of such a window. *)
Lemma shrink_spec (right : nat) (fuel : nat) :
  forall (left : nat) (window_sum : Z) (min_length : option Z),
    (right < length arr)%nat -> (left <= S right)%nat ->
    (S right - left < fuel)%nat ->
    window_sum = prefix arr (S right) - prefix arr left ->
    (forall i k, reaches arr target i k -> (i < left \/ i + k <= right)%nat ->
       exists x, min_length = Some x /\ x <= Z.of_nat k) ->
    (forall x, min_length = Some x ->
       0 < x /\ exists i, reaches arr target i (Z.to_nat x)) ->
    exists (left' : nat) window_sum' min_length',
      shrink fuel arr target (Z.of_nat right) (Z.of_nat left) window_sum min_length
      = Ret (Z.of_nat left', window_sum', min_length') /\
      (left' <= S right)%nat /\
      window_sum' = prefix arr (S right) - prefix arr left' /\
      (forall i k, reaches arr target i k -> (i < left' \/ i + k <= S right)%nat ->
         exists x, min_length' = Some x /\ x <= Z.of_nat k) /\
      (forall x, min_length' = Some x ->
         0 < x /\ exists i, reaches arr target i (Z.to_nat x)).
Proof.
  induction fuel as [|fuel IH]; intros left ws m Hright Hleft Hfuel Hws Hall Hwit;
    [lia|].
  cbn [shrink]. destruct (decide (ws >= target)) as [Hge|Hlt].
  - assert (left <= right)%nat as Hlr.
    { destruct (decide (left <= right)%nat); [done|exfalso].
      assert (left = S right) as -> by lia. lia. }
    destruct (py_index_in_range arr (Z.of_nat left)) as [a [Ha ->]];
      [unfold len; lia|]. bind_ret. rewrite Nat2Z.id in Ha.
    replace (Z.of_nat left + 1) with (Z.of_nat (S left)) by lia.
    set (here := Z.of_nat right - Z.of_nat left + 1).
    assert (reaches arr target left (Z.to_nat here)) as Hhere.
    { split; [unfold here; lia|]. split; [unfold here; lia|].
      rewrite window_prefix.
      replace (left + Z.to_nat here)%nat with (S right) by (unfold here; lia). lia. }
    apply IH; [done|lia|lia|rewrite (prefix_S _ _ _ Ha); lia| |].
    + intros i k Hik Hside.
      destruct (decide (i < left \/ i + k <= right)%nat) as [Hold|Hnew].
      * destruct (Hall i k Hik Hold) as (x & -> & Hx).
        exists (Z.min x here). split; [done|lia].
      * assert (i = left) as -> by lia.
        destruct m as [x|]; [exists (Z.min x here)|exists here];
          (split; [done|unfold here; lia]).
    + intros x Hx. destruct m as [y|]; simpl in Hx; injection Hx as <-.
      * destruct (Z.min_spec y here) as [[_ ->]|[_ ->]]; [by apply Hwit|].
        split; [unfold here; lia|by exists left].
      * split; [unfold here; lia|by exists left].
  - exists left, ws, m. split; [done|]. split; [done|]. split; [done|].
    split; [|done]. intros i k Hik Hside.
    destruct (decide (i < left \/ i + k <= right)%nat) as [Hold|Hnew];
      [by apply (Hall i k)|exfalso].
    destruct Hik as (Hk & Hlen & Hreach). rewrite window_prefix in Hreach.
    replace (i + k)%nat with (S right) in Hreach by lia.
    pose proof (prefix_mono left i ltac:(lia)). lia.
Qed.

Lemma smallest_subarray_sum_loop_spec (n : nat) :
  forall (right left : nat) (window_sum : Z) (min_length : option Z),
    (right + n = length arr)%nat -> (left <= right)%nat ->
    window_sum = prefix arr right - prefix arr left ->
    (forall i k, reaches arr target i k -> (i < left \/ i + k <= right)%nat ->
       exists x, min_length = Some x /\ x <= Z.of_nat k) ->
    (forall x, min_length = Some x ->
       0 < x /\ exists i, reaches arr target i (Z.to_nat x)) ->
    exists min_length',
      smallest_subarray_sum_loop (seqZ (Z.of_nat right) (Z.of_nat n)) arr target
        (Z.of_nat left) window_sum min_length = Ret min_length' /\
      (forall i k, reaches arr target i k ->
         exists x, min_length' = Some x /\ x <= Z.of_nat k) /\
      (forall x, min_length' = Some x ->
         0 < x /\ exists i, reaches arr target i (Z.to_nat x)).
Proof.
  induction n as [|n IH]; intros right left ws m Hlen Hleft Hws Hall Hwit.
  - exists m. split; [done|]. split; [|done].
    intros i k Hik. apply (Hall i k); [done|]. destruct Hik as (_ & ? & _). lia.
  - rewrite seqZ_cons by lia. cbn [smallest_subarray_sum_loop].
    destruct (py_index_in_range arr (Z.of_nat right)) as [a [Ha ->]];
      [unfold len; lia|]. bind_ret. rewrite Nat2Z.id in Ha.
    destruct (shrink_spec right (S (S (length arr))) left (ws + a) m)
      as (left' & ws' & m' & -> & Hleft' & Hws' & Hall' & Hwit');
      [lia|lia|lia|rewrite (prefix_S _ _ _ Ha); lia|done|done|].
    bind_ret.
    replace (Z.succ (Z.of_nat right)) with (Z.of_nat (S right)) by lia.
    replace (Z.pred (Z.of_nat (S n))) with (Z.of_nat n) by lia.
    apply IH; [lia|done|done|done|done].
Qed.

Lemma smallest_subarray_sum_positive :
  exists r, smallest_subarray_sum arr target = Ret r /\
    ((r = 0 /\ forall i k, ~ reaches arr target i k) \/
     ((exists i, reaches arr target i (Z.to_nat r)) /\
      forall i k, reaches arr target i k -> r <= Z.of_nat k)).
Proof.
  destruct (smallest_subarray_sum_loop_spec (length arr) 0 0 0 None)
    as (m & Hrun & Hall & Hwit); [lia|lia|unfold prefix, sum; simpl; lia| |done|].
  { intros i k (Hk & _) Hside. lia. }
  change (Z.of_nat 0) with 0 in Hrun.
  unfold smallest_subarray_sum. unfold len.
  rewrite Hrun. bind_ret. destruct m as [x|]; simpl.
  - exists x. split; [done|]. right. destruct (Hwit x eq_refl) as [_ Hi].
    split; [done|]. intros i k Hik.
    destruct (Hall i k Hik) as (y & [= <-] & Hy). done.
  - exists 0. split; [done|]. left. split; [done|]. intros i k Hik.
    by destruct (Hall i k Hik) as (y & ? & _).
Qed.

End smallest.

(** X23.  On a list of non-negative numbers that is not empty, a target
    that is not positive makes [smallest_subarray_sum] raise [IndexError]:
    the inner loop runs [left] past the end of the list. *)
Theorem smallest_subarray_sum_raises (arr : list Z) (target : Z) :
  Forall (fun x => 0 <= x) arr -> arr <> [] -> target <= 0 ->
  smallest_subarray_sum arr target = Raise IndexError.
Proof. apply smallest_subarray_sum_nonpositive. Qed.

(** X24.  On a list of non-negative numbers and for a positive target,
    [smallest_subarray_sum] returns the length of a shortest window whose
    sum reaches the target, and 0 when no window reaches it. *)
Theorem smallest_subarray_sum_shortest (arr : list Z) (target : Z) :
  Forall (fun x => 0 <= x) arr -> 0 < target ->
  exists r, smallest_subarray_sum arr target = Ret r /\
    ((r = 0 /\ forall i k, ~ reaches arr target i k) \/
     ((exists i, reaches arr target i (Z.to_nat r)) /\
      forall i k, reaches arr target i k -> r <= Z.of_nat k)).
Proof. apply smallest_subarray_sum_positive. Qed.

Lemma smallest_subarray_sum_raises_witness :
  smallest_subarray_sum [1; 5] 0 = Raise IndexError.
Proof.
  apply (smallest_subarray_sum_raises [1; 5] 0).
  - repeat constructor; lia.
  - discriminate.
  - lia.
Defined.

Lemma smallest_subarray_sum_shortest_witness :
  exists r, smallest_subarray_sum [2; 3; 1; 2; 4; 3] 7 = Ret r /\
    ((r = 0 /\ forall i k, ~ reaches [2; 3; 1; 2; 4; 3] 7 i k) \/
     ((exists i, reaches [2; 3; 1; 2; 4; 3] 7 i (Z.to_nat r)) /\
      forall i k, reaches [2; 3; 1; 2; 4; 3] 7 i k -> r <= Z.of_nat k)).
Proof.
  apply (smallest_subarray_sum_shortest [2; 3; 1; 2; 4; 3] 7).
  - repeat constructor; lia.
  - lia.
Defined.

End SlidingWindowSpec.
(** ** two_pointers.py *)

Module TwoPointersSpec.
Import TwoPointers.

Example demo_sort_colors : sort_colors [2; 0; 2; 1; 1; 0] = Ret [0; 0; 1; 1; 2; 2].
Proof. reflexivity. Qed.

Lemma py_index_middle {A} (l1 l2 : list A) (x : A) (i : Z) :
  i = Z.of_nat (length l1) -> py_index (l1 ++ x :: l2) i = Ret x.
Proof.
  intros ->. apply py_index_Ret; [lia|].
  rewrite Nat2Z.id. apply list_lookup_middle. done.
Qed.

Lemma py_update_middle {A} (l1 l2 : list A) (x y : A) (i : Z) :
  i = Z.of_nat (length l1) -> py_update (l1 ++ x :: l2) i y = Ret (l1 ++ y :: l2).
Proof.
  intros ->. unfold py_update, py_norm, len.
  rewrite length_app. simpl.
  destruct (decide (Z.of_nat (length l1) < 0)) as [?|_]; [lia|].
  rewrite decide_True by lia.
  rewrite Nat2Z.id.
  replace (length l1) with (length l1 + 0)%nat at 1 by lia.
  by rewrite insert_app_r.
Qed.

Lemma flag_one (a b : nat) (u : list Z) (c : nat) :
  flag a b (1 :: u) c = flag a (S b) u c.
Proof.
  unfold flag. rewrite (replicate_S_end b), <- !app_assoc. done.
Qed.

Lemma flag_zero (a : nat) (u : list Z) (c : nat) :
  flag a 0 (0 :: u) c = flag (S a) 0 u c.
Proof.
  unfold flag. rewrite (replicate_S_end a), <- !app_assoc. done.
Qed.

Lemma flag_two (a b : nat) (u : list Z) (c : nat) :
  flag a b (u ++ [2]) c = flag a b u (S c).
Proof.
  unfold flag. rewrite <- !app_assoc. done.
Qed.

Lemma flag_zero_perm (a b : nat) (u : list Z) (c : nat) :
  flag (S a) b u c ≡ₚ flag a b (0 :: u) c.
Proof. unfold flag. simpl. by rewrite <- !Permutation_middle. Qed.

Lemma flag_current (a b : nat) (x : Z) (u : list Z) (c : nat) :
  py_index (flag a b (x :: u) c) (Z.of_nat (a + b)) = Ret x.
Proof.
  unfold flag. rewrite app_assoc. apply py_index_middle.
  by rewrite length_app, !length_replicate.
Qed.

Lemma flag_update_current (a b : nat) (x z : Z) (u : list Z) (c : nat) :
  py_update (flag a b (x :: u) c) (Z.of_nat (a + b)) z = Ret (flag a b (z :: u) c).
Proof.
  unfold flag. rewrite !app_assoc. simpl.
  rewrite <- (app_assoc _ (x :: u)), <- (app_assoc _ (z :: u)). simpl.
  apply py_update_middle. by rewrite length_app, !length_replicate.
Qed.

Lemma flag_left (a b : nat) (u : list Z) (c : nat) :
  py_index (flag a (S b) u c) (Z.of_nat a) = Ret 1.
Proof. unfold flag. simpl. apply py_index_middle. by rewrite length_replicate. Qed.

Lemma flag_update_left (a b : nat) (u : list Z) (c : nat) :
  py_update (flag a (S b) u c) (Z.of_nat a) 0 = Ret (flag (S a) b u c).
Proof.
  unfold flag. rewrite (replicate_S_end a), <- app_assoc.
  apply (py_update_middle (replicate a 0)). by rewrite length_replicate.
Qed.

Lemma flag_right_split (a b : nat) (x z : Z) (m : list Z) (c : nat) :
  flag a b (x :: m ++ [z]) c
  = ((replicate a 0 ++ replicate b 1) ++ x :: m) ++ z :: replicate c 2.
Proof. unfold flag. rewrite <- !app_assoc. simpl. rewrite <- !app_assoc. done. Qed.

Lemma flag_right_index (a b : nat) (x y : Z) (m : list Z) :
  Z.of_nat (a + b + length (x :: m ++ [y])) - 1
  = Z.of_nat (length ((replicate a (0:Z) ++ replicate b (1:Z)) ++ x :: m)).
Proof. simpl. rewrite !length_app, !length_replicate. simpl. lia. Qed.

Lemma flag_right (a b : nat) (x y : Z) (m : list Z) (c : nat) :
  py_index (flag a b (x :: m ++ [y]) c)
    (Z.of_nat (a + b + length (x :: m ++ [y])) - 1) = Ret y.
Proof.
  rewrite flag_right_split. apply py_index_middle, flag_right_index.
Qed.

Lemma flag_update_right (a b : nat) (x y z : Z) (m : list Z) (c : nat) :
  py_update (flag a b (x :: m ++ [y]) c)
    (Z.of_nat (a + b + length (x :: m ++ [y])) - 1) z
  = Ret (flag a b (x :: m ++ [z]) c).
Proof.
  rewrite !flag_right_split. apply py_update_middle, flag_right_index.
Qed.

Lemma sort_colors_loop_flag (fuel : nat) : forall (a b : nat) (u : list Z) (c : nat),
  (length u < fuel)%nat -> colors u ->
  exists a' b' c',
    sort_colors_loop fuel (flag a b u c) (Z.of_nat a) (Z.of_nat (a + b))
      (Z.of_nat (a + b + length u) - 1)
    = Ret (flag a' b' [] c') /\
    flag a' b' [] c' ≡ₚ flag a b u c.
Proof.
  induction fuel as [|fuel IH]; intros a b u c Hfuel Hu; [lia|].
  destruct u as [|x u].
  { simpl. rewrite decide_False by lia. by exists a, b, c. }
  apply Forall_cons in Hu as [Hx Hu]. simpl in Hfuel.
  cbn [sort_colors_loop].
  rewrite decide_True by (simpl; lia).
  rewrite flag_current. bind_ret.
  destruct (decide (x = 0)) as [->|Hx0]; [|destruct (decide (x = 2)) as [->|Hx2]].
  - (* a zero: exchanged with the first one, if there is a one *)
    destruct b as [|b].
    + (* left = current *)
      pose proof (flag_current a 0 0 u c) as Eread.
      pose proof (flag_update_current a 0 0 0 u c) as Ewrite.
      rewrite !Nat.add_0_r in *.
      rewrite Eread, Ewrite. bind_ret.
      rewrite Ewrite. bind_ret.
      destruct (IH (S a) 0%nat u c ltac:(lia) Hu) as (a' & b' & c' & Hrun & Hperm).
      exists a', b', c'. split.
      * rewrite <- Hrun, flag_zero. f_equal; cbn [length]; lia.
      * rewrite Hperm. apply flag_zero_perm.
    + (* left < current: nums[left] is a one *)
      rewrite flag_left, flag_update_left. bind_ret.
      replace (Z.of_nat (a + S b)) with (Z.of_nat (S a + b)) by lia.
      rewrite flag_update_current. bind_ret.
      destruct (IH (S a) (S b) u c ltac:(lia) Hu) as (a' & b' & c' & Hrun & Hperm).
      exists a', b', c'. split.
      * rewrite <- Hrun, flag_one. f_equal; cbn [length]; lia.
      * rewrite Hperm. apply flag_zero_perm.
  - (* a two: exchanged with the last unexamined element *)
    destruct u as [|y m _] using rev_ind.
    + (* current = right *)
      replace (Z.of_nat (a + b + length [2]) - 1) with (Z.of_nat (a + b))
        by (simpl; lia).
      rewrite flag_current. bind_ret.
      rewrite flag_update_current. bind_ret.
      rewrite flag_update_current. bind_ret.
      destruct (IH a b [] (S c) ltac:(simpl; lia) ltac:(constructor))
        as (a' & b' & c' & Hrun & Hperm).
      exists a', b', c'. split.
      * rewrite <- Hrun, <- flag_two. f_equal; cbn [length]; lia.
      * rewrite Hperm, <- flag_two. done.
    + (* current < right *)
      rewrite length_app in Hfuel. simpl in Hfuel.
      apply Forall_app in Hu as [Hm Hy].
      rewrite flag_right. bind_ret.
      rewrite flag_update_current. bind_ret.
      replace (length (2 :: m ++ [y])) with (length (y :: m ++ [y])) by done.
      rewrite flag_update_right. bind_ret.
      destruct (IH a b (y :: m) (S c) ltac:(simpl; lia)
                  ltac:(apply Forall_cons; split; [by inversion Hy|done]))
        as (a' & b' & c' & Hrun & Hperm).
      exists a', b', c'. split.
      * rewrite <- Hrun, <- flag_two. f_equal.
        cbn [length]. rewrite length_app. cbn [length]. lia.
      * rewrite Hperm, <- flag_two. unfold flag.
        do 2 apply Permutation_app_head. apply Permutation_app_tail.
        simpl. rewrite <- !Permutation_middle. apply Permutation_swap.
  - (* a one *)
    assert (x = 1) as -> by lia.
    destruct (IH a (S b) u c ltac:(lia) Hu) as (a' & b' & c' & Hrun & Hperm).
    exists a', b', c'. split.
    + rewrite <- Hrun, flag_one. f_equal; cbn [length]; lia.
    + rewrite Hperm, flag_one. done.
Qed.

Lemma StronglySorted_replicate (n : nat) (x : Z) :
  StronglySorted Z.le (replicate n x).
Proof.
  induction n as [|n IH]; simpl; constructor; [done|].
  apply Forall_replicate. lia.
Qed.

Lemma flag_done_sorted (a b c : nat) : StronglySorted Z.le (flag a b [] c).
Proof.
  unfold flag. simpl.
  apply StronglySorted_app_2; [|apply StronglySorted_replicate|].
  - intros x y Hx%elem_of_replicate_inv Hy%elem_of_app. subst x.
    destruct Hy as [Hy%elem_of_replicate_inv|Hy%elem_of_replicate_inv]; lia.
  - apply StronglySorted_app_2; try apply StronglySorted_replicate.
    intros x y Hx%elem_of_replicate_inv Hy%elem_of_replicate_inv. lia.
Qed.

Lemma sort_colors_flag (nums : list Z) :
  colors nums ->
  exists a b c, sort_colors nums = Ret (flag a b [] c) /\ flag a b [] c ≡ₚ nums.
Proof.
  intros Hc.
  destruct (sort_colors_loop_flag (S (length nums)) 0 0 nums 0 ltac:(lia) Hc)
    as (a & b & c & Hrun & Hperm).
  assert (flag 0 0 nums 0 = nums) as E by (unfold flag; simpl; apply app_nil_r).
  rewrite E in Hrun, Hperm.
  exists a, b, c. split; [|done].
  unfold sort_colors, len. rewrite <- Hrun. f_equal.
Qed.

(** C8.  On a list over {0, 1, 2}, [sort_colors] leaves a non-decreasing
    list over {0, 1, 2} with the same multiset of values as the input, and
    sorting that list again leaves it unchanged. *)
Theorem sort_colors_sorts (nums : list Z) :
  colors nums ->
  exists out,
    sort_colors nums = Ret out /\
    is_sorted out = true /\ colors out /\ out ≡ₚ nums /\
    sort_colors out = Ret out.
Proof.
  intros Hc.
  destruct (sort_colors_flag nums Hc) as (a & b & c & Hrun & Hperm).
  assert (colors (flag a b [] c)) as Hc'.
  { unfold colors. by rewrite Hperm. }
  exists (flag a b [] c). split; [done|].
  split; [apply is_sorted_StronglySorted, flag_done_sorted|].
  split; [done|]. split; [done|].
  destruct (sort_colors_flag _ Hc') as (a' & b' & c' & Hrun' & Hperm').
  rewrite Hrun'. f_equal.
  apply (StronglySorted_unique Z.le); auto using flag_done_sorted.
Qed.

Lemma sort_colors_sorts_witness :
  exists out,
    sort_colors [2; 0; 2; 1; 1; 0] = Ret out /\
    is_sorted out = true /\ colors out /\ out ≡ₚ [2; 0; 2; 1; 1; 0] /\
    sort_colors out = Ret out.
Proof.
  apply (sort_colors_sorts [2; 0; 2; 1; 1; 0]).
  unfold colors. repeat constructor; lia.
Defined.


(** *** Two numbers with a given sum *)

Lemma two_sum_sorted_loop_spec (arr : list Z) (target : Z) (fuel : nat) :
  sorted_at arr ->
  forall left right : Z,
    0 <= left -> right < len arr -> Z.max 0 (right - left) < Z.of_nat fuel ->
    (forall (i j : nat) x y, (i < j)%nat -> arr !! i = Some x -> arr !! j = Some y ->
       x + y = target -> left <= Z.of_nat i /\ Z.of_nat j <= right) ->
    exists res, two_sum_sorted_loop fuel arr target left right = Ret res /\
      ((exists (l r : nat) x y, res = [Z.of_nat l; Z.of_nat r] /\ (l < r)%nat /\
          arr !! l = Some x /\ arr !! r = Some y /\ x + y = target) \/
       (res = [-1; -1] /\
        forall (i j : nat) x y, (i < j)%nat -> arr !! i = Some x ->
          arr !! j = Some y -> x + y <> target)).
Proof.
  intros Hsorted.
  induction fuel as [|fuel IH]; intros left right Hl Hr Hfuel Hwindow; [lia|].
  cbn [two_sum_sorted_loop].
  destruct (decide (left < right)) as [Hlt|Hge].
  - destruct (py_index_in_range arr left ltac:(lia)) as [a [Ha ->]]. bind_ret.
    destruct (py_index_in_range arr right ltac:(lia)) as [b [Hb ->]]. bind_ret.
    destruct (decide (a + b = target)) as [Hsum|Hne].
    { exists [left; right]. split; [done|]. left.
      exists (Z.to_nat left), (Z.to_nat right), a, b.
      rewrite !Z2Nat.id by lia. split; [done|]. split; [lia|done]. }
    destruct (decide (a + b < target)) as [Hless|Hmore].
    + apply IH; [lia..|]. intros i j x y Hij Hx Hy Hxy.
      destruct (Hwindow i j x y Hij Hx Hy Hxy) as [Hi Hj]. split; [|done].
      destruct (decide (Z.of_nat i = left)) as [Heq|]; [exfalso|lia].
      assert (x = a) as -> by (rewrite <- Heq, Nat2Z.id in Ha; congruence).
      pose proof (Hsorted j (Z.to_nat right) y b ltac:(lia) Hy Hb). lia.
    + apply IH; [lia..|]. intros i j x y Hij Hx Hy Hxy.
      destruct (Hwindow i j x y Hij Hx Hy Hxy) as [Hi Hj]. split; [done|].
      destruct (decide (Z.of_nat j = right)) as [Heq|]; [exfalso|lia].
      assert (y = b) as -> by (rewrite <- Heq, Nat2Z.id in Hb; congruence).
      pose proof (Hsorted (Z.to_nat left) i a x ltac:(lia) Ha Hx). lia.
  - exists [-1; -1]. split; [done|]. right. split; [done|].
    intros i j x y Hij Hx Hy Hxy.
    destruct (Hwindow i j x y Hij Hx Hy Hxy). lia.
Qed.

(** X19.  On a sorted list, [two_sum_sorted] returns the indices of two
    different positions whose values add up to the target when there are
    such positions, and [[-1, -1]] when there are none. *)
Theorem two_sum_sorted_finds (arr : list Z) (target : Z) :
  is_sorted arr = true ->
  exists res, two_sum_sorted arr target = Ret res /\
    ((exists (l r : nat) x y, res = [Z.of_nat l; Z.of_nat r] /\ (l < r)%nat /\
        arr !! l = Some x /\ arr !! r = Some y /\ x + y = target) \/
     (res = [-1; -1] /\
      forall (i j : nat) x y, (i < j)%nat -> arr !! i = Some x ->
        arr !! j = Some y -> x + y <> target)).
Proof.
  intros Hsorted%is_sorted_sorted_at.
  apply two_sum_sorted_loop_spec; [done|unfold len; lia..|].
  intros i j x y Hij Hx Hy _. apply lookup_lt_Some in Hy. unfold len. lia.
Qed.

Lemma two_sum_sorted_finds_witness :
  exists res, two_sum_sorted [1; 2; 3; 4; 6] 6 = Ret res /\
    ((exists (l r : nat) x y, res = [Z.of_nat l; Z.of_nat r] /\ (l < r)%nat /\
        [1; 2; 3; 4; 6] !! l = Some x /\ [1; 2; 3; 4; 6] !! r = Some y /\
        x + y = 6) \/
     (res = [-1; -1] /\
      forall (i j : nat) x y, (i < j)%nat -> [1; 2; 3; 4; 6] !! i = Some x ->
        [1; 2; 3; 4; 6] !! j = Some y -> x + y <> 6)).
Proof. apply (two_sum_sorted_finds [1; 2; 3; 4; 6] 6). reflexivity. Defined.

(** *** The widest container *)

Lemma max_area_loop_spec (height : list Z) (fuel : nat) :
  forall left right m : Z,
    0 <= left -> right < len height -> Z.max 0 (right - left) < Z.of_nat fuel ->
    0 <= m ->
    (forall i j : nat, (i < j < length height)%nat ->
       Z.of_nat i < left \/ right < Z.of_nat j -> area height i j <= m) ->
    (m = 0 \/ exists i j : nat, (i < j < length height)%nat /\ area height i j = m) ->
    exists r, max_area_loop fuel height left right m = Ret r /\ 0 <= r /\
      (forall i j : nat, (i < j < length height)%nat -> area height i j <= r) /\
      (r = 0 \/ exists i j : nat, (i < j < length height)%nat /\ area height i j = r).
Proof.
  induction fuel as [|fuel IH]; intros left right m Hl Hr Hfuel Hm Hout Hwit; [lia|].
  cbn [max_area_loop].
  destruct (decide (left < right)) as [Hlt|Hge].
  - destruct (py_index_in_range height left ltac:(lia)) as [a [Ha ->]]. bind_ret.
    destruct (py_index_in_range height right ltac:(lia)) as [b [Hb ->]]. bind_ret.
    set (cur := Z.min a b * (right - left)).
    assert (area height (Z.to_nat left) (Z.to_nat right) = cur) as Hcur.
    { unfold area, cur. rewrite Ha, Hb. simpl. by rewrite !Z2Nat.id by lia. }
    assert (Z.max m cur = 0 \/
            exists i j : nat, (i < j < length height)%nat /\
                              area height i j = Z.max m cur) as Hwit'.
    { destruct (Z.max_spec m cur) as [[_ ->]|[_ ->]]; [|done].
      right. exists (Z.to_nat left), (Z.to_nat right).
      split; [unfold len in Hr; lia|done]. }
    destruct (decide (a < b)) as [Hab|Hab].
    + apply IH; [lia..| |done]. intros i j Hij Hside.
      destruct (decide (Z.of_nat i < left \/ right < Z.of_nat j)) as [Hold|Hnew].
      { pose proof (Hout i j Hij Hold). lia. }
      assert (Z.of_nat i = left) as Hi by lia.
      destruct (lookup_lt_is_Some_2 height j ltac:(lia)) as [y Hy].
      unfold area. rewrite <- Hi, Nat2Z.id in Ha. rewrite Ha, Hy. simpl.
      assert (cur = a * (right - left)) as Hcur' by (unfold cur; f_equal; lia).
      destruct (decide (a < 0)) as [Hneg|Hpos]; [|nia].
      assert (Z.min a y * (Z.of_nat j - Z.of_nat i) <= 0) by nia. lia.
    + apply IH; [lia..| |done]. intros i j Hij Hside.
      destruct (decide (Z.of_nat i < left \/ right < Z.of_nat j)) as [Hold|Hnew].
      { pose proof (Hout i j Hij Hold). lia. }
      assert (Z.of_nat j = right) as Hj by lia.
      destruct (lookup_lt_is_Some_2 height i ltac:(lia)) as [x Hx].
      unfold area. rewrite <- Hj, Nat2Z.id in Hb. rewrite Hx, Hb. simpl.
      assert (cur = b * (right - left)) as Hcur' by (unfold cur; f_equal; lia).
      destruct (decide (b < 0)) as [Hneg|Hpos]; [|nia].
      assert (Z.min x b * (Z.of_nat j - Z.of_nat i) <= 0) by nia. lia.
  - exists m. split; [done|]. split; [done|]. split; [|done].
    intros i j Hij. apply Hout; [done|]. lia.
Qed.

(** X20.  [max_area] returns the greatest area between two lines of the
    list, or 0 when no pair of lines has a positive area (in particular on
    a list with fewer than two lines). *)
Theorem max_area_greatest (height : list Z) :
  exists r, max_area height = Ret r /\ 0 <= r /\
    (forall i j : nat, (i < j < length height)%nat -> area height i j <= r) /\
    (r = 0 \/ exists i j : nat, (i < j < length height)%nat /\ area height i j = r).
Proof.
  apply max_area_loop_spec; [unfold len; lia..| |by left].
  intros i j Hij [Hi|Hj]; unfold len in *; lia.
Qed.

(** *** Removing duplicates in place *)

Lemma StronglySorted_lt_snoc (l : list Z) (m x : Z) :
  StronglySorted Z.lt (l ++ [m]) -> m < x -> StronglySorted Z.lt ((l ++ [m]) ++ [x]).
Proof.
  intros Hsorted Hmx. apply StronglySorted_app_2; [|done|repeat constructor].
  intros y z Hy ->%list_elem_of_singleton.
  apply elem_of_app in Hy as [Hy| ->%list_elem_of_singleton]; [|done].
  pose proof (StronglySorted_app_1_elem_of _ _ _ y m Hsorted Hy
                (list_elem_of_here _ _)). lia.
Qed.

Lemma remove_duplicates_loop_spec (todo : list Z) :
  forall (u0 : list Z) (m : Z) (junk : list Z),
    StronglySorted Z.lt (u0 ++ [m]) -> StronglySorted Z.le (m :: todo) ->
    exists u0' m' junk',
      remove_duplicates_loop (seqZ (len ((u0 ++ [m]) ++ junk)) (len todo))
        ((u0 ++ [m]) ++ junk ++ todo) (len u0)
      = Ret ((u0' ++ [m']) ++ junk', len u0') /\
      StronglySorted Z.lt (u0' ++ [m']) /\
      (forall x, x ∈ u0' ++ [m'] <-> x ∈ u0 ++ [m] \/ x ∈ todo) /\
      length ((u0' ++ [m']) ++ junk') = length ((u0 ++ [m]) ++ junk ++ todo).
Proof.
  induction todo as [|x todo IH]; intros u0 m junk Hlt Hle.
  - exists u0, m, junk. rewrite app_nil_r. split; [done|]. split; [done|].
    split; [|done]. intros x. rewrite elem_of_nil. tauto.
  - rewrite seqZ_cons by (unfold len; simpl; lia). cbn [remove_duplicates_loop].
    replace (Z.pred (len (x :: todo))) with (len todo) by (unfold len; simpl; lia).
    apply StronglySorted_cons in Hle as [Hmx Hle'].
    apply Forall_cons in Hmx as [Hmx Hmtodo].
    apply StronglySorted_cons in Hle' as [Hxtodo Htodo].
    assert (StronglySorted Z.le (m :: todo)) as Hle_m by (by constructor).
    assert (StronglySorted Z.le (x :: todo)) as Hle_x by (by constructor).
    remember ((u0 ++ [m]) ++ junk ++ x :: todo) as arr eqn:Harr.
    assert (py_index arr (len ((u0 ++ [m]) ++ junk)) = Ret x) as Hfast.
    { subst arr. rewrite (app_assoc _ junk (x :: todo)). by apply py_index_middle. }
    assert (py_index arr (len u0) = Ret m) as Hslow.
    { subst arr. rewrite <- (app_assoc u0 [m]). by apply py_index_middle. }
    rewrite Hfast. bind_ret. rewrite Hslow. bind_ret.
    destruct (decide (x <> m)) as [Hne|Heq].
    + assert (exists junk1,
                py_update arr (len u0 + 1) x
                = Ret (((u0 ++ [m]) ++ [x]) ++ junk1 ++ todo) /\
                length junk1 = length junk) as (junk1 & -> & Hjunk1).
      { subst arr. destruct junk as [|y junk].
        - exists []. split; [|done].
          change ((u0 ++ [m]) ++ [] ++ x :: todo) with ((u0 ++ [m]) ++ x :: todo).
          rewrite (py_update_middle (u0 ++ [m]) todo x x)
            by (unfold len; rewrite length_app; simpl; lia).
          by rewrite <- (app_assoc _ [x]).
        - exists (junk ++ [x]). split; [|rewrite length_app; simpl; lia].
          change ((u0 ++ [m]) ++ (y :: junk) ++ x :: todo)
            with ((u0 ++ [m]) ++ y :: (junk ++ x :: todo)).
          rewrite (py_update_middle (u0 ++ [m]) _ y x)
            by (unfold len; rewrite length_app; simpl; lia).
          by rewrite <- !app_assoc. }
      bind_ret.
      destruct (IH (u0 ++ [m]) x junk1) as (u0' & m' & junk' & Hrun & Hlt' & Hin & Hlen).
      { apply StronglySorted_lt_snoc; [done|lia]. }
      { done. }
      exists u0', m', junk'.
      replace (Z.succ (len ((u0 ++ [m]) ++ junk)))
        with (len (((u0 ++ [m]) ++ [x]) ++ junk1))
        by (unfold len; rewrite !length_app; simpl; lia).
      replace (len u0 + 1) with (len (u0 ++ [m]))
        by (unfold len; rewrite length_app; simpl; lia).
      rewrite Hrun. split; [done|]. split; [done|]. split.
      * intros z. rewrite Hin, !elem_of_app, !elem_of_cons, !elem_of_nil. tauto.
      * rewrite Hlen. subst arr. rewrite !length_app. simpl. lia.
    + assert (x = m) as -> by (destruct (decide (x = m)); [done|tauto]).
      destruct (IH u0 m (junk ++ [m])) as (u0' & m' & junk' & Hrun & Hlt' & Hin & Hlen);
        [done..|].
      exists u0', m', junk'.
      replace (Z.succ (len ((u0 ++ [m]) ++ junk)))
        with (len ((u0 ++ [m]) ++ junk ++ [m]))
        by (unfold len; rewrite !length_app; simpl; lia).
      replace arr with ((u0 ++ [m]) ++ (junk ++ [m]) ++ todo)
        by (subst arr; by rewrite <- !app_assoc).
      rewrite Hrun. split; [done|]. split; [done|]. split.
      * intros z. rewrite Hin, !elem_of_app, !elem_of_cons, !elem_of_nil. tauto.
      * rewrite Hlen. subst arr. rewrite !length_app. simpl. lia.
Qed.

(** X21.  On a sorted list, [remove_duplicates] returns the number [k] of
    different values, and leaves a list of the same length whose first [k]
    cells hold these values in increasing order. *)
Theorem remove_duplicates_sorted (arr : list Z) :
  is_sorted arr = true ->
  exists uniq junk,
    remove_duplicates arr = Ret (uniq ++ junk, len uniq) /\
    length (uniq ++ junk) = length arr /\
    StronglySorted Z.lt uniq /\
    forall x, x ∈ uniq <-> x ∈ arr.
Proof.
  intros Hsorted%is_sorted_StronglySorted.
  destruct arr as [|a rest].
  { exists [], []. split; [done|]. split; [done|]. split; [constructor|done]. }
  destruct (remove_duplicates_loop_spec rest [] a [])
    as (u0 & m & junk & Hrun & Hlt & Hin & Hlen); [repeat constructor|done|].
  exists (u0 ++ [m]), junk. unfold remove_duplicates.
  change (([] ++ [a]) ++ [] ++ rest) with (a :: rest) in *.
  change (len (([] ++ [a]) ++ [])) with 1 in Hrun.
  replace (len (a :: rest) - 1) with (len rest) by (unfold len; simpl; lia).
  change (len []) with 0 in Hrun. rewrite Hrun. bind_ret.
  split; [|split; [done|split; [done|]]].
  - do 2 f_equal. unfold len. rewrite length_app. simpl. lia.
  - intros x. rewrite Hin. simpl. rewrite !elem_of_cons, elem_of_nil. tauto.
Qed.

Lemma remove_duplicates_sorted_witness :
  exists uniq junk,
    remove_duplicates [1; 1; 2; 2; 3; 4; 4] = Ret (uniq ++ junk, len uniq) /\
    length (uniq ++ junk) = length [1; 1; 2; 2; 3; 4; 4] /\
    StronglySorted Z.lt uniq /\
    forall x, x ∈ uniq <-> x ∈ [1; 1; 2; 2; 3; 4; 4].
Proof. apply (remove_duplicates_sorted [1; 1; 2; 2; 3; 4; 4]). reflexivity. Defined.

End TwoPointersSpec.
(** ** subsets_backtracking.py *)

Module SubsetsBacktrackingSpec.
Import SubsetsBacktracking.

Lemma py_update_in_range {A} (l : list A) (i : Z) (x : A) :
  0 <= i < len l -> py_update l i x = Ret (<[Z.to_nat i := x]> l).
Proof.
  intros Hi. unfold py_update, py_norm.
  destruct (decide (i < 0)) as [?|_]; [lia|]. by rewrite decide_True.
Qed.

Section board.
Variables rows cols : Z.

Lemma get_in_range (board : board_t) (row col : Z) :
  shaped rows cols board -> 0 <= row < rows -> 0 <= col < cols ->
  exists r x, board !! Z.to_nat row = Some r /\ r !! Z.to_nat col = Some x /\
              get row col board = (board, Ret x).
Proof.
  intros [Hrows Hcols] Hrow Hcol. unfold get.
  destruct (py_index_in_range board row ltac:(lia)) as [r [Hr ->]].
  assert (len r = cols) as Hlen.
  { eapply (proj1 (Forall_lookup _ _) Hcols); eauto. }
  destruct (py_index_in_range r col ltac:(lia)) as [x [Hx Hget]].
  exists r, x. bind_ret. by rewrite Hget.
Qed.

Lemma set_in_range (board : board_t) (row col : Z) (r : list ascii) (x : ascii) :
  shaped rows cols board -> 0 <= row < rows -> 0 <= col < cols ->
  board !! Z.to_nat row = Some r ->
  set row col x board
  = (<[Z.to_nat row := <[Z.to_nat col := x]> r]> board, Ret ()) /\
  shaped rows cols (<[Z.to_nat row := <[Z.to_nat col := x]> r]> board).
Proof.
  intros [Hrows Hcols] Hrow Hcol Hr. unfold set.
  rewrite (py_index_Ret board row r) by (lia || done).
  assert (len r = cols) as Hlen.
  { eapply (proj1 (Forall_lookup _ _) Hcols); eauto. }
  bind_ret.
  rewrite py_update_in_range by lia. bind_ret.
  rewrite py_update_in_range by lia.
  split; [done|]. split.
  - unfold len in *. by rewrite length_insert.
  - apply Forall_insert; [done|]. unfold len in *. by rewrite length_insert.
Qed.

(** Un-choose undoes choose: writing the saved character back gives the
    board as it was before the cell was marked. *)
Lemma mark_restore (board : board_t) (i j : nat) (r : list ascii) (x m : ascii) :
  board !! i = Some r -> r !! j = Some x ->
  <[i := <[j := x]> (<[j := m]> r)]> (<[i := <[j := m]> r]> board) = board.
Proof.
  intros Hr Hx.
  rewrite !list_insert_insert_eq.
  rewrite (list_insert_id r j x Hx).
  by apply list_insert_id.
Qed.

(** One step of a sequence of calls on the board. *)
Lemma bind_on_board {A B} (m : on_board A) (k : A -> on_board B)
    (board board' : board_t) (a : A) :
  m board = (board', Ret a) -> (x ← m; k x) board = k a board'.
Proof. intros Hm. unfold mbind, on_board_bind. by rewrite Hm. Qed.

Lemma or_else_restores (a b : on_board bool) (board : board_t) :
  restores board (a board) -> restores board (b board) ->
  restores board (or_else a b board).
Proof.
  unfold or_else, mbind, on_board_bind.
  destruct (a board) as [board1 [[]|e|]]; simpl; try done.
  by intros ->.
Qed.

Lemma or_else_returns (a b : on_board bool) (board : board_t) :
  (exists found, a board = (board, Ret found)) ->
  (exists found, b board = (board, Ret found)) ->
  exists found, or_else a b board = (board, Ret found).
Proof.
  intros [fa Ha] [fb Hb]. unfold or_else. rewrite (bind_on_board _ _ _ _ _ Ha).
  destruct fa; [by exists true|by exists fb].
Qed.

(** A call of [backtrack] that returns gives back the board it was given,
    and nothing but the depth of the recursion makes a call raise; a call
    with more frames than the rest of the word has letters returns. *)
Lemma backtrack_restores (frames : nat) :
  forall (w : list ascii) (board : board_t) (row col : Z),
    shaped rows cols board ->
    restores board (backtrack frames rows cols w row col board) /\
    ((length w < frames)%nat ->
     exists found, backtrack frames rows cols w row col board = (board, Ret found)).
Proof.
  induction frames as [|frames IH]; intros w board row col Hshape.
  { split; [done|lia]. }
  cbn [backtrack]. destruct w as [|ch w'].
  { split; [done|]. by exists true. }
  destruct (decide (row < 0 \/ row >= rows \/ col < 0 \/ col >= cols)) as [|Hin].
  { split; [done|]. by exists false. }
  destruct (get_in_range board row col Hshape ltac:(lia) ltac:(lia))
    as (r & x & Hr & Hx & Hget).
  rewrite (bind_on_board _ _ _ _ _ Hget).
  destruct (decide (x <> ch)) as [|_]; [split; [done|]; by exists false|].
  rewrite (bind_on_board _ _ _ _ _ Hget).
  destruct (set_in_range board row col r marker Hshape ltac:(lia) ltac:(lia) Hr)
    as [Hset Hshape1].
  rewrite (bind_on_board _ _ _ _ _ Hset).
  set (board1 := <[Z.to_nat row := <[Z.to_nat col := marker]> r]> board) in *.
  assert (board1 !! Z.to_nat row = Some (<[Z.to_nat col := marker]> r)) as Hr1.
  { apply list_lookup_insert_eq. by eapply lookup_lt_Some. }
  destruct (set_in_range board1 row col _ x Hshape1 ltac:(lia) ltac:(lia) Hr1)
    as [Hunset _].
  unfold board1 in Hunset at 2. rewrite (mark_restore board _ _ r x marker) in Hunset
    by done.
  set (search :=
         or_else (backtrack frames rows cols w' (row + 1) col)
           (or_else (backtrack frames rows cols w' (row - 1) col)
              (or_else (backtrack frames rows cols w' row (col + 1))
                 (backtrack frames rows cols w' row (col - 1))))).
  assert (restores board1 (search board1)) as Hsearch.
  { repeat apply or_else_restores; by apply IH. }
  split.
  - unfold mbind at 1, on_board_bind.
    destruct (search board1) as [board2 [found|e|]]; simpl in Hsearch; try done.
    subst board2. by rewrite (bind_on_board _ _ _ _ _ Hunset).
  - simpl. intros Hlen.
    assert (exists found, search board1 = (board1, Ret found)) as [found Hfound].
    { repeat apply or_else_returns; apply IH; (done || lia). }
    rewrite (bind_on_board _ _ _ _ _ Hfound), (bind_on_board _ _ _ _ _ Hunset).
    by exists found.
Qed.

Lemma scan_cols_restores (frames : nat) (word : list ascii) (board : board_t)
    (i : Z) (range : list Z) :
  shaped rows cols board ->
  restores board (scan_cols frames rows cols word i range board) /\
  ((length word < frames)%nat ->
   exists found, scan_cols frames rows cols word i range board = (board, Ret found)).
Proof.
  intros Hshape. induction range as [|j range [IH1 IH2]].
  { split; [done|]. by exists false. }
  cbn [scan_cols].
  destruct (backtrack_restores frames word board i j Hshape) as [H1 H2]. split.
  - unfold mbind, on_board_bind.
    destruct (backtrack frames rows cols word i j board) as [board1 [[]|e|]];
      simpl in H1; try done; by subst board1.
  - intros Hlen. destruct (H2 Hlen) as [found Hfound].
    rewrite (bind_on_board _ _ _ _ _ Hfound).
    destruct found; [by exists true|by apply IH2].
Qed.

Lemma scan_rows_restores (frames : nat) (word : list ascii) (board : board_t)
    (range : list Z) :
  shaped rows cols board ->
  restores board (scan_rows frames rows cols word range board) /\
  ((length word < frames)%nat ->
   exists found, scan_rows frames rows cols word range board = (board, Ret found)).
Proof.
  intros Hshape. induction range as [|i range [IH1 IH2]].
  { split; [done|]. by exists false. }
  cbn [scan_rows].
  destruct (scan_cols_restores frames word board i (seqZ 0 cols) Hshape)
    as [H1 H2]. split.
  - unfold mbind, on_board_bind.
    destruct (scan_cols frames rows cols word i (seqZ 0 cols) board)
      as [board1 [[]|e|]]; simpl in H1; try done; by subst board1.
  - intros Hlen. destruct (H2 Hlen) as [found Hfound].
    rewrite (bind_on_board _ _ _ _ _ Hfound).
    destruct found; [by exists true|by apply IH2].
Qed.

End board.

Lemma word_search_restores (frames : nat) (board : board_t) (word : list ascii) :
  rectangular board ->
  restores board (word_search frames board word) /\
  ((length word + 1 < frames)%nat ->
   exists found, word_search frames board word = (board, Ret found)).
Proof.
  intros (row0 & Hrow0 & Hshape). unfold word_search.
  destruct frames as [|frames]; [split; [done|lia]|].
  rewrite (py_index_Ret board 0 row0) by (lia || done).
  destruct (scan_rows_restores (len board) (len row0) frames word board
              (seqZ 0 (len board)) Hshape) as [H1 H2].
  split; [done|]. intros Hlen. apply H2. lia.
Qed.

(** C9.  On a rectangular board, whenever [word_search] returns (true or
    false), the board it leaves is the board it was given: every cell that
    [backtrack] overwrote with ['#'] has its character back, whether the
    branch failed or succeeded early.  The call returns when there are two
    more frames than the word has letters, and a call that does not return
    raises [RecursionError]. *)
Theorem word_search_restores_board (frames : nat) (board : board_t)
    (word : list ascii) :
  rectangular board ->
  (forall board' found,
     word_search frames board word = (board', Ret found) -> board' = board) /\
  (forall board' e,
     word_search frames board word = (board', Raise e) -> e = RecursionError) /\
  (word_search frames board word).2 <> OutOfFuel /\
  ((length word + 1 < frames)%nat ->
   exists found, word_search frames board word = (board, Ret found)).
Proof.
  intros Hrect.
  destruct (word_search_restores frames board word Hrect) as [Hres Hret].
  unfold restores in Hres.
  destruct (word_search frames board word) as [board1 [found|e|]]; [| |done].
  - split; [|split; [|split]]; [congruence|congruence|done|done].
  - split; [|split; [|split]]; [congruence|congruence|done|done].
Qed.

Example demo_word_search :
  word_search recursion_limit demo_board ["A"; "B"; "C"; "C"; "E"; "D"]%char
  = (demo_board, Ret true).
Proof. vm_compute. reflexivity. Qed.

Lemma word_search_restores_board_witness :
  exists found,
    word_search recursion_limit demo_board ["A"; "B"; "C"; "C"; "E"; "D"]%char
    = (demo_board, Ret found).
Proof.
  destruct (word_search_restores_board recursion_limit demo_board
              ["A"; "B"; "C"; "C"; "E"; "D"]%char) as (_ & _ & _ & Hreturns).
  - exists ["A"; "B"; "C"; "E"]%char. split; [reflexivity|].
    split; [reflexivity|]. repeat constructor.
  - apply Hreturns. vm_compute. lia.
Defined.

(** A board of 40 rows of 40 letters ["A"] and a word of 1200 letters ["A"]:
    the search follows the word through the board until no frame is left,
    and the cells it has marked on its way stay marked. *)
Example word_search_deep :
  let r := word_search recursion_limit (replicate 40 (replicate 40 "A"%char))
             (replicate 1200 "A"%char) in
  r.2 = Raise RecursionError /\ marked r.1 = 999%nat.
Proof. vm_compute. done. Qed.


(** *** All subsets *)


Section subsets.
Variable nums : list Z.



End subsets.







(** *** All permutations *)

Section permute.
Variable nums : list Z.






End permute.



End SubsetsBacktrackingSpec.
(** ** merge_intervals.py *)

Module MergeIntervalsSpec.
Import MergeIntervals.

Example test_merge_1 :
  merge_fresh [(1, 3); (2, 6); (8, 10); (15, 18)] = Ret [(1, 6); (8, 10); (15, 18)].
Proof. reflexivity. Qed.
Example test_merge_2 : merge_fresh [(1, 4); (4, 5)] = Ret [(1, 5)].
Proof. reflexivity. Qed.
Example test_merge_3 : merge_fresh [(1, 4); (0, 4)] = Ret [(0, 4)].
Proof. reflexivity. Qed.
Example test_merge_4 : merge_fresh [(1, 4); (2, 3)] = Ret [(1, 4)].
Proof. reflexivity. Qed.

(** *** Sorting *)

Section sort.
Context {A : Type} (key : A -> Z).

Lemma insert_by_Permutation (x : A) (l : list A) : insert_by key x l ≡ₚ x :: l.
Proof.
  induction l as [|y l IH]; simpl; [done|].
  case_decide; [done|]. rewrite IH. apply Permutation_swap.
Qed.

Lemma sort_by_Permutation (l : list A) : sort_by key l ≡ₚ l.
Proof.
  induction l as [|x l IH]; simpl; [done|].
  by rewrite insert_by_Permutation, IH.
Qed.

Lemma ascending_tail (x : A) (l : list A) : ascending key (x :: l) -> ascending key l.
Proof. intros H i j a b Hij Ha Hb. apply (H (S i) (S j) a b); [lia|done..]. Qed.

(** A stable sort leaves a sorted list as it is. *)
Lemma sort_by_ascending (l : list A) : ascending key l -> sort_by key l = l.
Proof.
  induction l as [|x l IH]; intros Hl; simpl; [done|].
  fold (sort_by key l). rewrite (IH (ascending_tail _ _ Hl)).
  destruct l as [|y l]; simpl; [done|].
  rewrite decide_True; [done|].
  apply (Hl 0%nat 1%nat x y); [lia|done..].
Qed.

End sort.

(** *** The merged list

    The intervals of [merged] are pairwise apart: each one ends before the
    next one starts. *)

Lemma py_index_last {A} (l : list A) (x : A) : py_index (l ++ [x]) (-1) = Ret x.
Proof.
  unfold py_index, py_norm, len. rewrite length_app. simpl.
  destruct (decide _) as [_|?]; [|lia].
  replace (Z.to_nat (-1 + Z.of_nat (length l + 1))) with (length l) by lia.
  by rewrite list_lookup_middle.
Qed.

Lemma start_of_set_end (h : store) (x y : ref) (e : Z) :
  start_of (set_end h x e) y = start_of h y.
Proof.
  unfold start_of, set_end. destruct (decide (x = y)) as [->|Hne].
  - by rewrite fn_lookup_insert.
  - by rewrite fn_lookup_insert_ne.
Qed.

Lemma end_of_set_end (h : store) (x : ref) (e : Z) : end_of (set_end h x e) x = e.
Proof. unfold end_of, set_end. by rewrite fn_lookup_insert. Qed.

Lemma end_of_set_end_ne (h : store) (x y : ref) (e : Z) :
  x <> y -> end_of (set_end h x e) y = end_of h y.
Proof. intros Hne. unfold end_of, set_end. by rewrite fn_lookup_insert_ne. Qed.

(** Absorbing an interval only moves an end to the right. *)
Lemma well_formed_set_end (h : store) (x y : ref) (e : Z) :
  well_formed h x -> well_formed h y ->
  well_formed (set_end h x (Z.max (end_of h x) e)) y.
Proof.
  unfold well_formed. intros Hx Hy. rewrite start_of_set_end.
  destruct (decide (x = y)) as [->|Hne].
  - rewrite end_of_set_end. lia.
  - by rewrite end_of_set_end_ne.
Qed.

Lemma separated_start_lt (h : store) (l : list ref) :
  separated h l -> Forall (well_formed h) l ->
  forall (i j : nat) (a b : ref),
    (i < j)%nat -> l !! i = Some a -> l !! j = Some b ->
    start_of h a < start_of h b.
Proof.
  intros Hsep Hwf i j. revert i.
  induction j as [|j IH]; intros i a b Hij Ha Hb; [lia|].
  destruct (lookup_lt_is_Some_2 l j) as [c Hc].
  { apply lookup_lt_Some in Hb. lia. }
  pose proof (Hsep j c b Hc Hb) as Hcb.
  pose proof (proj1 (Forall_lookup _ _) Hwf j c Hc) as Hwc. unfold well_formed in Hwc.
  destruct (decide (i = j)) as [->|Hne].
  - simplify_eq. lia.
  - pose proof (IH i a c ltac:(lia) Ha Hc). lia.
Qed.

Lemma separated_last_fresh (h : store) (ms : list ref) (x : ref) :
  separated h (ms ++ [x]) -> Forall (well_formed h) (ms ++ [x]) -> x ∉ ms.
Proof.
  intros Hsep Hwf [i Hi]%list_elem_of_lookup.
  pose proof (lookup_lt_Some _ _ _ Hi) as Hlt.
  pose proof (separated_start_lt h _ Hsep Hwf i (length ms) x x Hlt
                (lookup_app_l_Some _ _ _ _ Hi) (list_lookup_middle _ _ _ _ eq_refl)).
  lia.
Qed.

Lemma separated_snoc (h : store) (ms : list ref) (x y : ref) :
  separated h (ms ++ [x]) -> end_of h x < start_of h y ->
  separated h ((ms ++ [x]) ++ [y]).
Proof.
  intros Hsep Hxy i a b Ha Hb.
  assert (S i < length ((ms ++ [x]) ++ [y]))%nat as Hlt
    by (by eapply lookup_lt_Some).
  rewrite !length_app in Hlt. simpl in Hlt.
  destruct (decide (i = length ms)) as [->|Hne].
  - rewrite lookup_app_l in Ha by (rewrite length_app; simpl; lia).
    rewrite list_lookup_middle in Ha by done.
    rewrite (list_lookup_middle (ms ++ [x]) [] y) in Hb
      by (rewrite length_app; simpl; lia).
    by simplify_eq.
  - rewrite lookup_app_l in Ha by (rewrite length_app; simpl; lia).
    rewrite lookup_app_l in Hb by (rewrite length_app; simpl; lia).
    by apply (Hsep i).
Qed.

(** The loop of [merge_intervals] returns, and what it returns is
    separated. *)
Lemma merge_loop_separated (rest : list ref) :
  forall (h : store) (ms : list ref) (x : ref),
    separated h (ms ++ [x]) ->
    Forall (well_formed h) (ms ++ [x]) -> Forall (well_formed h) rest ->
    exists h' ms' x',
      merge_loop h (ms ++ [x]) rest = Ret (h', ms' ++ [x']) /\
      separated h' (ms' ++ [x']) /\ Forall (well_formed h') (ms' ++ [x']).
Proof.
  induction rest as [|current rest IH]; intros h ms x Hsep Hwf Hrest.
  { by exists h, ms, x. }
  apply Forall_cons in Hrest as [Hcur Hrest].
  cbn [merge_loop]. rewrite py_index_last. bind_ret.
  assert (well_formed h x) as Hx.
  { apply (proj1 (Forall_forall _ _) Hwf). set_solver. }
  destruct (decide (start_of h current <= end_of h x)) as [Hov|Hapart].
  - (* absorb [current] into the last merged interval *)
    set (h' := set_end h x (Z.max (end_of h x) (end_of h current))).
    apply IH.
    + pose proof (separated_last_fresh h ms x Hsep Hwf) as Hfresh.
      intros i a b Ha Hb. unfold h'. rewrite start_of_set_end.
      assert (a <> x) as Hax.
      { intros ->. apply Hfresh.
        assert (i < length ms)%nat as Hi.
        { apply lookup_lt_Some in Hb. rewrite length_app in Hb. simpl in Hb. lia. }
        rewrite lookup_app_l in Ha by done.
        by eapply list_elem_of_lookup_2. }
      rewrite end_of_set_end_ne by done. by apply (Hsep i).
    + eapply Forall_impl; [exact Hwf|]. intros y Hy.
      by apply well_formed_set_end.
    + eapply Forall_impl; [exact Hrest|]. intros y Hy.
      by apply well_formed_set_end.
  - (* keep [current] as a new merged interval *)
    apply (IH h (ms ++ [x]) current).
    + apply separated_snoc; [done|lia].
    + apply Forall_app. split; [done|]. by apply Forall_singleton.
    + done.
Qed.

(** On a separated list the loop keeps every interval and writes nothing. *)
Lemma merge_loop_fixed (rest : list ref) :
  forall (h : store) (ms : list ref) (x : ref),
    separated h ((ms ++ [x]) ++ rest) ->
    merge_loop h (ms ++ [x]) rest = Ret (h, (ms ++ [x]) ++ rest).
Proof.
  induction rest as [|current rest IH]; intros h ms x Hsep.
  { by rewrite app_nil_r. }
  cbn [merge_loop]. rewrite py_index_last. bind_ret.
  assert (end_of h x < start_of h current) as Hapart.
  { apply (Hsep (length ms)).
    - rewrite <- app_assoc. by apply list_lookup_middle.
    - apply (list_lookup_middle (ms ++ [x])). rewrite length_app. simpl. lia. }
  rewrite decide_False by lia.
  rewrite (IH h (ms ++ [x]) current).
  - by rewrite <- (app_assoc _ [current]).
  - by rewrite <- (app_assoc _ [current]).
Qed.

Lemma merge_intervals_separated (h : store) (xs : list ref) :
  Forall (well_formed h) xs ->
  exists h1 m1,
    merge_intervals h xs = Ret (h1, sort_by (start_of h) xs, m1) /\
    separated h1 m1 /\ Forall (well_formed h1) m1.
Proof.
  intros Hwf. unfold merge_intervals.
  destruct xs as [|x0 xs0].
  { exists h, []. split; [done|]. split; [|done]. intros i a b Ha. done. }
  set (xs := x0 :: xs0) in *.
  pose proof (sort_by_Permutation (start_of h) xs) as Hperm.
  destruct (sort_by (start_of h) xs) as [|first rest] eqn:Hsorted.
  { apply Permutation_nil in Hperm. done. }
  rewrite (py_index_Ret _ 0 first) by (lia || done).
  bind_ret. rewrite skipn_cons, drop_0.
  assert (Forall (well_formed h) (first :: rest)) as Hwf' by (by rewrite Hperm).
  apply Forall_cons in Hwf' as [Hfirst Hrest].
  destruct (merge_loop_separated rest h [] first) as (h1 & ms & x & Hrun & Hsep & Hwf1).
  { intros i a b Ha Hb. destruct i; done. }
  { by apply Forall_singleton. }
  { done. }
  change ([] ++ [first]) with [first] in Hrun.
  rewrite Hrun. bind_ret.
  by exists h1, (ms ++ [x]).
Qed.

Lemma merge_intervals_fixed (h : store) (m : list ref) :
  separated h m -> Forall (well_formed h) m ->
  merge_intervals h m = Ret (h, m, m).
Proof.
  intros Hsep Hwf. unfold merge_intervals.
  destruct m as [|first rest]; [done|].
  rewrite sort_by_ascending.
  - rewrite (py_index_Ret _ 0 first) by (lia || done).
    bind_ret. rewrite skipn_cons, drop_0.
    pose proof (merge_loop_fixed rest h [] first Hsep) as Hrun.
    change ([] ++ [first]) with [first] in Hrun. by rewrite Hrun.
  - intros i j a b Hij Ha Hb.
    pose proof (separated_start_lt h _ Hsep Hwf i j a b Hij Ha Hb). lia.
Qed.

(** C4.  Merging is idempotent.  For intervals with [start <= end], the
    call returns a list [m1]; merging [m1] again returns a list with the
    same value, and leaves [m1] itself (the argument of the second call,
    sorted in place) with the value it had. *)
Theorem merge_intervals_idempotent (h : store) (xs : list ref) :
  Forall (well_formed h) xs ->
  exists h1 xs1 m1 h2 m1' m2,
    merge_intervals h xs = Ret (h1, xs1, m1) /\
    merge_intervals h1 m1 = Ret (h2, m1', m2) /\
    value h2 m2 = value h1 m1 /\
    value h2 m1' = value h1 m1.
Proof.
  intros Hwf.
  destruct (merge_intervals_separated h xs Hwf) as (h1 & m1 & Hrun & Hsep & Hwf1).
  exists h1, (sort_by (start_of h) xs), m1, h1, m1, m1.
  split; [exact Hrun|]. split; [|done].
  by apply merge_intervals_fixed.
Qed.

Lemma merge_intervals_idempotent_witness :
  exists h1 xs1 m1 h2 m1' m2,
    merge_intervals (fresh [(1, 3); (2, 6); (8, 10); (15, 18)]) [0; 1; 2; 3]%nat
    = Ret (h1, xs1, m1) /\
    merge_intervals h1 m1 = Ret (h2, m1', m2) /\
    value h2 m2 = value h1 m1 /\
    value h2 m1' = value h1 m1.
Proof.
  apply (merge_intervals_idempotent
           (fresh [(1, 3); (2, 6); (8, 10); (15, 18)]) [0; 1; 2; 3]%nat).
  unfold well_formed, start_of, end_of, fresh. repeat constructor; simpl; lia.
Defined.

(** *** Meeting rooms *)

Example test_meeting_rooms_1 : min_meeting_rooms [(0, 30); (5, 10); (15, 20)] = Ret 2.
Proof. reflexivity. Qed.
Example test_meeting_rooms_2 : min_meeting_rooms [(7, 10); (2, 4)] = Ret 1.
Proof. reflexivity. Qed.
Example test_meeting_rooms_3 : min_meeting_rooms [(9, 10); (4, 9); (4, 17)] = Ret 2.
Proof. reflexivity. Qed.

(** Back-to-back meetings share a room: the end equal to a start is
    drained first. *)
Example back_to_back : min_meeting_rooms [(1, 2); (2, 3)] = Ret 1.
Proof. reflexivity. Qed.

(** C3.  A meeting of length zero is an interval with [start <= end]; its
    half-open occupancy is [0] at every time.  On the list that holds only
    this meeting the loop drains the end first, then reads [ends[1]] and
    raises [IndexError]: nothing bounds [end_ptr]. *)
Theorem min_meeting_rooms_zero_length :
  (forall t, occupancy [(5, 5)] t = 0) /\
  min_meeting_rooms [(5, 5)] = Raise IndexError.
Proof.
  split; [|reflexivity].
  intros t. unfold occupancy. simpl.
  rewrite filter_cons_False; [done|]. simpl. lia.
Qed.

(** The same happens behind a meeting of positive length. *)
Example zero_length_at_the_end : min_meeting_rooms [(1, 3); (3, 3)] = Raise IndexError.
Proof. reflexivity. Qed.

(** *** Meetings of positive length

    For meetings with [start < end] the loop never reads past the last
    end, and its result is the greatest number of meetings in progress at
    one time. *)

Lemma insert_by_sorted {A} (key : A -> Z) (x : A) (l : list A) :
  StronglySorted (fun a b => key a <= key b) l ->
  StronglySorted (fun a b => key a <= key b) (insert_by key x l).
Proof.
  induction 1 as [|y l Hl IH Hy]; simpl; [by repeat constructor|].
  destruct (decide (key x <= key y)) as [Hxy|Hyx].
  - constructor; [by constructor|].
    constructor; [done|]. eapply Forall_impl; [exact Hy|]. simpl. lia.
  - constructor; [done|]. rewrite insert_by_Permutation.
    constructor; [lia|done].
Qed.

Lemma sort_by_sorted {A} (key : A -> Z) (l : list A) :
  StronglySorted (fun a b => key a <= key b) (sort_by key l).
Proof.
  induction l as [|x l IH]; simpl; [constructor|]. by apply insert_by_sorted.
Qed.

Lemma filter_none {A} (P : A -> Prop) `{!forall x, Decision (P x)} (l : list A) :
  Forall (fun x => ~ P x) l -> filter P l = [].
Proof.
  induction 1 as [|x l Hx _ IH]; [done|]. by rewrite filter_cons_False.
Qed.

(** In a sorted list, the elements with a downward closed property are a
    prefix. *)
Lemma sorted_prefix (P : Z -> Prop) `{!forall x, Decision (P x)} (l : list Z) :
  (forall x y, x <= y -> P y -> P x) ->
  StronglySorted Z.le l ->
  forall (i : nat) (x : Z),
    l !! i = Some x -> (P x <-> (i < length (filter P l))%nat).
Proof.
  intros Hdown. induction 1 as [|a l Hl IH Ha]; intros i x Hi; [done|].
  destruct (decide (P a)) as [HPa|HPa].
  - rewrite filter_cons_True by done. destruct i as [|i]; simpl in *.
    + simplify_eq. split; [lia|done].
    + rewrite (IH i x Hi). lia.
  - rewrite filter_cons_False by done.
    rewrite filter_none.
    + simpl. split; [|lia]. intros HPx. exfalso. apply HPa.
      destruct i as [|i]; simpl in Hi; [by simplify_eq|].
      apply (Hdown a x); [|done].
      apply (proj1 (Forall_forall _ _) Ha). by eapply list_elem_of_lookup_2.
    + eapply Forall_impl; [exact Ha|]. intros y Hay HPy. apply HPa.
      by apply (Hdown a y).
Qed.

Lemma upto_nonneg (l : list Z) (t : Z) : 0 <= upto l t.
Proof. unfold upto, len. lia. Qed.

Lemma upto_lookup (l : list Z) (i : nat) (x t : Z) :
  StronglySorted Z.le l -> l !! i = Some x ->
  x <= t <-> Z.of_nat i < upto l t.
Proof.
  intros Hl Hi. unfold upto, len.
  assert (forall a b : Z, a <= b -> b <= t -> a <= t) as Hdown by (intros; lia).
  rewrite (sorted_prefix (fun z => z <= t) l Hdown Hl i x Hi). lia.
Qed.

Section rooms.
Variables starts ends : list Z.
Variable n : nat.
Hypothesis starts_length : length starts = n.
Hypothesis ends_length : length ends = n.
Hypothesis starts_sorted : StronglySorted Z.le starts.
Hypothesis ends_sorted : StronglySorted Z.le ends.
Hypothesis start_before_end :
  forall (i : nat) (x y : Z), starts !! i = Some x -> ends !! i = Some y -> x < y.

Lemma rooms_loop_max (fuel : nat) : forall (i j : nat) (max_rooms : Z),
  (j <= i <= n)%nat -> (2 * n - i - j < fuel)%nat ->
  (forall (j' i' : nat) (y x : Z),
     (j' < j)%nat -> ends !! j' = Some y ->
     (i <= i')%nat -> starts !! i' = Some x -> y <= x) ->
  (forall t, upto starts t <= Z.of_nat i -> in_progress starts ends t <= max_rooms) ->
  (i = 0%nat /\ max_rooms = 0) \/ (exists t, max_rooms <= in_progress starts ends t) ->
  exists m,
    rooms_loop fuel (Z.of_nat n) starts ends (Z.of_nat i) (Z.of_nat j)
      (Z.of_nat i - Z.of_nat j) max_rooms = Ret m /\
    (forall t, in_progress starts ends t <= m) /\
    (n = 0%nat \/ exists t, m <= in_progress starts ends t).
Proof.
  induction fuel as [|fuel IH]; intros i j max_rooms Hij Hfuel Hdrained Hmax Hwit;
    [lia|].
  cbn [rooms_loop].
  destruct (decide (Z.of_nat i < Z.of_nat n)) as [Hlt|Hge].
  - destruct (lookup_lt_is_Some_2 starts i ltac:(lia)) as [x Hx].
    destruct (lookup_lt_is_Some_2 ends j ltac:(lia)) as [y Hy].
    rewrite (py_index_Ret starts (Z.of_nat i) x) by (rewrite ?Nat2Z.id; lia || done).
    rewrite (py_index_Ret ends (Z.of_nat j) y) by (rewrite ?Nat2Z.id; lia || done).
    bind_ret.
    destruct (decide (x < y)) as [Hxy|Hyx].
    + (* a meeting starts *)
      assert (Z.of_nat i + 1 - Z.of_nat j <= in_progress starts ends x) as Hhere.
      { unfold in_progress.
        pose proof (proj1 (upto_lookup starts i x x starts_sorted Hx) ltac:(lia)).
        pose proof (upto_lookup ends j y x ends_sorted Hy) as Hends.
        assert (~ Z.of_nat j < upto ends x) by (rewrite <- Hends; lia).
        lia. }
      replace (Z.of_nat i + 1) with (Z.of_nat (S i)) in * by lia.
      replace (Z.of_nat i - Z.of_nat j + 1) with (Z.of_nat (S i) - Z.of_nat j) by lia.
      apply IH; [lia|lia| | |].
      * intros j' i' y' x' Hj' Hy' Hi' Hx'.
        apply (Hdrained j' i' y' x'); [done|done|lia|done].
      * intros t Ht.
        destruct (decide (upto starts t <= Z.of_nat i)) as [Hold|Hnew].
        { specialize (Hmax t Hold). lia. }
        assert (x <= t) as Hxt.
        { apply (upto_lookup starts i x t starts_sorted Hx). lia. }
        assert (Z.of_nat j <= upto ends t) as Hj.
        { destruct j as [|j]; [apply upto_nonneg|].
          destruct (lookup_lt_is_Some_2 ends j ltac:(lia)) as [y' Hy'].
          pose proof (Hdrained j i y' x ltac:(lia) Hy' ltac:(lia) Hx).
          pose proof (proj1 (upto_lookup ends j y' t ends_sorted Hy') ltac:(lia)).
          lia. }
        unfold in_progress. lia.
      * right. destruct Hwit as [[-> ->]|[t Ht]].
        -- exists x. lia.
        -- destruct (decide (Z.of_nat (S i) - Z.of_nat j <= max_rooms)).
           ++ exists t. lia.
           ++ exists x. lia.
    + (* a meeting ends *)
      assert (j <> i) as Hne.
      { intros ->. pose proof (start_before_end i x y Hx Hy). lia. }
      replace (Z.of_nat j + 1) with (Z.of_nat (S j)) by lia.
      replace (Z.of_nat i - Z.of_nat j - 1) with (Z.of_nat i - Z.of_nat (S j)) by lia.
      apply IH; [lia|lia| |done|done].
      intros j' i' y' x' Hj' Hy' Hi' Hx'.
      destruct (decide (j' = j)) as [->|Hjj].
      * simplify_eq.
        pose proof (StronglySorted_sorted_at starts starts_sorted i i' x x' Hi' Hx Hx').
        lia.
      * apply (Hdrained j' i' y' x'); [lia|done..].
  - exists max_rooms. split; [done|]. split.
    + intros t. apply Hmax.
      unfold upto, len.
      pose proof (length_filter (fun x => x <= t) starts). lia.
    + destruct Hwit as [[-> ->]|Hwit]; [left; lia|by right].
Qed.

End rooms.

Lemma upto_Permutation (l l' : list Z) (t : Z) : l ≡ₚ l' -> upto l t = upto l' t.
Proof. intros Hperm. unfold upto, len. by rewrite Hperm. Qed.

Lemma occupancy_upto (intervals : list (Z * Z)) (t : Z) :
  Forall (fun i => i.1 < i.2) intervals ->
  upto (fst <$> intervals) t - upto (snd <$> intervals) t = occupancy intervals t.
Proof.
  unfold upto, occupancy, len.
  induction 1 as [|[s e] l Hse _ IH]; [done|]. simpl in Hse.
  rewrite !fmap_cons. cbn [fst snd].
  destruct (decide (s <= t)) as [Hs|Hs]; destruct (decide (e <= t)) as [He|He];
    try lia.
  - rewrite !(filter_cons_True (fun x => x <= t)) by done.
    rewrite filter_cons_False by (simpl; lia). simpl length. lia.
  - rewrite (filter_cons_True (fun x => x <= t) s) by done.
    rewrite (filter_cons_False (fun x => x <= t) e) by done.
    rewrite filter_cons_True by (simpl; lia). simpl length. lia.
  - rewrite !(filter_cons_False (fun x => x <= t)) by done.
    rewrite filter_cons_False by (simpl; lia). lia.
Qed.

(** At least as many meetings have started before [y] as have ended by
    [y]. *)
Lemma ended_started (intervals : list (Z * Z)) (y : Z) :
  Forall (fun i => i.1 < i.2) intervals ->
  (length (filter (fun x : Z => (x <= y)%Z) (snd <$> intervals))
   <= length (filter (fun x : Z => (x < y)%Z) (fst <$> intervals)))%nat.
Proof.
  induction 1 as [|[s e] l Hse _ IH]; [done|]. simpl in Hse.
  rewrite !fmap_cons. cbn [fst snd].
  destruct (decide (e <= y)) as [He|He].
  - rewrite (filter_cons_True (fun x => x <= y)) by done.
    rewrite (filter_cons_True (fun x => x < y)) by lia. simpl. lia.
  - rewrite (filter_cons_False (fun x => x <= y)) by done.
    destruct (decide (s < y)).
    + rewrite (filter_cons_True (fun x => x < y)) by done. simpl. lia.
    + by rewrite (filter_cons_False (fun x => x < y)) by done.
Qed.

(** The [i]-th start in sorted order is before the [i]-th end in sorted
    order. *)
Lemma sorted_start_before_end (intervals : list (Z * Z)) (i : nat) (x y : Z) :
  Forall (fun i => i.1 < i.2) intervals ->
  sort_by id (fst <$> intervals) !! i = Some x ->
  sort_by id (snd <$> intervals) !! i = Some y ->
  x < y.
Proof.
  intros Hpos Hx Hy.
  pose proof (sort_by_sorted id (fst <$> intervals)) as Hstarts.
  pose proof (sort_by_sorted id (snd <$> intervals)) as Hends.
  assert (forall a b : Z, a <= b -> b < y -> a < y) as Hlt by (intros; lia).
  assert (forall a b : Z, a <= b -> b <= y -> a <= y) as Hle by (intros; lia).
  apply (sorted_prefix (fun z => z < y) _ Hlt Hstarts i x Hx).
  pose proof (proj1 (sorted_prefix (fun z => z <= y) _ Hle Hends i y Hy)
                (Z.le_refl y)) as Hi.
  rewrite sort_by_Permutation in Hi. rewrite sort_by_Permutation.
  pose proof (ended_started intervals y Hpos). lia.
Qed.

(** X15.  For meetings of positive length, [min_meeting_rooms] returns the
    greatest number of meetings in progress at one time, a meeting being in
    progress from its start up to, and not at, its end. *)
Theorem min_meeting_rooms_positive_length (intervals : list (Z * Z)) :
  intervals <> [] -> Forall (fun i => i.1 < i.2) intervals ->
  exists m,
    min_meeting_rooms intervals = Ret m /\
    (forall t, occupancy intervals t <= m) /\
    (exists t, occupancy intervals t = m).
Proof.
  intros Hne Hpos.
  set (starts := sort_by id (fst <$> intervals)).
  set (ends := sort_by id (snd <$> intervals)).
  assert (length starts = length intervals) as Hls.
  { unfold starts. by rewrite sort_by_Permutation, length_fmap. }
  assert (length ends = length intervals) as Hle.
  { unfold ends. by rewrite sort_by_Permutation, length_fmap. }
  destruct (rooms_loop_max starts ends (length intervals) Hls Hle
              (sort_by_sorted id _) (sort_by_sorted id _)
              (fun i x y => sorted_start_before_end intervals i x y Hpos)
              (S (2 * length intervals)) 0 0 0)
    as (m & Hrun & Hmax & Hwit).
  { lia. }
  { lia. }
  { intros j' i' y x Hj'. lia. }
  { intros t Ht. unfold in_progress. pose proof (upto_nonneg ends t). lia. }
  { by left. }
  assert (forall t, in_progress starts ends t = occupancy intervals t) as Hocc.
  { intros t. unfold in_progress, starts, ends.
    rewrite !(upto_Permutation _ _ t (sort_by_Permutation id _)).
    by apply occupancy_upto. }
  exists m. split; [|split].
  - unfold min_meeting_rooms. destruct intervals as [|i0 l]; [done|]. exact Hrun.
  - intros t. rewrite <- Hocc. apply Hmax.
  - destruct Hwit as [Hzero|[t Ht]].
    + destruct intervals; [done|]. simpl in Hzero. lia.
    + exists t. rewrite <- Hocc. specialize (Hmax t). lia.
Qed.

Lemma min_meeting_rooms_positive_length_witness :
  exists m,
    min_meeting_rooms [(0, 30); (5, 10); (15, 20)] = Ret m /\
    (forall t, occupancy [(0, 30); (5, 10); (15, 20)] t <= m) /\
    (exists t, occupancy [(0, 30); (5, 10); (15, 20)] t = m).
Proof.
  apply (min_meeting_rooms_positive_length [(0, 30); (5, 10); (15, 20)]).
  - discriminate.
  - repeat constructor; simpl; lia.
Defined.


(** *** What merging keeps

    Merging changes no start, and moves the end of the last merged interval
    only over points that the absorbed interval covers.  So the result
    covers the points the argument covered, whatever the intervals are and
    whether or not the list names one interval twice. *)

Lemma StronglySorted_ascending {A} (key : A -> Z) (l : list A) :
  StronglySorted (fun a b => key a <= key b) l -> ascending key l.
Proof.
  induction 1 as [|x l Hl IH Hx]; intros i j a b Hij Ha Hb; [done|].
  destruct j as [|j]; [lia|]. simpl in Hb.
  destruct i as [|i]; simpl in Ha.
  - injection Ha as <-. by apply (proj1 (Forall_lookup _ _) Hx j b).
  - apply (IH i j); [lia|done..].
Qed.

Local Ltac member := rewrite ?elem_of_app, ?elem_of_cons in *; tauto.

(** Times and integers. *)
Lemma grid_le (z : Z) (t : Q) : (inject_Z z <= t)%Q <-> 2 * z <= grid t.
Proof.
  unfold grid. split.
  - intros Hzt.
    pose proof (Qfloor_resp_le _ _ Hzt) as Hf. rewrite Qfloor_Z in Hf.
    pose proof (Qceiling_resp_le _ _ Hzt) as Hc. rewrite Qceiling_Z in Hc.
    lia.
  - intros Hgrid. apply Qnot_lt_le. intros Hlt.
    pose proof (Qle_lt_trans _ _ _ (Qfloor_le t) Hlt) as Hf.
    rewrite <- Zlt_Qlt in Hf.
    pose proof (Qceiling_resp_le _ _ (Qlt_le_weak _ _ Hlt)) as Hc.
    rewrite Qceiling_Z in Hc. lia.
Qed.

Lemma grid_ge (z : Z) (t : Q) : (t <= inject_Z z)%Q <-> grid t <= 2 * z.
Proof.
  unfold grid. split.
  - intros Hzt.
    pose proof (Qfloor_resp_le _ _ Hzt) as Hf. rewrite Qfloor_Z in Hf.
    pose proof (Qceiling_resp_le _ _ Hzt) as Hc. rewrite Qceiling_Z in Hc.
    lia.
  - intros Hgrid. apply Qnot_lt_le. intros Hlt.
    pose proof (Qlt_le_trans _ _ _ Hlt (Qle_ceiling t)) as Hc.
    rewrite <- Zlt_Qlt in Hc.
    pose proof (Qfloor_resp_le _ _ (Qlt_le_weak _ _ Hlt)) as Hf.
    rewrite Qfloor_Z in Hf. lia.
Qed.

Lemma grid_lt (z : Z) (t : Q) : (inject_Z z < t)%Q <-> 2 * z < grid t.
Proof.
  pose proof (grid_ge z t) as H. split.
  - intros Hlt. apply Z.nle_gt. intros Hle. apply H in Hle.
    by apply Qlt_not_le in Hlt.
  - intros Hlt. apply Qnot_le_lt. intros Hle. apply H in Hle. lia.
Qed.

Lemma grid_gt (z : Z) (t : Q) : (t < inject_Z z)%Q <-> grid t < 2 * z.
Proof.
  pose proof (grid_le z t) as H. split.
  - intros Hlt. apply Z.nle_gt. intros Hle. apply H in Hle.
    by apply Qlt_not_le in Hlt.
  - intros Hlt. apply Qnot_le_lt. intros Hle. apply H in Hle. lia.
Qed.

Lemma grid_Z (z : Z) : grid (inject_Z z) = 2 * z.
Proof. unfold grid. rewrite Qfloor_Z, Qceiling_Z. lia. Qed.

Lemma within_grid (s e : Z) (t : Q) : within s e t <-> 2 * s <= grid t <= 2 * e.
Proof. unfold within. by rewrite grid_le, grid_ge. Qed.

(** Linear arithmetic on times and the ends of intervals. *)
Local Ltac times :=
  rewrite ?within_grid, ?grid_lt, ?grid_gt, ?grid_Z in *; lia.

Lemma merge_loop_covered (rest : list ref) :
  forall (h : store) (ms : list ref) (x : ref),
    ascending (start_of h) (x :: rest) ->
    exists h' m',
      merge_loop h (ms ++ [x]) rest = Ret (h', m') /\
      forall t, covered h' m' t <-> covered h ((ms ++ [x]) ++ rest) t.
Proof.
  induction rest as [|current rest IH]; intros h ms x Hasc.
  { exists h, (ms ++ [x]). by rewrite app_nil_r. }
  cbn [merge_loop]. rewrite py_index_last. bind_ret.
  assert (start_of h x <= start_of h current) as Hstart
    by (apply (Hasc 0%nat 1%nat); [lia|done..]).
  destruct (decide (start_of h current <= end_of h x)) as [Hov|Hapart].
  - set (e := Z.max (end_of h x) (end_of h current)).
    destruct (IH (set_end h x e) ms x) as (h' & m' & Hrun & Hcov).
    { intros i j a b Hij Ha Hb. rewrite !start_of_set_end.
      destruct i as [|i], j as [|j]; try lia.
      - apply (Hasc 0%nat (S (S j))); [lia|done..].
      - apply (Hasc (S (S i)) (S (S j))); [lia|done..]. }
    exists h', m'. split; [exact Hrun|]. intros t. rewrite Hcov. clear Hcov Hrun.
    unfold covered. split.
    + intros (y & Hy & Ht). rewrite start_of_set_end in Ht.
      destruct (decide (y = x)) as [->|Hne].
      * rewrite end_of_set_end in Ht.
        destruct (decide (grid t <= 2 * end_of h x)).
        -- exists x. split; [member|times].
        -- exists current. split; [member|times].
      * rewrite end_of_set_end_ne in Ht by done.
        exists y. split; [member|done].
    + intros (y & Hy & Ht).
      destruct (decide (y = x)) as [->|Hne].
      * exists x. split; [member|].
        rewrite start_of_set_end, end_of_set_end. times.
      * assert (y = current \/ y ∈ (ms ++ [x]) ++ rest) as [->|Hy'] by member.
        -- exists x. split; [member|].
           rewrite start_of_set_end, end_of_set_end. times.
        -- exists y. split; [done|].
           by rewrite start_of_set_end, end_of_set_end_ne.
  - destruct (IH h (ms ++ [x]) current) as (h' & m' & Hrun & Hcov).
    { intros i j a b Hij Ha Hb. apply (Hasc (S i) (S j)); [lia|done..]. }
    exists h', m'. split; [exact Hrun|]. intros t. rewrite Hcov.
    by rewrite <- (app_assoc _ [current]).
Qed.

Lemma merge_intervals_covered (h : store) (xs : list ref) :
  exists h1 m1,
    merge_intervals h xs = Ret (h1, sort_by (start_of h) xs, m1) /\
    forall t, covered h1 m1 t <-> covered h xs t.
Proof.
  unfold merge_intervals.
  destruct xs as [|x0 xs0]; [by exists h, []|].
  set (xs := x0 :: xs0) in *.
  pose proof (sort_by_Permutation (start_of h) xs) as Hperm.
  pose proof (sort_by_sorted (start_of h) xs) as Hsorted.
  destruct (sort_by (start_of h) xs) as [|first rest] eqn:Hsort.
  { by apply Permutation_nil in Hperm. }
  rewrite (py_index_Ret _ 0 first) by (lia || done).
  bind_ret. rewrite skipn_cons, drop_0.
  destruct (merge_loop_covered rest h [] first) as (h1 & m1 & Hrun & Hcov).
  { by apply StronglySorted_ascending. }
  change ([] ++ [first]) with [first] in Hrun. rewrite Hrun. bind_ret.
  exists h1, m1. split; [done|]. intros t. rewrite Hcov.
  change (([] ++ [first]) ++ rest) with (first :: rest).
  unfold covered. split; intros (y & Hy & Ht); exists y; split; try done.
  - by rewrite <- Hperm.
  - by rewrite Hperm.
Qed.

(** X11.  [merge_intervals] returns on every list of intervals, and the
    list it returns covers exactly the times that the argument covered
    before the call.  The times are the rationals, so intervals that the
    call has joined had no time between them: [[1, 2]] and [[3, 4]] are
    not covered as [[1, 4]] is. *)
Theorem merge_intervals_covers (h : store) (xs : list ref) :
  exists h1 m1,
    merge_intervals h xs = Ret (h1, sort_by (start_of h) xs, m1) /\
    forall t : Q, covered h1 m1 t <-> covered h xs t.
Proof. apply merge_intervals_covered. Qed.

(** Intervals that end and start at neighbouring integers stay apart. *)
Example merge_neighbours : merge_fresh [(1, 2); (3, 4)] = Ret [(1, 2); (3, 4)].
Proof. reflexivity. Qed.

(** X12.  When every interval has [start <= end], the list that
    [merge_intervals] returns is in order and without overlap: each of its
    intervals ends before the next one starts, and each still has
    [start <= end]. *)
Theorem merge_intervals_disjoint (h : store) (xs : list ref) :
  Forall (well_formed h) xs ->
  exists h1 xs1 m1,
    merge_intervals h xs = Ret (h1, xs1, m1) /\
    Forall (well_formed h1) m1 /\
    forall (i j : nat) (a b : ref),
      (i < j)%nat -> m1 !! i = Some a -> m1 !! j = Some b ->
      end_of h1 a < start_of h1 b.
Proof.
  intros Hwf.
  destruct (merge_intervals_separated h xs Hwf) as (h1 & m1 & Hrun & Hsep & Hwf1).
  exists h1, (sort_by (start_of h) xs), m1. split; [exact Hrun|].
  split; [exact Hwf1|].
  intros i j. revert i.
  induction j as [|j IH]; intros i a b Hij Ha Hb; [lia|].
  destruct (lookup_lt_is_Some_2 m1 j) as [c Hc];
    [apply lookup_lt_Some in Hb; lia|].
  pose proof (Hsep j c b Hc Hb) as Hcb.
  destruct (decide (i = j)) as [->|Hne]; [by simplify_eq|].
  pose proof (IH i a c ltac:(lia) Ha Hc) as Hac.
  pose proof (proj1 (Forall_lookup _ _) Hwf1 j c Hc) as Hwc. unfold well_formed in Hwc.
  lia.
Qed.

Lemma merge_intervals_disjoint_witness :
  exists h1 xs1 m1,
    merge_intervals (fresh [(8, 10); (1, 3); (2, 6)]) [0; 1; 2]%nat
    = Ret (h1, xs1, m1) /\
    Forall (well_formed h1) m1 /\
    forall (i j : nat) (a b : ref),
      (i < j)%nat -> m1 !! i = Some a -> m1 !! j = Some b ->
      end_of h1 a < start_of h1 b.
Proof.
  apply (merge_intervals_disjoint (fresh [(8, 10); (1, 3); (2, 6)]) [0; 1; 2]%nat).
  repeat constructor; unfold well_formed, start_of, end_of; simpl; lia.
Defined.


(** *** Intersection of two lists of intervals *)

Lemma covers_app (l1 l2 : list (Z * Z)) (t : Q) :
  covers (l1 ++ l2) t <-> covers l1 t \/ covers l2 t.
Proof.
  unfold covers. split.
  - intros (i & [Hi|Hi]%elem_of_app & Ht); [left|right]; by exists i.
  - intros [(i & Hi & Ht)|(i & Hi & Ht)]; exists i; rewrite elem_of_app; auto.
Qed.

Lemma covers_cons (x : Z * Z) (l : list (Z * Z)) (t : Q) :
  covers (x :: l) t <-> within x.1 x.2 t \/ covers l t.
Proof.
  unfold covers. split.
  - intros (i & [->|Hi]%elem_of_cons & Ht); [by left|right; by exists i].
  - intros [Ht|(i & Hi & Ht)]; [exists x|exists i]; rewrite elem_of_cons; auto.
Qed.

Lemma covers_nil (t : Q) : ~ covers [] t.
Proof. intros (i & Hi & _). by apply elem_of_nil in Hi. Qed.

(** The time 5/2 lies in [[1, 4]] and in neither of [[1, 2]] and [[3, 4]]. *)
Example covers_between :
  covers [(1, 4)] (5 # 2)%Q /\ ~ covers [(1, 2); (3, 4)] (5 # 2)%Q.
Proof.
  split.
  - exists (1, 4). split; [apply list_elem_of_here|].
    unfold within, Qle. simpl. lia.
  - intros (i & Hi & Ht). unfold within, Qle in Ht.
    repeat (apply elem_of_cons in Hi as [->|Hi]; [simpl in Ht; lia|]).
    by apply elem_of_nil in Hi.
Qed.

Section intersection.
Variables first_list second_list : list (Z * Z).
Hypothesis first_chained : chained first_list.
Hypothesis second_chained : chained second_list.

Lemma chained_drop (l : list (Z * Z)) (i : nat) (x : Z * Z) :
  chained l -> l !! i = Some x ->
  drop i l = x :: drop (S i) l /\ x.1 <= x.2 /\
  Forall (fun y => x.2 <= y.1) (drop (S i) l).
Proof.
  intros [Hwf Hsorted] Hx. split; [by apply drop_S|].
  split; [by apply (proj1 (Forall_lookup _ _) Hwf i x)|].
  rewrite <- (take_drop i l) in Hsorted.
  apply StronglySorted_app_1_r in Hsorted.
  rewrite (drop_S _ _ _ Hx) in Hsorted.
  by apply StronglySorted_cons in Hsorted as [? _].
Qed.

Lemma interval_intersection_loop_spec (fuel : nat) :
  forall (i j : Z) (result : list (Z * Z)),
    0 <= i <= len first_list -> 0 <= j <= len second_list ->
    (len first_list - i) + (len second_list - j) < Z.of_nat fuel ->
    chained result ->
    (forall x u v, x ∈ result -> u ∈ drop (Z.to_nat i) first_list ->
                   v ∈ drop (Z.to_nat j) second_list -> x.2 <= Z.max u.1 v.1) ->
    exists r,
      interval_intersection_loop fuel first_list second_list i j result = Ret r /\
      chained r /\
      forall t, covers r t <->
                covers result t \/
                (covers (drop (Z.to_nat i) first_list) t /\
                 covers (drop (Z.to_nat j) second_list) t).
Proof.
  induction fuel as [|fuel IH]; intros i j result Hi Hj Hfuel Hres Hbefore; [lia|].
  cbn [interval_intersection_loop].
  destruct (decide (i < len first_list /\ j < len second_list)) as [[Hil Hjl]|Hend].
  - destruct (py_index_in_range first_list i ltac:(lia)) as [a [Ha ->]]. bind_ret.
    destruct (py_index_in_range second_list j ltac:(lia)) as [b [Hb ->]]. bind_ret.
    destruct (chained_drop _ _ _ first_chained Ha) as (Hda & Hwa & Hafter_a).
    destruct (chained_drop _ _ _ second_chained Hb) as (Hdb & Hwb & Hafter_b).
    replace (S (Z.to_nat i)) with (Z.to_nat (i + 1)) in * by lia.
    replace (S (Z.to_nat j)) with (Z.to_nat (j + 1)) in * by lia.
    set (start := Z.max a.1 b.1). set (end_ := Z.min a.2 b.2).
    set (result' := if decide (start <= end_) then result ++ [(start, end_)]
                    else result).
    assert (chained result') as Hres'.
    { unfold result'. destruct (decide (start <= end_)) as [Hse|]; [|done].
      destruct Hres as [Hwf Hsorted]. split.
      - apply Forall_app. split; [done|]. by apply Forall_singleton.
      - apply StronglySorted_app_2; [|done|repeat constructor].
        intros x1 x2 Hx1 ->%list_elem_of_singleton. simpl.
        apply (Hbefore x1 a b Hx1); rewrite ?Hda, ?Hdb; apply list_elem_of_here. }
    assert (forall t, covers result' t <->
                      covers result t \/ (within a.1 a.2 t /\ within b.1 b.2 t))
      as Hcov'.
    { intros t. unfold result'. destruct (decide (start <= end_)) as [Hse|Hse].
      - rewrite covers_app, covers_cons. simpl. unfold start, end_ in *.
        pose proof (covers_nil t). split; [intros [?|[?|?]]|intros [?|?]];
          try tauto; [right; times|right; left; times].
      - unfold start, end_ in *. split; [tauto|]. intros [?|?]; [done|times]. }
    rewrite Hda, Hdb.
    destruct (decide (a.2 < b.2)) as [Hab|Hab].
    + destruct (IH (i + 1) j result') as (r & -> & Hr & Hcov);
        [lia|lia|lia|done| |].
      { intros x u v Hx Hu Hv. unfold result' in Hx.
        assert (x ∈ result \/ (start <= end_ /\ x = (start, end_))) as [Hold|[_ ->]].
        { destruct (decide (start <= end_)); [|by left].
          apply elem_of_app in Hx as [?|Hx]; [by left|].
          apply list_elem_of_singleton in Hx. by right. }
        - apply (Hbefore x u v Hold); [|done]. rewrite Hda. by apply list_elem_of_further.
        - pose proof (proj1 (Forall_forall _ _) Hafter_a u Hu) as Hau. simpl in *.
          unfold end_. lia. }
      exists r. split; [done|]. split; [done|].
      intros t. rewrite Hcov, Hcov', Hdb, !covers_cons.
      split; [tauto|]. intros [?|[[Hta|Hta] [Htb|Htb]]]; try tauto.
      destruct Htb as (b' & Hb' & Htb').
      pose proof (proj1 (Forall_forall _ _) Hafter_b b' Hb') as Hbb. simpl in Hbb.
      times.
    + destruct (IH i (j + 1) result') as (r & -> & Hr & Hcov);
        [lia|lia|lia|done| |].
      { intros x u v Hx Hu Hv. unfold result' in Hx.
        assert (x ∈ result \/ (start <= end_ /\ x = (start, end_))) as [Hold|[_ ->]].
        { destruct (decide (start <= end_)); [|by left].
          apply elem_of_app in Hx as [?|Hx]; [by left|].
          apply list_elem_of_singleton in Hx. by right. }
        - apply (Hbefore x u v Hold); [done|]. rewrite Hdb. by apply list_elem_of_further.
        - pose proof (proj1 (Forall_forall _ _) Hafter_b v Hv) as Hbv. simpl in *.
          unfold end_. lia. }
      exists r. split; [done|]. split; [done|].
      intros t. rewrite Hcov, Hcov', Hda, !covers_cons.
      split; [tauto|]. intros [?|[[Hta|Hta] [Htb|Htb]]]; try tauto.
      destruct Hta as (a' & Ha' & Hta').
      pose proof (proj1 (Forall_forall _ _) Hafter_a a' Ha') as Haa. simpl in Haa.
      left. right. times.
  - exists result. split; [done|]. split; [done|].
    intros t. split; [by left|]. intros [?|[Hta Htb]]; [done|exfalso].
    assert (drop (Z.to_nat i) first_list = [] \/ drop (Z.to_nat j) second_list = [])
      as [Hnil|Hnil].
    { destruct (decide (i < len first_list)); [right|left];
        apply drop_ge; unfold len in *; lia. }
    + rewrite Hnil in Hta. by apply covers_nil in Hta.
    + rewrite Hnil in Htb. by apply covers_nil in Htb.
Qed.

End intersection.

Example test_interval_intersection :
  interval_intersection [(0, 2); (5, 10); (13, 23); (24, 25)]
                        [(1, 5); (8, 12); (15, 24); (25, 26)]
  = Ret [(1, 2); (5, 5); (8, 10); (15, 23); (24, 24); (25, 25)].
Proof. reflexivity. Qed.

(** X13.  For two lists of intervals, each with [start <= end] everywhere
    and each interval ending no later than the following ones start,
    [interval_intersection] returns a list of the same kind that covers
    exactly the times covered by both lists, the times being the
    rationals. *)
Theorem interval_intersection_covers (first_list second_list : list (Z * Z)) :
  chained first_list -> chained second_list ->
  exists r, interval_intersection first_list second_list = Ret r /\
    chained r /\
    forall t : Q, covers r t <-> covers first_list t /\ covers second_list t.
Proof.
  intros Hfirst Hsecond.
  destruct (interval_intersection_loop_spec first_list second_list Hfirst Hsecond
              (S (length first_list + length second_list)) 0 0 [])
    as (r & Hr & Hchained & Hcov); [unfold len; lia..| | |].
  { split; constructor. }
  { intros x u v Hx. by apply elem_of_nil in Hx. }
  exists r. split; [exact Hr|]. split; [done|].
  intros t. rewrite Hcov. simpl. pose proof (covers_nil t). tauto.
Qed.

Lemma interval_intersection_covers_witness :
  exists r,
    interval_intersection [(0, 2); (5, 10); (13, 23); (24, 25)]
                          [(1, 5); (8, 12); (15, 24); (25, 26)] = Ret r /\
    chained r /\
    forall t : Q, covers r t <->
              covers [(0, 2); (5, 10); (13, 23); (24, 25)] t /\
              covers [(1, 5); (8, 12); (15, 24); (25, 26)] t.
Proof.
  apply (interval_intersection_covers [(0, 2); (5, 10); (13, 23); (24, 25)]
                                      [(1, 5); (8, 12); (15, 24); (25, 26)]).
  - split; repeat constructor; simpl; lia.
  - split; repeat constructor; simpl; lia.
Defined.


(** *** Attending all meetings *)

Lemma filter_two {A} (P : A -> Prop) `{!forall x, Decision (P x)} (l : list A)
    (i j : nat) (x y : A) :
  (i < j)%nat -> l !! i = Some x -> l !! j = Some y -> P x -> P y ->
  (2 <= length (filter P l))%nat.
Proof.
  intros Hij Hx Hy HPx HPy.
  rewrite <- (take_drop_middle l i x Hx), filter_app, filter_cons_True by done.
  assert (y ∈ filter P (drop (S i) l)) as Hin.
  { apply list_elem_of_filter. split; [done|].
    apply (list_elem_of_lookup_2 _ (j - S i)). rewrite lookup_drop.
    by replace (S i + (j - S i))%nat with j by lia. }
  destruct (filter P (drop (S i) l)); [by apply elem_of_nil in Hin|].
  rewrite length_app. simpl. lia.
Qed.

Lemma filter_two_inv {A} (P : A -> Prop) `{!forall x, Decision (P x)} (l : list A) :
  (2 <= length (filter P l))%nat ->
  exists (i j : nat) (x y : A),
    (i < j)%nat /\ l !! i = Some x /\ l !! j = Some y /\ P x /\ P y.
Proof.
  induction l as [|a l IH]; intros Hlen; [simpl in Hlen; lia|].
  destruct (decide (P a)) as [Ha|Ha].
  - rewrite filter_cons_True in Hlen by done. simpl in Hlen.
    destruct (filter P l) as [|y rest] eqn:Hfilter; [simpl in Hlen; lia|].
    assert (y ∈ filter P l) as [Hy [j Hj]%list_elem_of_lookup]%list_elem_of_filter
      by (rewrite Hfilter; apply list_elem_of_here).
    exists 0%nat, (S j), a, y. split; [lia|done].
  - rewrite filter_cons_False in Hlen by done.
    destruct (IH Hlen) as (i & j & x & y & Hij & Hx & Hy & HP).
    exists (S i), (S j), x, y. split; [lia|done].
Qed.

Lemma can_attend_loop_spec (l : list (Z * Z)) (n : nat) : forall k : Z,
  1 <= k -> k + Z.of_nat n <= len l ->
  exists b, can_attend_loop l (seqZ k (Z.of_nat n)) = Ret b /\
    (b = true <->
     forall (i : nat) (prev cur : Z * Z),
       k <= Z.of_nat (S i) < k + Z.of_nat n ->
       l !! i = Some prev -> l !! S i = Some cur -> prev.2 <= cur.1).
Proof.
  induction n as [|n IH]; intros k Hk Hlen.
  - exists true. split; [done|]. split; [|done]. intros _ i prev cur Hi. lia.
  - rewrite seqZ_cons by lia. cbn [can_attend_loop].
    destruct (py_index_in_range l k ltac:(lia)) as [cur [Hcur ->]]. bind_ret.
    destruct (py_index_in_range l (k - 1) ltac:(lia)) as [prev [Hprev ->]]. bind_ret.
    destruct (decide (cur.1 < prev.2)) as [Hov|Hfree].
    + exists false. split; [done|]. split; [done|]. intros Hall. exfalso.
      specialize (Hall (Z.to_nat (k - 1)) prev cur ltac:(lia) Hprev).
      replace (S (Z.to_nat (k - 1))) with (Z.to_nat k) in Hall by lia.
      specialize (Hall Hcur). lia.
    + replace (Z.pred (Z.of_nat (S n))) with (Z.of_nat n) by lia.
      destruct (IH (Z.succ k) ltac:(lia) ltac:(lia)) as (b & -> & Hb).
      exists b. split; [done|]. rewrite Hb. split.
      * intros Hall i p c Hi Hp Hc.
        destruct (decide (Z.of_nat (S i) = k)) as [Heq|Hne].
        -- replace (Z.to_nat k) with (S i) in Hcur by lia.
           replace (Z.to_nat (k - 1)) with i in Hprev by lia.
           assert (p = prev /\ c = cur) as [-> ->] by (split; congruence). lia.
        -- apply (Hall i); [lia|done..].
      * intros Hall i p c Hi. apply Hall. lia.
Qed.

(** X14.  For meetings with [start < end], [can_attend_meetings] returns
    [True] exactly when no two meetings are in progress at the same time;
    the call leaves its argument sorted by start. *)
Theorem can_attend_meetings_no_overlap (intervals : list (Z * Z)) :
  Forall (fun i => i.1 < i.2) intervals ->
  exists b,
    can_attend_meetings intervals = Ret (sort_by fst intervals, b) /\
    (b = true <-> forall t, occupancy intervals t <= 1).
Proof.
  intros Hpos. unfold can_attend_meetings.
  destruct intervals as [|i0 rest].
  { exists true. split; [done|]. split; [|done]. intros _ t. unfold occupancy. done. }
  set (intervals := i0 :: rest) in *.
  pose proof (sort_by_Permutation fst intervals) as Hperm.
  pose proof (StronglySorted_ascending fst _ (sort_by_sorted fst intervals)) as Hasc.
  set (sorted := sort_by fst intervals) in *.
  assert (Forall (fun i => i.1 < i.2) sorted) as Hpos' by (by rewrite Hperm).
  assert (forall t, occupancy intervals t = occupancy sorted t) as Hocc.
  { intros t. unfold occupancy, len. by rewrite Hperm. }
  assert (0 < length sorted)%nat as Hlen by (rewrite Hperm; simpl; lia).
  destruct (can_attend_loop_spec sorted (length sorted - 1) 1)
    as (b & Hrun & Hb); [lia|unfold len; lia|].
  replace (Z.of_nat (length sorted - 1)) with (len sorted - 1) in Hrun
    by (unfold len; lia).
  rewrite Hrun. bind_ret. exists b. split; [done|]. rewrite Hb. clear Hrun Hb.
  split.
  - intros Hfree t. rewrite Hocc.
    assert (forall (j i : nat) x y, (i < j)%nat ->
              sorted !! i = Some x -> sorted !! j = Some y -> x.2 <= y.1) as Hpair.
    { induction j as [|j IH]; intros i x y Hij Hx Hy; [lia|].
      destruct (lookup_lt_is_Some_2 sorted j) as [z Hz];
        [apply lookup_lt_Some in Hy; lia|].
      pose proof (Hfree j z y) as Hzy. apply lookup_lt_Some in Hy as Hj.
      specialize (Hzy ltac:(lia) Hz Hy).
      destruct (decide (i = j)) as [->|Hne]; [by simplify_eq|].
      pose proof (IH i x z ltac:(lia) Hx Hz).
      pose proof (proj1 (Forall_lookup _ _) Hpos' j z Hz) as Hzpos. simpl in Hzpos. lia. }
    destruct (decide (occupancy sorted t <= 1)) as [|Hmany]; [done|exfalso].
    destruct (filter_two_inv (fun i : Z * Z => i.1 <= t < i.2) sorted)
      as (i & j & x & y & Hij & Hx & Hy & Htx & Hty).
    { unfold occupancy, len in Hmany. lia. }
    pose proof (Hpair j i x y Hij Hx Hy). lia.
  - intros Hone i prev cur Hi Hprev Hcur.
    destruct (decide (prev.2 <= cur.1)) as [|Hov]; [done|exfalso].
    pose proof (Hasc i (S i) prev cur ltac:(lia) Hprev Hcur) as Hstart.
    pose proof (proj1 (Forall_lookup _ _) Hpos' _ _ Hcur) as Hcpos. simpl in Hcpos.
    assert (prev.1 <= cur.1 < prev.2) as Hin_prev by lia.
    assert (cur.1 <= cur.1 < cur.2) as Hin_cur by lia.
    pose proof (filter_two (fun i : Z * Z => i.1 <= cur.1 < i.2) sorted i (S i)
                  prev cur (Nat.lt_succ_diag_r i) Hprev Hcur Hin_prev Hin_cur) as Htwo.
    specialize (Hone cur.1). rewrite Hocc in Hone. unfold occupancy, len in Hone. lia.
Qed.

Lemma can_attend_meetings_no_overlap_witness :
  exists b,
    can_attend_meetings [(7, 10); (2, 4)] = Ret (sort_by fst [(7, 10); (2, 4)], b) /\
    (b = true <-> forall t, occupancy [(7, 10); (2, 4)] t <= 1).
Proof.
  apply (can_attend_meetings_no_overlap [(7, 10); (2, 4)]).
  repeat constructor; simpl; lia.
Defined.


(** *** Inserting an interval *)

Lemma start_of_set_start (h : store) (x : ref) (s : Z) :
  start_of (set_start h x s) x = s.
Proof. unfold start_of, set_start. by rewrite fn_lookup_insert. Qed.

Lemma end_of_set_start (h : store) (x y : ref) (s : Z) :
  end_of (set_start h x s) y = end_of h y.
Proof.
  unfold end_of, set_start. destruct (decide (x = y)) as [->|Hne].
  - by rewrite fn_lookup_insert.
  - by rewrite fn_lookup_insert_ne.
Qed.

Lemma separated_pairwise (h : store) (l : list ref) :
  separated h l -> Forall (well_formed h) l ->
  forall (i j : nat) (a b : ref),
    (i < j)%nat -> l !! i = Some a -> l !! j = Some b -> end_of h a < start_of h b.
Proof.
  intros Hsep Hwf i j. revert i.
  induction j as [|j IH]; intros i a b Hij Ha Hb; [lia|].
  destruct (lookup_lt_is_Some_2 l j) as [c Hc];
    [apply lookup_lt_Some in Hb; lia|].
  pose proof (Hsep j c b Hc Hb) as Hcb.
  destruct (decide (i = j)) as [->|Hne]; [by simplify_eq|].
  pose proof (IH i a c ltac:(lia) Ha Hc) as Hac.
  pose proof (proj1 (Forall_lookup _ _) Hwf j c Hc) as Hwc. unfold well_formed in Hwc.
  lia.
Qed.

Lemma separated_app (h : store) (l1 l2 : list ref) :
  separated h l1 -> separated h l2 ->
  (forall x y, last l1 = Some x -> head l2 = Some y -> end_of h x < start_of h y) ->
  separated h (l1 ++ l2).
Proof.
  intros H1 H2 Hjoin i a b Ha Hb.
  destruct (decide (S i < length l1)%nat) as [Hin|Hout].
  - rewrite lookup_app_l in Ha, Hb by lia. by apply (H1 i).
  - destruct (decide (i < length l1)%nat) as [Hlast|Hafter].
    + rewrite lookup_app_l in Ha by lia. rewrite lookup_app_r in Hb by lia.
      replace (S i - length l1)%nat with 0%nat in Hb by lia.
      apply Hjoin.
      * rewrite last_lookup. by replace (pred (length l1)) with i by lia.
      * by rewrite head_lookup.
    + rewrite lookup_app_r in Ha, Hb by lia.
      replace (S i - length l1)%nat with (S (i - length l1)) in Hb by lia.
      by apply (H2 (i - length l1)%nat).
Qed.

Lemma separated_agree (h h' : store) (l : list ref) :
  (forall x, x ∈ l -> h' x = h x) -> separated h l -> separated h' l.
Proof.
  intros Hagree Hsep i a b Ha Hb. unfold end_of, start_of.
  rewrite (Hagree a), (Hagree b) by (by eapply list_elem_of_lookup_2).
  by apply (Hsep i).
Qed.

Lemma separated_sublist (h : store) (l : list ref) (i : nat) :
  separated h l -> separated h (take i l) /\ separated h (drop i l).
Proof.
  intros Hsep. split.
  - intros j a b [Ha _]%lookup_take_Some [Hb _]%lookup_take_Some. by apply (Hsep j).
  - intros j a b Ha Hb. rewrite lookup_drop in Ha, Hb.
    replace (i + S j)%nat with (S (i + j)) in Hb by lia. by apply (Hsep (i + j)%nat).
Qed.

Lemma covered_app (h : store) (l1 l2 : list ref) (t : Q) :
  covered h (l1 ++ l2) t <-> covered h l1 t \/ covered h l2 t.
Proof.
  unfold covered. split.
  - intros (x & [Hx|Hx]%elem_of_app & Ht); [left|right]; by exists x.
  - intros [(x & Hx & Ht)|(x & Hx & Ht)]; exists x; rewrite elem_of_app; auto.
Qed.

Lemma covered_cons (h : store) (x : ref) (l : list ref) (t : Q) :
  covered h (x :: l) t <-> within (start_of h x) (end_of h x) t \/ covered h l t.
Proof.
  unfold covered. split.
  - intros (y & [->|Hy]%elem_of_cons & Ht); [by left|right; by exists y].
  - intros [Ht|(y & Hy & Ht)]; [exists x|exists y]; rewrite elem_of_cons; auto.
Qed.

Lemma covered_nil (h : store) (t : Q) : ~ covered h [] t.
Proof. intros (x & Hx & _). by apply elem_of_nil in Hx. Qed.

Lemma covered_agree (h h' : store) (l : list ref) (t : Q) :
  (forall x, x ∈ l -> h' x = h x) -> covered h' l t <-> covered h l t.
Proof.
  intros Hagree. unfold covered, start_of, end_of.
  split; intros (x & Hx & Ht); exists x; (split; [done|]);
    [rewrite <- (Hagree x Hx)|rewrite (Hagree x Hx)]; done.
Qed.

Section insert.
Variable h : store.
Variable intervals : list ref.
Variable new_interval : ref.
Hypothesis intervals_separated : separated h intervals.
Hypothesis intervals_wf : Forall (well_formed h) intervals.
Hypothesis new_wf : well_formed h new_interval.
Hypothesis new_fresh : new_interval ∉ intervals.

Lemma insert_before_spec (fuel : nat) :
  forall (i : nat) (result : list ref),
    (i <= length intervals)%nat -> (length intervals - i < fuel)%nat ->
    exists i1 : nat,
      insert_before fuel h intervals new_interval (Z.of_nat i) result
      = Ret (Z.of_nat i1, result ++ take (i1 - i) (drop i intervals)) /\
      (i <= i1 <= length intervals)%nat /\
      (forall (j : nat) x, (i <= j < i1)%nat -> intervals !! j = Some x ->
         end_of h x < start_of h new_interval) /\
      (forall x, intervals !! i1 = Some x -> start_of h new_interval <= end_of h x).
Proof.
  induction fuel as [|fuel IH]; intros i result Hi Hfuel; [lia|].
  cbn [insert_before].
  destruct (decide (Z.of_nat i < len intervals)) as [Hlt|Hge].
  - destruct (py_index_in_range intervals (Z.of_nat i) ltac:(lia)) as [x [Hx ->]].
    bind_ret. rewrite Nat2Z.id in Hx.
    destruct (decide (end_of h x < start_of h new_interval)) as [Hbefore|Hstop].
    + replace (Z.of_nat i + 1) with (Z.of_nat (S i)) by lia.
      destruct (IH (S i) (result ++ [x])) as (i1 & -> & Hrange & Hall & Hexit);
        [unfold len in Hlt; lia..|].
      exists i1. split; [|split; [lia|split; [|done]]].
      * do 2 f_equal. rewrite <- app_assoc. f_equal.
        rewrite (drop_S _ _ _ Hx).
        by replace (i1 - i)%nat with (S (i1 - S i)) by lia.
      * intros j y Hj Hy. destruct (decide (j = i)) as [->|Hne].
        -- by assert (y = x) as -> by congruence.
        -- apply (Hall j); [lia|done].
    + exists i. rewrite Nat.sub_diag, take_0, app_nil_r. split; [done|].
      split; [lia|]. split; [intros j y Hj; lia|].
      intros y Hy. assert (y = x) as -> by congruence. lia.
  - exists i. rewrite Nat.sub_diag, take_0, app_nil_r. split; [done|].
    split; [lia|]. split; [intros j y Hj; lia|].
    intros y Hy. apply lookup_lt_Some in Hy. unfold len in Hge. lia.
Qed.

Lemma insert_absorb_spec (i1 : nat) (fuel : nat) :
  forall (i : nat) (hc : store),
    (i1 <= i <= length intervals)%nat -> (length intervals - i < fuel)%nat ->
    (forall x, x <> new_interval -> hc x = h x) ->
    start_of hc new_interval <= end_of hc new_interval ->
    (forall (j : nat) x, (i <= j)%nat -> intervals !! j = Some x ->
       start_of hc new_interval <= end_of h x) ->
    (forall (j : nat) x, (j < i1)%nat -> intervals !! j = Some x ->
       end_of h x < start_of hc new_interval) ->
    (forall t, within (start_of hc new_interval) (end_of hc new_interval) t \/
               covered h (drop i intervals) t <->
               within (start_of h new_interval) (end_of h new_interval) t \/
               covered h (drop i1 intervals) t) ->
    exists (h2 : store) (i2 : nat),
      insert_absorb fuel hc intervals new_interval (Z.of_nat i)
      = Ret (h2, Z.of_nat i2) /\
      (i <= i2 <= length intervals)%nat /\
      (forall x, x <> new_interval -> h2 x = h x) /\
      start_of h2 new_interval <= end_of h2 new_interval /\
      (forall (j : nat) x, (j < i1)%nat -> intervals !! j = Some x ->
         end_of h x < start_of h2 new_interval) /\
      (forall t, within (start_of h2 new_interval) (end_of h2 new_interval) t \/
                 covered h (drop i2 intervals) t <->
                 within (start_of h new_interval) (end_of h new_interval) t \/
                 covered h (drop i1 intervals) t) /\
      (forall x, intervals !! i2 = Some x ->
         end_of h2 new_interval < start_of h x).
Proof.
  induction fuel as [|fuel IH];
    intros i hc Hi Hfuel Hagree Hwf Hends Hbefore Hcov; [lia|].
  cbn [insert_absorb].
  destruct (decide (Z.of_nat i < len intervals)) as [Hlt|Hge].
  - destruct (py_index_in_range intervals (Z.of_nat i) ltac:(lia)) as [x [Hx ->]].
    bind_ret. rewrite Nat2Z.id in Hx.
    assert (x <> new_interval) as Hxn.
    { intros ->. apply new_fresh. by eapply list_elem_of_lookup_2. }
    assert (start_of hc x = start_of h x /\ end_of hc x = end_of h x) as [Hsx Hex].
    { unfold start_of, end_of. by rewrite (Hagree x Hxn). }
    pose proof (proj1 (Forall_lookup _ _) intervals_wf i x Hx) as Hwx.
    unfold well_formed in Hwx.
    rewrite Hsx.
    destruct (decide (start_of h x <= end_of hc new_interval)) as [Hov|Hstop].
    + set (s' := Z.min (start_of hc new_interval) (start_of h x)).
      set (h1 := set_start hc new_interval s').
      assert (end_of h1 new_interval = end_of hc new_interval) as He1
        by apply end_of_set_start.
      assert (end_of h1 x = end_of h x) as Hx1
        by (unfold h1; by rewrite end_of_set_start).
      rewrite He1, Hx1.
      set (e' := Z.max (end_of hc new_interval) (end_of h x)).
      set (h2 := set_end h1 new_interval e').
      assert (start_of h2 new_interval = s') as Hs2
        by (unfold h2, h1; by rewrite start_of_set_end, start_of_set_start).
      assert (end_of h2 new_interval = e') as He2
        by (unfold h2; by rewrite end_of_set_end).
      replace (Z.of_nat i + 1) with (Z.of_nat (S i)) by lia.
      pose proof (Hends i x ltac:(lia) Hx) as Hxe.
      destruct (IH (S i) h2) as (h3 & i2 & Hrun & Hrange & Hrest);
        [unfold len in Hlt; lia..| | | | | |
         exists h3, i2; split; [exact Hrun|]; split; [lia|exact Hrest]].
      * intros y Hy. unfold h2, h1, set_end, set_start.
        rewrite !fn_lookup_insert_ne by done. by apply Hagree.
      * rewrite Hs2, He2. unfold s', e'. lia.
      * intros j y Hj Hy. rewrite Hs2. pose proof (Hends j y ltac:(lia) Hy).
        unfold s'. lia.
      * intros j y Hj Hy. rewrite Hs2. pose proof (Hbefore j y Hj Hy).
        pose proof (separated_pairwise h intervals intervals_separated intervals_wf
                      j i y x ltac:(lia) Hy Hx).
        unfold s'. lia.
      * intros t. rewrite <- Hcov, Hs2, He2, (drop_S _ _ _ Hx), covered_cons.
        assert (within s' e' t <->
                within (start_of hc new_interval) (end_of hc new_interval) t \/
                within (start_of h x) (end_of h x) t) as Hunion
          by (unfold s', e'; rewrite !within_grid; lia).
        tauto.
    + exists hc, i. split; [done|]. split; [lia|]. split; [done|]. split; [done|].
      split; [done|]. split; [done|].
      intros y Hy. assert (y = x) as -> by congruence. lia.
  - exists hc, i. split; [done|]. split; [lia|]. split; [done|]. split; [done|].
    split; [done|]. split; [done|].
    intros y Hy. apply lookup_lt_Some in Hy. unfold len in Hge. lia.
Qed.

Lemma insert_after_spec (fuel : nat) :
  forall (i : nat) (result : list ref),
    (i <= length intervals)%nat -> (length intervals - i < fuel)%nat ->
    insert_after fuel intervals (Z.of_nat i) result
    = Ret (result ++ drop i intervals).
Proof.
  induction fuel as [|fuel IH]; intros i result Hi Hfuel; [lia|].
  cbn [insert_after].
  destruct (decide (Z.of_nat i < len intervals)) as [Hlt|Hge].
  - destruct (py_index_in_range intervals (Z.of_nat i) ltac:(lia)) as [x [Hx ->]].
    bind_ret. rewrite Nat2Z.id in Hx.
    replace (Z.of_nat i + 1) with (Z.of_nat (S i)) by lia.
    rewrite IH by (unfold len in Hlt; lia).
    by rewrite <- app_assoc, (drop_S _ _ _ Hx).
  - rewrite drop_ge by (unfold len in Hge; lia). by rewrite app_nil_r.
Qed.

Lemma insert_interval_spec :
  exists h' result,
    insert_interval h intervals new_interval = Ret (h', result) /\
    separated h' result /\ Forall (well_formed h') result /\
    (forall t, covered h' result t <->
               covered h intervals t \/
               within (start_of h new_interval) (end_of h new_interval) t) /\
    (forall x, x <> new_interval -> h' x = h x) /\
    new_interval ∈ result.
Proof.
  unfold insert_interval.
  destruct (insert_before_spec (S (length intervals)) 0 [])
    as (i1 & Hrun1 & Hi1 & Hbefore & Hexit1); [lia..|].
  change (Z.of_nat 0) with 0 in Hrun1. rewrite Hrun1. bind_ret.
  rewrite Nat.sub_0_r, drop_0, app_nil_l.
  destruct (insert_absorb_spec i1 (S (length intervals)) i1 h)
    as (h2 & i2 & -> & Hi2 & Hagree & Hwf2 & Hbefore2 & Hcov & Hexit2);
    [lia|lia|done|done| | |done|].
  { intros j x Hj Hx.
    destruct (lookup_lt_is_Some_2 intervals i1) as [y Hy];
      [apply lookup_lt_Some in Hx; lia|].
    pose proof (Hexit1 y Hy).
    destruct (decide (j = i1)) as [->|Hne]; [by assert (x = y) as -> by congruence|].
    pose proof (separated_pairwise h intervals intervals_separated intervals_wf
                  i1 j y x ltac:(lia) Hy Hx).
    pose proof (proj1 (Forall_lookup _ _) intervals_wf j x Hx) as Hwx.
    unfold well_formed in Hwx. lia. }
  { intros j x Hj Hx. apply (Hbefore j); [lia|done]. }
  bind_ret. rewrite insert_after_spec by lia. bind_ret.
  assert (forall l, l ⊆ intervals -> forall x, x ∈ l -> h2 x = h x) as Hsame.
  { intros l Hl x Hx. apply Hagree. intros ->. by apply new_fresh, Hl. }
  assert (take i1 intervals ⊆ intervals) as Htake by apply subseteq_take.
  assert (drop i2 intervals ⊆ intervals) as Hdrop by apply subseteq_drop.
  exists h2, ((take i1 intervals ++ [new_interval]) ++ drop i2 intervals).
  split; [done|]. split; [|split; [|split; [|split; [done|]]]].
  - apply separated_app; [apply separated_app| |].
    + apply (separated_agree h); [by apply Hsame|].
      by apply separated_sublist.
    + intros j a b Ha Hb. destruct j; done.
    + intros x y Hx [= <-]. rewrite last_lookup in Hx.
      apply lookup_take_Some in Hx as [Hx Hlt].
      unfold end_of at 1. rewrite (Hagree x).
      * apply (Hbefore2 _ x Hlt Hx).
      * intros ->. apply new_fresh. by eapply list_elem_of_lookup_2.
    + apply (separated_agree h); [by apply Hsame|].
      by apply separated_sublist.
    + intros x y Hx Hy. rewrite last_snoc in Hx. injection Hx as <-.
      rewrite head_lookup, lookup_drop, Nat.add_0_r in Hy.
      unfold start_of at 1. rewrite (Hagree y).
      * by apply Hexit2.
      * intros ->. apply new_fresh. by eapply list_elem_of_lookup_2.
  - apply Forall_app. split; [apply Forall_app; split|].
    + apply Forall_forall. intros x Hx. unfold well_formed, start_of, end_of.
      rewrite (Hsame _ Htake x Hx).
      apply (proj1 (Forall_forall _ _) intervals_wf x). by apply Htake.
    + by apply Forall_singleton.
    + apply Forall_forall. intros x Hx. unfold well_formed, start_of, end_of.
      rewrite (Hsame _ Hdrop x Hx).
      apply (proj1 (Forall_forall _ _) intervals_wf x). by apply Hdrop.
  - intros t. rewrite !covered_app, covered_cons.
    rewrite (covered_agree h h2 (take i1 intervals)) by (by apply Hsame).
    rewrite (covered_agree h h2 (drop i2 intervals)) by (by apply Hsame).
    rewrite <- (take_drop i1 intervals) at 3. rewrite covered_app.
    pose proof (covered_nil h2 t). specialize (Hcov t). tauto.
  - rewrite !elem_of_app, list_elem_of_singleton. tauto.
Qed.

End insert.

Example test_insert_interval_1 :
  ('(h, result) ← insert_interval (fresh [(1, 3); (6, 9); (2, 5)]) [0; 1]%nat 2%nat;
   Ret (value h result)) = Ret [(1, 5); (6, 9)].
Proof. reflexivity. Qed.

Example test_insert_interval_2 :
  ('(h, result) ←
     insert_interval (fresh [(1, 2); (3, 5); (6, 7); (8, 10); (12, 16); (4, 8)])
       [0; 1; 2; 3; 4]%nat 5%nat;
   Ret (value h result)) = Ret [(1, 2); (3, 10); (12, 16)].
Proof. reflexivity. Qed.

(** X29.  For a list of intervals with [start <= end] in which each interval
    ends before the next one starts, and a new interval with
    [start <= end] that is not one of them, [insert_interval] returns a
    list of the same kind that covers exactly the times of the list and of
    the new interval, the times being the rationals.  The result holds
    [new_interval] itself, which the call has widened in place; no other
    interval is written. *)
Theorem insert_interval_covers (h : store) (intervals : list ref) (new_interval : ref) :
  separated h intervals -> Forall (well_formed h) intervals ->
  well_formed h new_interval -> new_interval ∉ intervals ->
  exists h' result,
    insert_interval h intervals new_interval = Ret (h', result) /\
    separated h' result /\ Forall (well_formed h') result /\
    (forall t : Q, covered h' result t <->
               covered h intervals t \/
               within (start_of h new_interval) (end_of h new_interval) t) /\
    (forall x, x <> new_interval -> h' x = h x) /\
    new_interval ∈ result.
Proof. apply insert_interval_spec. Qed.

Lemma insert_interval_covers_witness :
  exists h' result,
    insert_interval (fresh [(1, 3); (6, 9); (2, 5)]) [0; 1]%nat 2%nat
    = Ret (h', result) /\
    separated h' result /\ Forall (well_formed h') result /\
    (forall t : Q, covered h' result t <->
               covered (fresh [(1, 3); (6, 9); (2, 5)]) [0; 1]%nat t \/
               within (start_of (fresh [(1, 3); (6, 9); (2, 5)]) 2%nat)
                      (end_of (fresh [(1, 3); (6, 9); (2, 5)]) 2%nat) t) /\
    (forall x, x <> 2%nat -> h' x = fresh [(1, 3); (6, 9); (2, 5)] x) /\
    2%nat ∈ result.
Proof.
  apply (insert_interval_covers (fresh [(1, 3); (6, 9); (2, 5)]) [0; 1]%nat 2%nat).
  - intros [|[|i]] a b Ha Hb; simpl in Ha, Hb; simplify_eq. by vm_compute.
  - repeat constructor; by vm_compute.
  - by vm_compute.
  - intros Hin. repeat (apply elem_of_cons in Hin as [?|Hin]; [lia|]).
    by apply elem_of_nil in Hin.
Defined.


(** *** Free time *)

Lemma free_time_loop_spec (h : store) (merged : list ref) (n : nat) :
  forall (k : Z) (free_time : list (Z * Z)),
    1 <= k -> k + Z.of_nat n <= len merged ->
    exists free_time',
      free_time_loop h merged (seqZ k (Z.of_nat n)) free_time = Ret free_time' /\
      forall g, g ∈ free_time' <->
        g ∈ free_time \/
        exists (i : nat) (a b : ref),
          k <= Z.of_nat (S i) < k + Z.of_nat n /\
          merged !! i = Some a /\ merged !! S i = Some b /\
          g = (end_of h a, start_of h b) /\ end_of h a < start_of h b.
Proof.
  induction n as [|n IH]; intros k free_time Hk Hlen.
  - exists free_time. split; [done|]. intros g. split; [by left|].
    intros [?|(i & a & b & Hi & _)]; [done|lia].
  - rewrite seqZ_cons by lia. cbn [free_time_loop].
    destruct (py_index_in_range merged (k - 1) ltac:(lia)) as [prev [Hprev ->]].
    bind_ret.
    destruct (py_index_in_range merged k ltac:(lia)) as [cur [Hcur ->]]. bind_ret.
    replace (Z.pred (Z.of_nat (S n))) with (Z.of_nat n) by lia.
    assert (forall (i : nat) a b, Z.of_nat (S i) = k ->
              merged !! i = Some a -> merged !! S i = Some b ->
              a = prev /\ b = cur) as Hhere.
    { intros i a b Hi Ha Hb.
      replace (Z.to_nat (k - 1)) with i in Hprev by lia.
      replace (Z.to_nat k) with (S i) in Hcur by lia. split; congruence. }
    destruct (decide (end_of h prev < start_of h cur)) as [Hgap|Hnone].
    + destruct (IH (Z.succ k) (free_time ++ [(end_of h prev, start_of h cur)]))
        as (ft & -> & Hft); [lia..|].
      exists ft. split; [done|]. intros g. rewrite Hft, elem_of_app,
        list_elem_of_singleton. split.
      * intros [[?| ->]|(i & a & b & Hi & Hrest)]; [by left| |].
        -- right. exists (Z.to_nat (k - 1)), prev, cur.
           replace (S (Z.to_nat (k - 1))) with (Z.to_nat k) by lia.
           split; [lia|done].
        -- right. exists i, a, b. split; [lia|done].
      * intros [?|(i & a & b & Hi & Ha & Hb & -> & Hlt)]; [by left; left|].
        destruct (decide (Z.of_nat (S i) = k)) as [Heq|Hne].
        -- destruct (Hhere i a b Heq Ha Hb) as [-> ->]. by left; right.
        -- right. exists i, a, b. split; [lia|done].
    + destruct (IH (Z.succ k) free_time) as (ft & -> & Hft); [lia..|].
      exists ft. split; [done|]. intros g. rewrite Hft. split.
      * intros [?|(i & a & b & Hi & Hrest)]; [by left|].
        right. exists i, a, b. split; [lia|done].
      * intros [?|(i & a & b & Hi & Ha & Hb & -> & Hlt)]; [by left|].
        destruct (decide (Z.of_nat (S i) = k)) as [Heq|Hne].
        -- destruct (Hhere i a b Heq Ha Hb) as [-> ->]. lia.
        -- right. exists i, a, b. split; [lia|done].
Qed.

(** A free time between two intervals of a separated list lies between
    two neighbours. *)
Lemma gap_between (h : store) (m : list ref) (t : Q) (d : nat) :
  separated h m -> Forall (well_formed h) m -> ~ covered h m t ->
  forall (i : nat) (a b : ref),
    m !! i = Some a -> m !! (i + S d)%nat = Some b ->
    (inject_Z (end_of h a) < t)%Q -> (t < inject_Z (start_of h b))%Q ->
    exists (j : nat) (a' b' : ref),
      m !! j = Some a' /\ m !! S j = Some b' /\
      (inject_Z (end_of h a') < t < inject_Z (start_of h b'))%Q.
Proof.
  intros Hsep Hwf Hfree. induction d as [|d IH]; intros i a b Ha Hb Hat Htb.
  - exists i, a, b. replace (i + 1)%nat with (S i) in Hb by lia. split; [done|].
    split; [done|]. by split.
  - destruct (lookup_lt_is_Some_2 m (S i)) as [c Hc];
      [apply lookup_lt_Some in Hb; lia|].
    destruct (decide (grid t < 2 * start_of h c)) as [Hbefore|Hafter].
    + exists i, a, c. split; [done|]. split; [done|]. split; [done|times].
    + assert (inject_Z (end_of h c) < t)%Q as Hct.
      { destruct (decide (2 * end_of h c < grid t)) as [|Hin]; [times|exfalso].
        apply Hfree. exists c. split; [by eapply list_elem_of_lookup_2|times]. }
      apply (IH (S i) c b); [done| |done|done].
      by replace (S i + S d)%nat with (i + S (S d))%nat by lia.
Qed.

Example test_employee_free_time :
  ('(_, free_time) ←
     employee_free_time (fresh [(1, 3); (6, 7); (2, 4); (2, 5); (9, 12)])
       [[0; 1]; [2]; [3; 4]]%nat;
   Ret free_time) = Ret [(5, 6); (7, 9)].
Proof. reflexivity. Qed.

(** X30.  When every interval of the schedules has [start <= end],
    [employee_free_time] returns gaps [[a, b]] with [a < b], and a time lies
    strictly inside one of them exactly when no interval covers it while
    some interval ends before it and some interval starts after it.  The
    times are the rationals, so a gap between neighbouring integers holds
    times as well. *)
Theorem employee_free_time_gaps (h : store) (schedule : list (list ref)) :
  Forall (well_formed h) (mjoin schedule) ->
  exists h' free_time,
    employee_free_time h schedule = Ret (h', free_time) /\
    Forall (fun g => g.1 < g.2) free_time /\
    forall t : Q,
      (exists g, g ∈ free_time /\ (inject_Z g.1 < t < inject_Z g.2)%Q) <->
      (~ covered h (mjoin schedule) t /\
       (exists x, x ∈ mjoin schedule /\ (inject_Z (end_of h x) < t)%Q) /\
       (exists y, y ∈ mjoin schedule /\ (t < inject_Z (start_of h y))%Q)).
Proof.
  intros Hwf. set (xs := mjoin schedule) in *.
  destruct (merge_intervals_separated h xs Hwf) as (h1 & m & Hrun & Hsep & Hwf1).
  destruct (merge_intervals_covered h xs) as (h1' & m' & Hrun' & Hcov).
  rewrite Hrun in Hrun'. injection Hrun' as <- <-.
  assert (forall (i j : nat) a b, (i < j)%nat -> m !! i = Some a -> m !! j = Some b ->
            end_of h1 a < start_of h1 b) as Hpair
    by (by apply separated_pairwise).
  destruct m as [|m0 mrest] eqn:Hm.
  { (* no interval at all *)
    exists h1, []. unfold employee_free_time. fold xs. rewrite Hrun. bind_ret.
    split; [done|]. split; [constructor|]. intros t. split.
    - by intros (g & ?%elem_of_nil & _).
    - intros (_ & (x & Hx & Hxt) & _). exfalso.
      apply (covered_nil h1 (inject_Z (end_of h x))), Hcov. exists x.
      split; [done|].
      pose proof (proj1 (Forall_forall _ _) Hwf x Hx) as Hwx.
      unfold well_formed in Hwx. times. }
  rewrite <- Hm in *.
  assert (0 < length m)%nat as Hlen by (rewrite Hm; simpl; lia).
  destruct (free_time_loop_spec h1 m (length m - 1) 1 [])
    as (free_time & Hloop & Hgaps); [lia|unfold len; lia|].
  replace (Z.of_nat (length m - 1)) with (len m - 1) in Hloop by (unfold len; lia).
  exists h1, free_time. unfold employee_free_time. fold xs. rewrite Hrun. bind_ret.
  rewrite Hloop. bind_ret. split; [done|]. split.
  - apply Forall_forall. intros g [?%elem_of_nil|(i & a & b & _ & _ & _ & -> & Hlt)]%Hgaps;
      done.
  - assert (forall x, x ∈ xs ->
              covered h1 m (inject_Z (start_of h x)) /\
              covered h1 m (inject_Z (end_of h x)))
      as Hends.
    { intros x Hx. pose proof (proj1 (Forall_forall _ _) Hwf x Hx) as Hwx.
      unfold well_formed in Hwx.
      split; apply Hcov; exists x; (split; [done|times]). }
    intros t. split.
    + intros (g & [?%elem_of_nil|(i & a & b & _ & Ha & Hb & -> & _)]%Hgaps & Ht);
        [done|]. simpl in Ht.
      pose proof (proj1 (Forall_lookup _ _) Hwf1 i a Ha) as Hwa.
      pose proof (proj1 (Forall_lookup _ _) Hwf1 (S i) b Hb) as Hwb.
      unfold well_formed in Hwa, Hwb.
      assert (~ covered h1 m t) as Hfree.
      { intros (c & [j Hc]%list_elem_of_lookup & Hct).
        destruct (decide (j <= i)%nat) as [Hle|Hgt].
        - destruct (decide (j = i)) as [->|Hne];
            [assert (c = a) as -> by congruence; times|].
          pose proof (Hpair j i c a ltac:(lia) Hc Ha). times.
        - destruct (decide (j = S i)) as [->|Hne];
            [assert (c = b) as -> by congruence; times|].
          pose proof (Hpair (S i) j b c ltac:(lia) Hb Hc). times. }
      split; [by rewrite <- Hcov|]. split.
      * assert (covered h xs (inject_Z (start_of h1 a))) as (x & Hx & Hxa).
        { apply Hcov. exists a. split; [by eapply list_elem_of_lookup_2|times]. }
        exists x. split; [done|].
        destruct (decide (2 * end_of h x < grid t)) as [|Hin]; [times|exfalso].
        apply Hfree, Hcov. exists x. split; [done|times].
      * assert (covered h xs (inject_Z (start_of h1 b))) as (y & Hy & Hyb).
        { apply Hcov. exists b. split; [by eapply list_elem_of_lookup_2|times]. }
        exists y. split; [done|].
        destruct (decide (grid t < 2 * start_of h y)) as [|Hin]; [times|exfalso].
        apply Hfree, Hcov. exists y. split; [done|times].
    + intros (Hfree & (x & Hx & Hxt) & (y & Hy & Hty)).
      rewrite <- Hcov in Hfree.
      destruct (proj2 (Hends x Hx)) as (a & [i Ha]%list_elem_of_lookup & Hxa).
      destruct (proj1 (Hends y Hy)) as (b & [j Hb]%list_elem_of_lookup & Hyb).
      pose proof (proj1 (Forall_lookup _ _) Hwf1 i a Ha) as Hwa.
      pose proof (proj1 (Forall_lookup _ _) Hwf1 j b Hb) as Hwb.
      unfold well_formed in Hwa, Hwb.
      assert (inject_Z (end_of h1 a) < t)%Q as Hat.
      { destruct (decide (2 * end_of h1 a < grid t)) as [|Hin]; [times|exfalso].
        apply Hfree. exists a. split; [by eapply list_elem_of_lookup_2|times]. }
      assert (t < inject_Z (start_of h1 b))%Q as Htb.
      { destruct (decide (grid t < 2 * start_of h1 b)) as [|Hin]; [times|exfalso].
        apply Hfree. exists b. split; [by eapply list_elem_of_lookup_2|times]. }
      assert (i < j)%nat as Hij.
      { destruct (decide (i < j)%nat) as [|Hge]; [done|exfalso].
        destruct (decide (i = j)) as [->|Hne];
          [assert (a = b) as -> by congruence; times|].
        pose proof (Hpair j i b a ltac:(lia) Hb Ha). times. }
      destruct (gap_between h1 m t (j - S i) Hsep Hwf1 Hfree i a b Ha)
        as (k & a' & b' & Ha' & Hb' & Ht); [|done|done|].
      { by replace (i + S (j - S i))%nat with j by lia. }
      exists (end_of h1 a', start_of h1 b'). split; [|done].
      apply Hgaps. right. exists k, a', b'.
      pose proof (lookup_lt_Some _ _ _ Hb') as Hk. split; [unfold len; lia|].
      split; [done|]. split; [done|]. split; [done|times].
Qed.

Lemma employee_free_time_gaps_witness :
  exists h' free_time,
    employee_free_time (fresh [(1, 3); (6, 7); (2, 4); (2, 5); (9, 12)])
      [[0; 1]; [2]; [3; 4]]%nat = Ret (h', free_time) /\
    Forall (fun g => g.1 < g.2) free_time /\
    forall t : Q,
      (exists g, g ∈ free_time /\ (inject_Z g.1 < t < inject_Z g.2)%Q) <->
      (~ covered (fresh [(1, 3); (6, 7); (2, 4); (2, 5); (9, 12)])
           (mjoin [[0; 1]; [2]; [3; 4]]%nat) t /\
       (exists x, x ∈ mjoin [[0; 1]; [2]; [3; 4]]%nat /\
          Qlt (inject_Z
                 (end_of (fresh [(1, 3); (6, 7); (2, 4); (2, 5); (9, 12)]) x)) t) /\
       (exists y, y ∈ mjoin [[0; 1]; [2]; [3; 4]]%nat /\
          Qlt t (inject_Z
                   (start_of (fresh [(1, 3); (6, 7); (2, 4); (2, 5); (9, 12)]) y)))).
Proof.
  apply (employee_free_time_gaps (fresh [(1, 3); (6, 7); (2, 4); (2, 5); (9, 12)])
           [[0; 1]; [2]; [3; 4]]%nat).
  repeat constructor; by vm_compute.
Defined.

End MergeIntervalsSpec.
(** ** fast_slow_pointers.py *)

Module FastSlowPointersSpec.
Import FastSlowPointers.

Example test_has_cycle_1 : has_cycle test_cyclic (Some 0%nat) = Ret true.
Proof. reflexivity. Qed.
Example test_has_cycle_2 : has_cycle test_acyclic (Some 0%nat) = Ret false.
Proof. reflexivity. Qed.
Example test_cycle_start : find_cycle_start test_cyclic (Some 0%nat) = Ret (Some 1%nat).
Proof. reflexivity. Qed.

Local Open Scope nat_scope.

(** Either a list of nodes has no repetition, or some node occurs at two
    positions. *)
Lemma NoDup_or_repeat (l : list nat) :
  NoDup l \/ exists i j a, i < j /\ l !! i = Some a /\ l !! j = Some a.
Proof.
  induction l as [|a l [IH|(i & j & b & Hij & Hi & Hj)]].
  - left. constructor.
  - destruct (decide (a ∈ l)) as [[j Hj]%list_elem_of_lookup|Hnotin].
    + right. exists 0, (S j), a. split; [lia|done].
    + left. by constructor.
  - right. exists (S i), (S j), b. split; [lia|done].
Qed.

Section chain.
Variable h : heap.
Variable head : option nat.

(** The [i]-th node of the traversal. *)
Abbreviation hop i := (walk h i head).

Lemma walk_None (n : nat) : walk h n None = None.
Proof. induction n; simpl; auto. Qed.

Lemma walk_add (a b : nat) (y : option nat) :
  walk h (a + b) y = walk h b (walk h a y).
Proof. revert y. induction a as [|a IH]; intros y; simpl; auto. Qed.

Lemma walk_S_r (n : nat) (y : option nat) :
  walk h (S n) y = walk h n y ≫= next_of h.
Proof. replace (S n) with (n + 1) by lia. by rewrite walk_add. Qed.

Lemma walk_is_Some_le (n m : nat) (y : option nat) :
  m <= n -> is_Some (walk h n y) -> is_Some (walk h m y).
Proof.
  intros Hle. replace n with (m + (n - m)) by lia. rewrite walk_add.
  destruct (walk h m y); [by eauto|]. rewrite walk_None. by intros [? ?].
Qed.

Lemma walk_None_ge (n m : nat) (y : option nat) :
  n <= m -> walk h n y = None -> walk h m y = None.
Proof.
  intros Hle Hn. replace m with (n + (m - n)) by lia.
  by rewrite walk_add, Hn, walk_None.
Qed.

Lemma next_of_lt (a b : nat) : next_of h a = Some b -> a < length h.
Proof.
  unfold next_of. destruct (h !! a) eqn:E; [|done].
  intros _. by eapply lookup_lt_Some.
Qed.

(** A node with a successor is a node of the arena. *)
Lemma walk_lt (n a : nat) : hop n = Some a -> is_Some (hop (S n)) -> a < length h.
Proof.
  intros Ha [b Hb]. rewrite walk_S_r, Ha in Hb. by eapply next_of_lt.
Qed.

(** Pigeonhole: a traversal that is still going after [length h + 1] steps
    has come back to a node. *)
Lemma chain_repeats :
  (forall i, i <= S (length h) -> is_Some (hop i)) ->
  exists i j, i < j <= length h /\ hop i = hop j.
Proof.
  intros Hall.
  set (nodes := (fun i => default 0 (hop i)) <$> seq 0 (S (length h))).
  assert (forall i a, nodes !! i = Some a -> i <= length h /\ hop i = Some a) as Hnodes.
  { intros i a Hi. unfold nodes in Hi.
    apply list_lookup_fmap_Some in Hi as (i' & -> & Hi').
    apply lookup_seq in Hi' as [-> Hlt]. simpl. split; [lia|].
    destruct (Hall i ltac:(lia)) as [b ->]. done. }
  destruct (NoDup_or_repeat nodes) as [Hnd|(i & j & a & Hij & Hi & Hj)].
  - exfalso.
    assert (length nodes <= length (seq 0 (length h))) as Hlen.
    { apply NoDup_incl_length; [by apply NoDup_ListNoDup|].
      intros a Ha. apply list_elem_of_In in Ha.
      apply list_elem_of_lookup in Ha as [i Hi].
      destruct (Hnodes i a Hi) as [Hle Ha].
      apply list_elem_of_In, elem_of_seq. split; [lia|]. simpl.
      apply (walk_lt i a Ha). apply Hall. lia. }
    unfold nodes in Hlen. rewrite length_fmap, !length_seq in Hlen. lia.
  - destruct (Hnodes i a Hi) as [_ Hxi].
    destruct (Hnodes j a Hj) as [Hle Hxj].
    exists i, j. split; [lia|congruence].
Qed.

(** From a repeated node on, the traversal is periodic. *)
Lemma walk_periodic (i p : nat) :
  hop i = hop (i + p) -> forall c n, i <= n -> hop (n + c * p) = hop n.
Proof.
  intros Hrep.
  assert (forall n, i <= n -> hop (n + p) = hop n) as Hone.
  { intros n Hn. replace (n + p) with ((i + p) + (n - i)) by lia.
    rewrite walk_add, <- Hrep, <- walk_add. f_equal. lia. }
  induction c as [|c IH]; intros n Hn.
  - f_equal. lia.
  - replace (n + S c * p) with ((n + c * p) + p) by lia.
    rewrite Hone by lia. by apply IH.
Qed.

(** A traversal that never ends brings the two pointers together within
    [length h] rounds. *)
Lemma meeting_exists :
  (forall i, is_Some (hop i)) ->
  exists T, 1 <= T <= length h /\ hop T = hop (2 * T).
Proof.
  intros Hall.
  destruct chain_repeats as (i & j & Hij & Hrep); [auto|].
  set (p := j - i).
  assert (0 < p) as Hp by (unfold p; lia).
  replace j with (i + p) in Hrep by (unfold p; lia).
  exists (p * (1 + i / p)).
  pose proof (Nat.div_mod_eq i p) as Hdm.
  pose proof (Nat.mod_upper_bound i p ltac:(lia)) as Hmod.
  split; [unfold p in *; nia|].
  replace (2 * (p * (1 + i / p))) with (p * (1 + i / p) + (1 + i / p) * p) by lia.
  symmetry. apply (walk_periodic i p Hrep). nia.
Qed.

(** *** Chains with a cycle *)

Lemma walk_cycle (k p : nat) :
  walk h p (Some k) = Some k -> forall c, walk h (c * p) (Some k) = Some k.
Proof.
  intros Hp. induction c as [|c IH]; [done|].
  replace (S c * p) with (c * p + p) by lia. by rewrite walk_add, IH.
Qed.

Lemma cyclic_all_Some (k : nat) :
  cycle_starts_at h head k -> forall n, is_Some (hop n).
Proof.
  intros (mu & Hmu & (p & Hp & Hper) & _) n.
  apply (walk_is_Some_le (mu + (S n) * p) n); [nia|].
  rewrite walk_add, Hmu, (walk_cycle k p Hper). by eauto.
Qed.

(** Where the two pointers meet, the traversal is on the cycle: the meeting
    round is not before the start of the cycle, and it is a period of the
    first node of the cycle. *)
Lemma meeting_on_cycle (k mu T : nat) :
  hop mu = Some k -> on_cycle h k ->
  (forall i y, i < mu -> hop i = Some y -> ~ on_cycle h y) ->
  1 <= T -> hop T = hop (2 * T) -> is_Some (hop T) ->
  mu <= T /\ walk h T (Some k) = Some k.
Proof.
  intros Hmu (p & Hp & Hper) Hfirst HT Hmeet [z Hz].
  assert (walk h T (Some z) = Some z) as Hzper.
  { rewrite <- Hz at 1. rewrite <- walk_add.
    replace (T + T) with (2 * T) by lia. congruence. }
  assert (mu <= T) as Hle.
  { destruct (decide (mu <= T)) as [|Hlt]; [done|].
    exfalso. apply (Hfirst T z ltac:(lia) Hz). by exists T. }
  split; [done|].
  set (d := T - mu).
  assert (walk h d (Some k) = Some z) as Hd.
  { rewrite <- Hmu, <- walk_add. replace (mu + d) with T by (unfold d; lia). done. }
  assert (walk h (S d * p - d) (Some z) = Some k) as Hback.
  { rewrite <- Hd, <- walk_add.
    replace (d + (S d * p - d)) with (S d * p) by nia.
    by apply walk_cycle. }
  rewrite <- Hback at 1. rewrite <- walk_add.
  replace (S d * p - d + T) with (T + (S d * p - d)) by lia.
  by rewrite walk_add, Hzper.
Qed.

Lemma attr_next_walk (i : nat) :
  is_Some (hop i) -> attr_next h (hop i) = Ret (hop (S i)).
Proof. intros [a Ha]. rewrite walk_S_r, Ha. done. Qed.

(** The first loop, started with [slow] after [s] rounds: it leaves by
    [break] at the first round [T1] after [s] where the pointers meet. *)
Lemma meet_loop_meets (fuel : nat) : forall s T,
  (forall n, is_Some (hop n)) ->
  s < T -> hop T = hop (2 * T) -> T - s <= fuel ->
  exists T1, s < T1 <= T /\ hop T1 = hop (2 * T1) /\
    meet_loop fuel h (hop s) (hop (2 * s)) = Ret (Some (hop T1)).
Proof.
  induction fuel as [|fuel IH]; intros s T Hall HsT Hmeet Hfuel; [lia|].
  cbn [meet_loop].
  rewrite <- walk_S_r. destruct (Hall (S (2 * s))) as [fast_next Hfn].
  rewrite Hfn. rewrite attr_next_walk by auto. bind_ret.
  assert (next_of h fast_next = hop (2 * S s)) as ->.
  { replace (2 * S s) with (S (S (2 * s))) by lia.
    by rewrite (walk_S_r (S (2 * s))), Hfn. }
  destruct (decide (hop (S s) = hop (2 * S s))) as [Heq|Hne].
  - exists (S s). split; [lia|]. done.
  - assert (S s < T) as Hlt.
    { destruct (decide (S s = T)) as [E|]; [|lia]. by rewrite E in Hne. }
    destruct (IH (S s) T Hall Hlt Hmeet ltac:(lia)) as (T1 & HT1 & Hm & Hrun).
    exists T1. split; [lia|]. done.
Qed.

(** The second loop, after [j] rounds: it stops at the start of the
    cycle. *)
Lemma cycle_start_loop_finds (k mu T : nat) :
  (forall n, is_Some (hop n)) ->
  hop mu = Some k ->
  (forall i y, i < mu -> hop i = Some y -> ~ on_cycle h y) ->
  1 <= T -> walk h T (Some k) = Some k ->
  forall fuel j, j <= mu -> mu - j < fuel ->
    cycle_start_loop fuel h (hop j) (hop (T + j)) = Ret (Some k).
Proof.
  intros Hall Hmu Hfirst HT Hper.
  induction fuel as [|fuel IH]; intros j Hj Hfuel; [lia|].
  cbn [cycle_start_loop].
  destruct (decide (j = mu)) as [->|Hne].
  - assert (hop (T + mu) = hop mu) as ->.
    { replace (T + mu) with (mu + T) by lia. by rewrite walk_add, Hmu, Hper. }
    rewrite decide_False by (intros Hneq; by apply Hneq). by rewrite Hmu.
  - destruct (Hall j) as [y Hy].
    rewrite decide_True.
    + rewrite !attr_next_walk by auto. bind_ret.
      replace (S (T + j)) with (T + S j) by lia. apply IH; lia.
    + intros Heq. apply (Hfirst j y ltac:(lia) Hy). exists T. split; [lia|].
      rewrite <- Hy at 1. rewrite <- walk_add.
      replace (j + T) with (T + j) by lia. congruence.
Qed.

(** *** Chains that end *)

Lemma acyclic_no_meeting (n i : nat) :
  hop n = None -> 1 <= i -> hop i = hop (2 * i) -> hop i = None.
Proof.
  intros Hn Hi Hmeet.
  destruct (hop i) as [a|] eqn:Ha; [|done]. exfalso.
  assert (hop (i + i) = hop i) as Hrep.
  { replace (i + i) with (2 * i) by lia. congruence. }
  pose proof (walk_periodic i i (eq_sym Hrep) n i ltac:(lia)) as Hper.
  rewrite (walk_None_ge n (i + n * i)) in Hper; [congruence|nia|done].
Qed.

(** The first loop on a chain that ends after [n] nodes: the condition
    fails and the [else] clause runs. *)
Lemma meet_loop_ends (n : nat) :
  hop n = None ->
  forall fuel s, 1 <= fuel -> n + 2 <= 2 * (s + fuel) ->
    meet_loop fuel h (hop s) (hop (2 * s)) = Ret None.
Proof.
  intros Hn. induction fuel as [|fuel IH]; intros s Hfuel Hbound; [lia|].
  cbn [meet_loop]. rewrite <- walk_S_r.
  destruct (hop (S (2 * s))) as [fast_next|] eqn:Hfn; [|done].
  assert (S (2 * s) < n) as Hlt.
  { destruct (decide (S (2 * s) < n)) as [|Hge]; [done|].
    rewrite (walk_None_ge n (S (2 * s))) in Hfn; [done|lia|done]. }
  assert (is_Some (hop s)) as Hs.
  { apply (walk_is_Some_le (S (2 * s)) s); [lia|]. rewrite Hfn. by eauto. }
  rewrite attr_next_walk by done. bind_ret.
  assert (next_of h fast_next = hop (2 * S s)) as ->.
  { replace (2 * S s) with (S (S (2 * s))) by lia.
    by rewrite (walk_S_r (S (2 * s))), Hfn. }
  assert (is_Some (hop (S s))) as [a Ha].
  { apply (walk_is_Some_le (S (2 * s)) (S s)); [lia|]. rewrite Hfn. by eauto. }
  rewrite decide_False.
  - apply IH; lia.
  - intros Heq.
    pose proof (acyclic_no_meeting n (S s) Hn ltac:(lia) Heq). congruence.
Qed.

(** A chain that ends has at most [length h + 1] nodes. *)
Lemma acyclic_short :
  acyclic h head -> exists n, n <= S (length h) /\ hop n = None.
Proof.
  intros [n Hn].
  destruct (decide (Forall (fun i => is_Some (hop i)) (seq 0 (S (S (length h))))))
    as [Hall|Hex].
  - exfalso.
    destruct chain_repeats as (i & j & Hij & Hrep).
    { intros i Hi. apply (proj1 (Forall_forall _ _) Hall).
      apply elem_of_seq. lia. }
    replace j with (i + (j - i)) in Hrep by lia.
    pose proof (walk_periodic i (j - i) Hrep n i ltac:(lia)) as Hper.
    rewrite (walk_None_ge n (i + n * (j - i))) in Hper; [|nia|done].
    destruct (proj1 (Forall_forall _ _) Hall i) as [a Ha].
    { apply elem_of_seq. lia. }
    congruence.
  - apply not_Forall_Exists in Hex; [|apply _].
    apply Exists_exists in Hex as (m & Hm & Hnone).
    apply elem_of_seq in Hm.
    exists m. split; [lia|].
    destruct (hop m) as [b|] eqn:E; [|done].
    exfalso. apply Hnone. rewrite E. by exists b.
Qed.

(** *** The two entry points *)

(** [has_cycle] runs the first loop of [find_cycle_start] and reports how it
    was left. *)
Lemma has_cycle_loop_meet_loop (fuel : nat) : forall slow fast,
  has_cycle_loop fuel h slow fast
  = met ← meet_loop fuel h slow fast; Ret (bool_decide (is_Some met)).
Proof.
  induction fuel as [|fuel IH]; intros slow fast; [done|].
  cbn [has_cycle_loop meet_loop].
  destruct (fast ≫= next_of h) as [fast_next|]; [|done].
  destruct (attr_next h slow) as [slow'| |]; [|done..].
  bind_ret.
  destruct (decide (slow' = next_of h fast_next)); [done|]. apply IH.
Qed.

Lemma cyclic_results (k : nat) :
  cycle_starts_at h head k ->
  has_cycle h head = Ret true /\ find_cycle_start h head = Ret (Some k).
Proof.
  intros Hcyc.
  pose proof (cyclic_all_Some k Hcyc) as Hall.
  destruct Hcyc as (mu & Hmu & Hon & Hfirst).
  destruct (meeting_exists Hall) as (T & HT & Hmeet).
  destruct (meet_loop_meets (length h + 2) 0 T Hall ltac:(lia) Hmeet ltac:(lia))
    as (T1 & HT1 & Hmeet1 & Hrun).
  change (hop (2 * 0)) with head in Hrun. change (hop 0) with head in Hrun.
  destruct (meeting_on_cycle k mu T1 Hmu Hon Hfirst ltac:(lia) Hmeet1 (Hall T1))
    as [Hle Hper].
  destruct (Hall 1) as [second Hsecond]. simpl in Hsecond.
  unfold has_cycle, find_cycle_start. rewrite Hsecond. split.
  - rewrite has_cycle_loop_meet_loop, Hrun. done.
  - rewrite Hrun. bind_ret.
    pose proof (cycle_start_loop_finds k mu T1 Hall Hmu Hfirst ltac:(lia) Hper
                  (length h + 1) 0 ltac:(lia) ltac:(lia)) as Hstart.
    replace (T1 + 0) with T1 in Hstart by lia. exact Hstart.
Qed.

Lemma acyclic_results :
  acyclic h head ->
  has_cycle h head = Ret false /\ find_cycle_start h head = Ret None.
Proof.
  intros (n & Hle & Hn)%acyclic_short.
  unfold has_cycle, find_cycle_start.
  destruct (head ≫= next_of h) as [second|]; [|done].
  pose proof (meet_loop_ends n Hn (length h + 2) 0 ltac:(lia) ltac:(lia)) as Hrun.
  change (hop (2 * 0)) with head in Hrun. change (hop 0) with head in Hrun.
  split.
  - rewrite has_cycle_loop_meet_loop, Hrun. done.
  - rewrite Hrun. done.
Qed.

End chain.
(** A node that no node points to is on no cycle. *)
Lemma no_predecessor_not_on_cycle (h : heap) (y : nat) :
  (forall a, next_of h a <> Some y) -> ~ on_cycle h y.
Proof.
  intros Hpred (p & Hp & Hper).
  destruct p as [|p]; [lia|].
  rewrite walk_S_r in Hper.
  destruct (walk h p (Some y)) as [a|]; [|done].
  by apply (Hpred a).
Qed.

(** C5.  If the chain from [head] has a cycle whose first node in
    traversal order is [k], then [has_cycle] returns [True] and
    [find_cycle_start] returns [k]; if the chain ends, [has_cycle] returns
    [False] and [find_cycle_start] returns [None]. *)
Theorem floyd_cycle_detection (h : heap) (head : option nat) :
  (forall k, cycle_starts_at h head k ->
     has_cycle h head = Ret true /\ find_cycle_start h head = Ret (Some k)) /\
  (acyclic h head ->
     has_cycle h head = Ret false /\ find_cycle_start h head = Ret None).
Proof.
  split; [apply cyclic_results|apply acyclic_results].
Qed.

Lemma floyd_cycle_detection_witness :
  (has_cycle test_cyclic (Some 0) = Ret true /\
   find_cycle_start test_cyclic (Some 0) = Ret (Some 1)) /\
  (has_cycle test_acyclic (Some 0) = Ret false /\
   find_cycle_start test_acyclic (Some 0) = Ret None).
Proof.
  split.
  - apply (proj1 (floyd_cycle_detection test_cyclic (Some 0)) 1).
    exists 1. split; [reflexivity|]. split.
    + exists 2. split; [lia|reflexivity].
    + intros i y Hi. assert (i = 0) as -> by lia. simpl. intros [= <-].
      apply no_predecessor_not_on_cycle.
      intros [|[|[|a]]]; simpl; discriminate.
  - apply (proj2 (floyd_cycle_detection test_acyclic (Some 0))).
    exists 3. reflexivity.
Defined.


(** *** The middle node *)

Section middle.
Variable h : heap.
Variable head : option nat.

Lemma find_middle_node_loop_ends (n : nat) :
  walk h n head = None ->
  (forall i, i < n -> is_Some (walk h i head)) ->
  forall fuel s, 2 * s <= n -> n < 2 * (s + fuel) ->
    find_middle_node_loop fuel h (walk h s head) (walk h (2 * s) head)
    = Ret (walk h (n / 2) head).
Proof.
  intros Hn Hsome. induction fuel as [|fuel IH]; intros s Hs Hfuel; [lia|].
  cbn [find_middle_node_loop]. rewrite <- walk_S_r.
  destruct (walk h (S (2 * s)) head) as [fast_next|] eqn:Hfn.
  - assert (S (2 * s) < n) as Hlt.
    { destruct (decide (S (2 * s) < n)) as [|Hge]; [done|].
      rewrite (walk_None_ge h n (S (2 * s))) in Hfn; [done|lia|done]. }
    rewrite attr_next_walk by (apply Hsome; lia). bind_ret.
    assert (next_of h fast_next = walk h (2 * S s) head) as ->.
    { replace (2 * S s) with (S (S (2 * s))) by lia.
      by rewrite (walk_S_r h (S (2 * s))), Hfn. }
    apply IH; lia.
  - assert (n <= S (2 * s)) as Hle.
    { destruct (decide (n <= S (2 * s))) as [|Hgt]; [done|].
      destruct (Hsome (S (2 * s)) ltac:(lia)) as [a Ha]. congruence. }
    assert (n / 2 = s) as ->; [|done].
    symmetry. apply (Nat.div_unique n 2 s (n - 2 * s)); lia.
Qed.

Lemma find_middle_node_loop_diverges :
  (forall i, is_Some (walk h i head)) ->
  forall fuel s,
    find_middle_node_loop fuel h (walk h s head) (walk h (2 * s) head) = OutOfFuel.
Proof.
  intros Hsome. induction fuel as [|fuel IH]; intros s; [done|].
  cbn [find_middle_node_loop]. rewrite <- walk_S_r.
  destruct (Hsome (S (2 * s))) as [fast_next Hfn]. rewrite Hfn.
  rewrite attr_next_walk by apply Hsome. bind_ret.
  assert (next_of h fast_next = walk h (2 * S s) head) as ->.
  { replace (2 * S s) with (S (S (2 * s))) by lia.
    by rewrite (walk_S_r h (S (2 * s))), Hfn. }
  apply IH.
Qed.

End middle.

(** X25.  On a list of [n] nodes that ends, [find_middle_node] returns the
    node at position [n // 2], counted from 0: the middle node, and the
    second of the two middle nodes when [n] is even; for an empty list it
    returns [None]. *)
Theorem find_middle_node_middle (h : heap) (head : option nat) (n : nat) :
  walk h n head = None ->
  (forall i, i < n -> is_Some (walk h i head)) ->
  find_middle_node h head = Ret (walk h (n / 2) head).
Proof.
  intros Hn Hsome. unfold find_middle_node.
  destruct head as [x|] eqn:Hhead; [|by rewrite walk_None].
  rewrite <- Hhead in *.
  destruct (acyclic_short h head) as (m & Hm & Hmn); [by exists n|].
  assert (n <= m) as Hnm.
  { destruct (decide (n <= m)) as [|Hgt]; [done|].
    destruct (Hsome m ltac:(lia)) as [a Ha]. congruence. }
  apply (find_middle_node_loop_ends h head n Hn Hsome (length h + 2) 0); lia.
Qed.

Lemma find_middle_node_middle_witness :
  find_middle_node test_acyclic (Some 0) = Ret (walk test_acyclic (3 / 2) (Some 0)).
Proof.
  apply (find_middle_node_middle test_acyclic (Some 0) 3).
  - reflexivity.
  - intros [|[|[|i]]] Hi; simpl; eauto. lia.
Defined.

(** X26.  On a list that runs into a cycle, the loop of [find_middle_node]
    never ends: whatever the fuel, the model runs out of it. *)
Theorem find_middle_node_diverges (h : heap) (head : option nat) (mu k : nat) :
  walk h mu head = Some k -> on_cycle h k ->
  forall fuel, find_middle_node_loop fuel h head head = OutOfFuel.
Proof.
  intros Hmu (p & Hp & Hper) fuel.
  apply (find_middle_node_loop_diverges h head) with (s := 0).
  intros n. apply (walk_is_Some_le h (mu + (S n) * p) n); [nia|].
  rewrite walk_add, Hmu, (walk_cycle h k p Hper). by eauto.
Qed.

Lemma find_middle_node_diverges_witness :
  find_middle_node_loop (length test_cyclic + 2) test_cyclic (Some 0) (Some 0)
  = OutOfFuel.
Proof.
  apply (find_middle_node_diverges test_cyclic (Some 0) 1 1).
  - reflexivity.
  - exists 2. split; [lia|reflexivity].
Defined.

End FastSlowPointersSpec.

(** ** graph_traversal.py *)

Module GraphTraversalSpec.
Import GraphTraversal.

Example demo_dfs_recursive :
  dfs_recursive recursion_limit demo_graph 0 = Ret [0; 1; 3; 4; 2; 5; 6].
Proof. vm_compute. reflexivity. Qed.
Example demo_dfs_iterative : dfs_iterative demo_graph 0 = Ret [0; 1; 3; 4; 2; 5; 6].
Proof. vm_compute. reflexivity. Qed.

Local Open Scope nat_scope.

(** *** The stack after the neighbours were pushed *)

Lemma push_unvisited_reverse (visited : gset Z) (l stack : list Z) :
  push_unvisited visited l stack
  = reverse (filter (fun n => n ∉ visited) l) ++ stack.
Proof.
  revert stack. induction l as [|n l IH]; intros stack; [done|].
  cbn [push_unvisited]. rewrite IH.
  destruct (decide (n ∈ visited)) as [Hin|Hnotin].
  - by rewrite filter_cons_False by (intros Hn; by apply Hn).
  - rewrite filter_cons_True by done. by rewrite reverse_cons, <- app_assoc.
Qed.

(** Pushing the reversed list leaves the unvisited neighbours on the stack
    in their order in the graph: the first one is on top. *)
Lemma push_unvisited_order (visited : gset Z) (neighbors stack : list Z) :
  push_unvisited visited (reverse neighbors) stack
  = filter (fun n => n ∉ visited) neighbors ++ stack.
Proof.
  by rewrite push_unvisited_reverse, filter_reverse, reverse_involutive.
Qed.

(** *** More fuel does not change a result *)

Lemma dfs_iterative_loop_more_fuel (g : graph) (fuel : nat) :
  forall stack visited result,
    dfs_iterative_loop fuel g stack visited result <> OutOfFuel ->
    forall k, dfs_iterative_loop (fuel + k) g stack visited result
              = dfs_iterative_loop fuel g stack visited result.
Proof.
  induction fuel as [|fuel IH]; intros stack visited result Hrun k; [done|].
  cbn [dfs_iterative_loop Nat.add] in *.
  destruct stack as [|vertex stack]; [done|].
  destruct (decide (vertex ∈ visited)); [by apply IH|].
  destruct (adj g vertex) as [neighbors| |]; [|done..].
  bind_ret in *. by apply IH.
Qed.

(** *** The set [visited] grows *)

Section growth.
Variable g : graph.

Lemma visit_neighbors_grows (self : Z -> gset Z -> outcome (list Z * gset Z)) :
  (forall v visited r visited',
     self v visited = Ret (r, visited') -> visited ⊆ visited') ->
  forall neighbors result visited r visited',
    visit_neighbors self neighbors result visited = Ret (r, visited') ->
    visited ⊆ visited'.
Proof.
  intros Hself. induction neighbors as [|n ns IH];
    intros result visited r visited' Hrun; cbn [visit_neighbors] in Hrun.
  - by simplify_eq.
  - destruct (decide (n ∈ visited)); [by eapply IH|].
    destruct (self n visited) as [[sub visited1]| |] eqn:Hsub; [|done..].
    bind_ret in Hrun.
    apply Hself in Hsub. apply IH in Hrun. set_solver.
Qed.

Lemma dfs_recursive_from_grows (frames : nat) :
  forall v visited r visited',
    dfs_recursive_from frames g v visited = Ret (r, visited') ->
    {[v]} ∪ visited ⊆ visited'.
Proof.
  induction frames as [|frames IH]; intros v visited r visited' Hrun; [done|].
  cbn [dfs_recursive_from] in Hrun.
  destruct (adj g v) as [neighbors| |]; [|done..].
  bind_ret in Hrun.
  eapply visit_neighbors_grows; [|exact Hrun].
  intros u vis r1 vis1 Hsub. apply IH in Hsub. set_solver.
Qed.

End growth.

(** *** The iterative loop follows the recursion *)

Lemma simulates_after (o : outcome (list Z * gset Z))
    (run1 run2 : nat -> outcome (list Z)) continue (n1 : nat) :
  (forall k, run1 (n1 + k) = run2 k) ->
  simulates o run2 continue -> simulates o run1 continue.
Proof.
  intros Hpre. destruct o as [[r visited']|e|]; [|destruct e|done]; try done;
    intros [n Hn]; exists (n1 + n); intros k;
    by rewrite <- Nat.add_assoc, Hpre, Hn.
Qed.

Section simulation.
Variable g : graph.

(** The neighbours that were pushed when [visited0] was the set of visited
    vertices, met again when it has grown to [visited]. *)
Lemma visit_neighbors_simulated
    (self : Z -> gset Z -> outcome (list Z * gset Z)) (visited0 : gset Z)
    (stack res : list Z) :
  (forall v visited r visited',
     self v visited = Ret (r, visited') -> visited ⊆ visited') ->
  (forall v visited stack res, v ∉ visited ->
     simulates (self v visited) (run_from g (v :: stack) visited res)
       (resume g stack res)) ->
  forall neighbors result visited,
    visited0 ⊆ visited ->
    simulates (visit_neighbors self neighbors result visited)
      (run_from g (filter (fun n => n ∉ visited0) neighbors ++ stack) visited
         (res ++ result))
      (resume g stack res).
Proof.
  intros Hgrow Hself.
  induction neighbors as [|x ns IH]; intros result visited Hsub.
  { exists 0. intros k. done. }
  cbn [visit_neighbors].
  destruct (decide (x ∈ visited)) as [Hseen|Hnew].
  - (* already visited: skipped by both *)
    destruct (decide (x ∈ visited0)) as [Hseen0|Hnew0].
    + rewrite filter_cons_False by (intros Hn; by apply Hn). by apply IH.
    + rewrite filter_cons_True by done.
      apply (simulates_after _ _
               (run_from g (filter (fun n => n ∉ visited0) ns ++ stack) visited
                  (res ++ result)) _ 1); [|by apply IH].
      intros k. unfold run_from. cbn [dfs_iterative_loop Nat.add app].
      by rewrite decide_True.
  - (* a new vertex: the call, and the rounds of the loop that match it *)
    rewrite filter_cons_True by set_solver.
    specialize (Hself x visited (filter (fun n => n ∉ visited0) ns ++ stack)
                  (res ++ result) Hnew).
    destruct (self x visited) as [[sub visited1]|e|] eqn:Hcall;
      bind_ret; [| exact Hself | done].
    destruct Hself as [n1 Hn1].
    apply (simulates_after _ _
             (run_from g (filter (fun n => n ∉ visited0) ns ++ stack) visited1
                (res ++ (result ++ sub))) _ n1).
    + intros k. rewrite app_assoc. apply Hn1.
    + apply IH. apply Hgrow in Hcall. set_solver.
Qed.

Lemma adj_raises (v : Z) (e : exn) : adj g v = Raise e -> e = KeyError.
Proof. unfold adj. destruct (g !! v); congruence. Qed.

Lemma dfs_recursive_from_simulated (frames : nat) :
  forall v visited stack res, v ∉ visited ->
    simulates (dfs_recursive_from frames g v visited)
      (run_from g (v :: stack) visited res) (resume g stack res).
Proof.
  induction frames as [|frames IH]; intros v visited stack res Hnew; [done|].
  cbn [dfs_recursive_from].
  destruct (adj g v) as [neighbors|e|] eqn:Hadj; bind_ret;
    [|pose proof (adj_raises _ _ Hadj) as ->|].
  - apply (simulates_after _ _
             (run_from g (filter (fun n => n ∉ {[v]} ∪ visited) neighbors ++ stack)
                ({[v]} ∪ visited) (res ++ [v])) _ 1).
    + intros k. unfold run_from. cbn [dfs_iterative_loop Nat.add].
      rewrite decide_False by done. rewrite Hadj. bind_ret.
      by rewrite push_unvisited_order.
    + apply visit_neighbors_simulated; [|exact IH|done].
      intros u vis r vis' Hrun.
      apply dfs_recursive_from_grows in Hrun. set_solver.
  - exists 1. intros k. unfold run_from. cbn [dfs_iterative_loop Nat.add].
    rewrite decide_False by done. by rewrite Hadj.
  - done.
Qed.

End simulation.

(** *** Frames and fuel that are enough *)

Section fuel.
Variable g : graph.

(** The recursion is a function of the frames it is given: the fuel of the
    model is not used. *)
Lemma visit_neighbors_halts (self : Z -> gset Z -> outcome (list Z * gset Z)) :
  (forall v visited, self v visited <> OutOfFuel) ->
  forall neighbors result visited,
    visit_neighbors self neighbors result visited <> OutOfFuel.
Proof.
  intros Hself. induction neighbors as [|x ns IH]; intros result visited; [done|].
  cbn [visit_neighbors].
  destruct (decide (x ∈ visited)); [by apply IH|].
  specialize (Hself x visited).
  destruct (self x visited) as [[sub visited1]|e|]; bind_ret; [|done..].
  apply IH.
Qed.

Lemma dfs_recursive_from_halts (frames : nat) :
  forall v visited, dfs_recursive_from frames g v visited <> OutOfFuel.
Proof.
  induction frames as [|frames IH]; intros v visited; [done|].
  cbn [dfs_recursive_from]. unfold adj.
  destruct (g !! v) as [neighbors|]; bind_ret; [|done].
  by apply visit_neighbors_halts.
Qed.

(** The recursion: every nested call has one more vertex of the graph in
    [visited], so the frames are enough when there are more of them than
    entries of the graph. *)
Lemma visit_neighbors_runs (self : Z -> gset Z -> outcome (list Z * gset Z))
    (visited0 : gset Z) :
  (forall v visited r visited',
     self v visited = Ret (r, visited') -> visited ⊆ visited') ->
  (forall v visited, visited0 ⊆ visited -> v ∉ visited ->
     self v visited <> Raise RecursionError) ->
  forall neighbors result visited,
    visited0 ⊆ visited ->
    visit_neighbors self neighbors result visited <> Raise RecursionError.
Proof.
  intros Hgrow Hself.
  induction neighbors as [|x ns IH]; intros result visited Hsub; [done|].
  cbn [visit_neighbors].
  destruct (decide (x ∈ visited)) as [Hseen|Hnew]; [by apply IH|].
  specialize (Hself x visited Hsub Hnew).
  destruct (self x visited) as [[sub visited1]|e|] eqn:Hcall;
    bind_ret; [|done..].
  apply IH. apply Hgrow in Hcall. set_solver.
Qed.

Lemma dfs_recursive_from_runs (frames : nat) :
  forall v visited,
    v ∉ visited -> size (dom g ∖ visited) < frames ->
    dfs_recursive_from frames g v visited <> Raise RecursionError.
Proof.
  induction frames as [|frames IH]; intros v visited Hnew Hfuel; [lia|].
  cbn [dfs_recursive_from].
  destruct (adj g v) as [neighbors|e|] eqn:Hadj; bind_ret;
    [|by rewrite (adj_raises g _ _ Hadj)|done].
  assert (v ∈ dom g) as Hdom.
  { apply elem_of_dom. unfold adj in Hadj. destruct (g !! v); [by eauto|done]. }
  assert (size (dom g ∖ ({[v]} ∪ visited)) < size (dom g ∖ visited)) as Hless.
  { apply subset_size. split.
    - intros x. rewrite !elem_of_difference, not_elem_of_union. tauto.
    - intros Hsub. specialize (Hsub v).
      rewrite !elem_of_difference, not_elem_of_union, elem_of_singleton in Hsub.
      tauto. }
  apply (visit_neighbors_runs _ ({[v]} ∪ visited)); [| |done].
  - intros u vis r vis' Hrun. apply dfs_recursive_from_grows in Hrun. set_solver.
  - intros u vis Hsub Hu. apply IH; [done|].
    assert (size (dom g ∖ vis) <= size (dom g ∖ ({[v]} ∪ visited))) as Hle.
    { apply subseteq_size. intros x. rewrite !elem_of_difference.
      intros [Hx Hnot]. split; [done|]. intros Hin. apply Hnot. by apply Hsub. }
    lia.
Qed.

Lemma unvisited_edges_empty : unvisited_edges g ∅ = edges g.
Proof. done. Qed.

Lemma unvisited_edges_mono (l : list (Z * list Z)) (v : Z) (visited : gset Z) :
  sum_list ((fun e : Z * list Z =>
               if decide (e.1 ∈ {[v]} ∪ visited) then 0 else length e.2) <$> l)
  <= sum_list ((fun e : Z * list Z =>
                  if decide (e.1 ∈ visited) then 0 else length e.2) <$> l).
Proof.
  induction l as [|[u ns] l IH]; [done|].
  rewrite !fmap_cons. cbn [sum_list sum_list_with fst snd id].
  destruct (decide (u ∈ {[v]} ∪ visited)) as [Hin|Hnotin];
    destruct (decide (u ∈ visited)) as [Hin'|Hnotin']; try lia.
  exfalso. apply Hnotin. set_solver.
Qed.

Lemma unvisited_edges_visit (v : Z) (neighbors : list Z) (visited : gset Z) :
  g !! v = Some neighbors -> v ∉ visited ->
  unvisited_edges g ({[v]} ∪ visited) + length neighbors <= unvisited_edges g visited.
Proof.
  intros Hv%elem_of_map_to_list Hnew. unfold unvisited_edges.
  induction (map_to_list g) as [|[u ns] l IH]; [by apply elem_of_nil in Hv|].
  rewrite !fmap_cons. cbn [sum_list sum_list_with fst snd id].
  pose proof (unvisited_edges_mono l v visited) as Hmono.
  apply elem_of_cons in Hv as [Heq|Hv].
  - assert (u = v /\ ns = neighbors) as [-> ->] by (by simplify_eq).
    rewrite decide_True by set_solver.
    rewrite (decide_False (P := v ∈ visited)) by done.
    lia.
  - specialize (IH Hv).
    destruct (decide (u ∈ {[v]} ∪ visited)) as [Hin|Hnotin];
      destruct (decide (u ∈ visited)) as [Hin'|Hnotin']; try lia.
    exfalso. apply Hnotin. set_solver.
Qed.

Lemma dfs_iterative_loop_runs (fuel : nat) :
  forall stack visited result,
    length stack + unvisited_edges g visited < fuel ->
    dfs_iterative_loop fuel g stack visited result <> OutOfFuel.
Proof.
  induction fuel as [|fuel IH]; intros stack visited result Hfuel; [lia|].
  cbn [dfs_iterative_loop].
  destruct stack as [|v stack]; [done|]. cbn [length] in Hfuel.
  destruct (decide (v ∈ visited)) as [Hseen|Hnew]; [apply IH; lia|].
  destruct (adj g v) as [neighbors|e|] eqn:Hadj; bind_ret;
    [|done|unfold adj in Hadj; by destruct (g !! v)].
  assert (g !! v = Some neighbors) as Hv.
  { unfold adj in Hadj. destruct (g !! v); by simplify_eq. }
  apply IH. rewrite push_unvisited_order, length_app.
  pose proof (length_filter (fun n => n ∉ {[v]} ∪ visited) neighbors).
  pose proof (unvisited_edges_visit v neighbors visited Hv Hnew). lia.
Qed.

End fuel.

(** *** The two traversals agree *)

(** Whatever the graph and the start vertex, when the recursive traversal
    has the frames it needs, the iterative traversal has its outcome: the
    same list of vertices, or the same exception. *)
Lemma dfs_iterative_recursive (frames : nat) (g : graph) (start : Z) :
  dfs_recursive frames g start <> Raise RecursionError ->
  dfs_iterative g start = dfs_recursive frames g start.
Proof.
  unfold dfs_iterative, dfs_recursive. intros Hframes.
  pose proof (dfs_recursive_from_simulated g frames start ∅ [] []
                ltac:(set_solver)) as Hsim.
  pose proof (dfs_recursive_from_halts g frames start ∅) as Hrec.
  pose proof (dfs_iterative_loop_runs g (S (S (edges g))) [start] ∅ [])
    as Hiter.
  rewrite unvisited_edges_empty in Hiter. specialize (Hiter ltac:(simpl; lia)).
  assert (forall n o, o <> OutOfFuel ->
            dfs_iterative_loop n g [start] ∅ [] = o ->
            dfs_iterative_loop (S (S (edges g))) g [start] ∅ [] = o) as Hsame.
  { intros n o Ho Hn.
    rewrite <- (dfs_iterative_loop_more_fuel g _ _ _ _ Hiter n).
    rewrite Nat.add_comm.
    rewrite dfs_iterative_loop_more_fuel; [done|]. by rewrite Hn. }
  destruct (dfs_recursive_from frames g start ∅) as [[r visited']|e|];
    [|destruct e|done]; try done; destruct Hsim as [n Hn]; bind_ret;
    try (apply (Hsame (n + 0)); [done|]; apply Hn).
  apply (Hsame (n + 1)); [done|]. apply Hn.
Qed.

(** On a graph with fewer entries than there are frames, the recursion has
    the frames it needs. *)
Lemma dfs_recursive_frames (frames : nat) (g : graph) (start : Z) :
  size g < frames -> dfs_recursive frames g start <> Raise RecursionError.
Proof.
  intros Hsize. unfold dfs_recursive.
  pose proof (dfs_recursive_from_runs g frames start ∅ (not_elem_of_empty start))
    as Hrec.
  rewrite difference_empty_L, size_dom in Hrec. specialize (Hrec Hsize).
  destruct (dfs_recursive_from frames g start ∅) as [[r visited']|e|];
    bind_ret; congruence.
Qed.

(** *** Graphs with an entry for every reachable vertex *)

Lemma reachable_trans (g : graph) (s u v : Z) :
  reachable g s u -> reachable g u v -> reachable g s v.
Proof.
  intros Hsu Huv. induction Huv as [|w v ns _ IH Hw Hv]; [done|].
  by eapply reachable_step.
Qed.

Lemma visit_neighbors_raises (g : graph)
    (self : Z -> gset Z -> outcome (list Z * gset Z)) :
  (forall v visited, self v visited = Raise KeyError ->
     exists u, reachable g v u /\ g !! u = None) ->
  forall neighbors result visited,
    visit_neighbors self neighbors result visited = Raise KeyError ->
    exists x u, x ∈ neighbors /\ reachable g x u /\ g !! u = None.
Proof.
  intros Hself. induction neighbors as [|x ns IH]; intros result visited Hrun;
    cbn [visit_neighbors] in Hrun; [done|].
  assert (forall result visited,
            visit_neighbors self ns result visited = Raise KeyError ->
            exists y u, y ∈ x :: ns /\ reachable g y u /\ g !! u = None) as Hrest.
  { intros result' visited' Hrun'.
    destruct (IH _ _ Hrun') as (y & u & Hy & Hyu & Hu).
    exists y, u. split; [by apply list_elem_of_further|done]. }
  destruct (decide (x ∈ visited)); [by eapply Hrest|].
  destruct (self x visited) as [[sub visited1]|e'|] eqn:Hcall;
    bind_ret in Hrun; [by eapply Hrest| |done].
  injection Hrun as ->.
  destruct (Hself _ _ Hcall) as (u & Hxu & Hu).
  exists x, u. split; [by apply list_elem_of_here|done].
Qed.

Lemma dfs_recursive_from_raises (g : graph) (frames : nat) :
  forall v visited,
    dfs_recursive_from frames g v visited = Raise KeyError ->
    exists u, reachable g v u /\ g !! u = None.
Proof.
  induction frames as [|frames IH]; intros v visited Hrun; [done|].
  cbn [dfs_recursive_from] in Hrun. unfold adj in Hrun.
  destruct (g !! v) as [neighbors|] eqn:Hv; bind_ret in Hrun.
  - destruct (visit_neighbors_raises g _ IH _ _ _ Hrun) as (x & u & Hx & Hxu & Hu).
    exists u. split; [|done].
    apply (reachable_trans g v x u); [|done].
    by apply (reachable_step g v v x neighbors); [constructor|..].
  - exists v. split; [constructor|done].
Qed.

Lemma dfs_recursive_from_exn (g : graph) (frames : nat) :
  forall v visited e, dfs_recursive_from frames g v visited = Raise e ->
    e = KeyError \/ e = RecursionError.
Proof.
  induction frames as [|frames IH]; intros v visited e Hrun;
    [right; by injection Hrun|].
  cbn [dfs_recursive_from] in Hrun. unfold adj in Hrun.
  destruct (g !! v) as [neighbors|]; bind_ret in Hrun;
    [|left; by injection Hrun].
  revert Hrun. generalize [v] as result, ({[v]} ∪ visited) as vis.
  induction neighbors as [|n ns IHns]; intros result vis Hrun;
    cbn [visit_neighbors] in Hrun; [done|].
  destruct (decide (n ∈ vis)); [by eapply IHns|].
  destruct (dfs_recursive_from frames g n vis) as [[sub vis1]|e'|] eqn:Hcall;
    bind_ret in Hrun; [by eapply IHns| |done].
  injection Hrun as <-. by eapply IH.
Qed.

(** On a graph with an entry for every reachable vertex, the recursion runs
    out of frames or returns. *)
Lemma dfs_recursive_closed (frames : nat) (g : graph) (start : Z) :
  closed_from g start ->
  dfs_recursive frames g start = Raise RecursionError \/
  exists order, dfs_recursive frames g start = Ret order.
Proof.
  intros Hclosed. unfold dfs_recursive.
  pose proof (dfs_recursive_from_halts g frames start ∅) as Hhalts.
  destruct (dfs_recursive_from frames g start ∅) as [[r visited']|e|]
    eqn:Hrun; bind_ret; [right; by exists r| |done].
  left. destruct (dfs_recursive_from_exn _ _ _ _ _ Hrun) as [->| ->]; [|done].
  apply dfs_recursive_from_raises in Hrun as (u & Hu & Hnone).
  destruct (Hclosed u Hu) as [ns Hns]. congruence.
Qed.

(** C6.  On a graph with an entry for every vertex that can be reached from
    [start], the iterative traversal, which pushes the neighbours in
    reversed order, returns a list of vertices, and the recursive traversal
    returns the same list or runs out of frames.  It returns the list when
    there are more frames than entries of the graph. *)
Theorem dfs_iterative_matches_recursive (frames : nat) (g : graph) (start : Z) :
  closed_from g start ->
  exists order,
    dfs_iterative g start = Ret order /\
    (dfs_recursive frames g start = Ret order \/
     dfs_recursive frames g start = Raise RecursionError) /\
    (size g < frames -> dfs_recursive frames g start = Ret order).
Proof.
  intros Hclosed.
  assert (forall n order, dfs_recursive n g start = Ret order ->
            dfs_iterative g start = Ret order) as Hsame.
  { intros n order Hrun. rewrite (dfs_iterative_recursive n); [done|].
    by rewrite Hrun. }
  destruct (dfs_recursive_closed (S (size g)) g start Hclosed)
    as [Hdeep|[order Hrun]]; [by apply dfs_recursive_frames in Hdeep; [|lia]|].
  exists order. split; [by apply (Hsame (S (size g)))|].
  assert (forall order', dfs_recursive frames g start = Ret order' ->
            dfs_recursive frames g start = Ret order) as Hrec.
  { intros order' Hrun'. pose proof (Hsame _ _ Hrun') as Hiter.
    rewrite (Hsame _ _ Hrun) in Hiter. by rewrite <- Hiter in Hrun'. }
  destruct (dfs_recursive_closed frames g start Hclosed) as [Hdeep|[order' Hrun']].
  - split; [by right|]. intros Hsize. by apply dfs_recursive_frames in Hdeep.
  - split; [left|intros _]; by apply (Hrec order').
Qed.

Lemma all_entries_closed_from (g : graph) (start : Z) :
  all_entries g start = true -> closed_from g start.
Proof.
  intros [Hstart Hall]%andb_true_iff v Hv.
  apply bool_decide_eq_true in Hstart.
  induction Hv as [|u v ns _ _ Hu Hv]; [done|].
  rewrite forallb_forall in Hall.
  specialize (Hall (u, ns)). rewrite <- list_elem_of_In in Hall.
  specialize (Hall (proj2 (elem_of_map_to_list g u ns) Hu)).
  rewrite forallb_forall in Hall. specialize (Hall v).
  rewrite <- list_elem_of_In in Hall.
  specialize (Hall Hv). by apply bool_decide_eq_true in Hall.
Qed.

Lemma dfs_iterative_matches_recursive_witness :
  exists order,
    dfs_iterative demo_graph 0%Z = Ret order /\
    dfs_recursive recursion_limit demo_graph 0%Z = Ret order.
Proof.
  destruct (dfs_iterative_matches_recursive recursion_limit demo_graph 0%Z)
    as (order & Hiter & _ & Hrec).
  - apply all_entries_closed_from. vm_compute. reflexivity.
  - exists order. split; [exact Hiter|]. apply Hrec. vm_compute. lia.
Defined.

(** A path of 1500 vertices has an entry for every vertex, and the
    iterative traversal returns its vertices in order; the recursive
    traversal needs a frame for each of them, and the interpreter has 1000
    at most. *)
Lemma dfs_recursive_exceeds_limit :
  closed_from (path_graph 1500) 0%Z /\
  dfs_recursive recursion_limit (path_graph 1500) 0%Z = Raise RecursionError /\
  dfs_iterative (path_graph 1500) 0%Z = Ret (seqZ 0 1500).
Proof.
  split; [apply all_entries_closed_from|split]; vm_compute; reflexivity.
Qed.


(** *** What a traversal visits

    A call of the recursion that returns has visited the vertices of its
    result, each once and each reachable from the vertex of the call; each
    of them has an entry, and all its neighbours are visited by the end of
    the call. *)

Section explores.
Variable g : graph.

Lemma settled_mono (V V' : gset Z) (u : Z) :
  V ⊆ V' -> settled g V u -> settled g V' u.
Proof. intros Hsub (ns & Hu & Hns). exists ns. split; [done|]. intros w Hw. by apply Hsub, Hns. Qed.

Lemma reachable_neighbor (v n u : Z) (neighbors : list Z) :
  g !! v = Some neighbors -> n ∈ neighbors -> reachable g n u -> reachable g v u.
Proof.
  intros Hv Hn Hnu. apply (reachable_trans g v n u); [|done].
  by apply (reachable_step g v v n neighbors); [constructor|..].
Qed.

Lemma visit_neighbors_explores (self : Z -> gset Z -> outcome (list Z * gset Z)) :
  (forall n vis r vis', n ∉ vis -> self n vis = Ret (r, vis') ->
     head r = Some n /\ NoDup r /\ vis ⊆ vis' /\
     (forall u, u ∈ r <-> u ∈ vis' /\ u ∉ vis) /\
     (forall u, u ∈ r -> reachable g n u /\ settled g vis' u)) ->
  forall neighbors result visited r visited',
    visit_neighbors self neighbors result visited = Ret (r, visited') ->
    exists extra,
      r = result ++ extra /\ NoDup extra /\ visited ⊆ visited' /\
      (forall u, u ∈ extra <-> u ∈ visited' /\ u ∉ visited) /\
      (forall u, u ∈ extra ->
         (exists n, n ∈ neighbors /\ reachable g n u) /\ settled g visited' u) /\
      (forall n, n ∈ neighbors -> n ∈ visited').
Proof.
  intros Hself. induction neighbors as [|n ns IH];
    intros result visited r visited' Hrun; cbn [visit_neighbors] in Hrun.
  - injection Hrun as <- <-. exists []. rewrite app_nil_r.
    split; [done|]. split; [constructor|]. split; [done|].
    split; [|split].
    + intros u. split; [by intros ?%elem_of_nil|tauto].
    + by intros u ?%elem_of_nil.
    + by intros n ?%elem_of_nil.
  - destruct (decide (n ∈ visited)) as [Hseen|Hnew].
    + destruct (IH _ _ _ _ Hrun) as (extra & -> & Hnodup & Hsub & Hin & Hreach & Hns).
      exists extra. split; [done|]. split; [done|]. split; [done|].
      split; [done|]. split.
      * intros u Hu. destruct (Hreach u Hu) as [(m & Hm & Hmu) Hset].
        split; [|done]. exists m. split; [by apply list_elem_of_further|done].
      * intros m [->|Hm]%elem_of_cons; [by apply Hsub|by apply Hns].
    + destruct (self n visited) as [[sub vis1]|e|] eqn:Hcall; bind_ret in Hrun;
        [|done..].
      destruct (Hself _ _ _ _ Hnew Hcall) as (Hhead & Hnd1 & Hsub1 & Hin1 & Hreach1).
      destruct (IH _ _ _ _ Hrun) as (extra & -> & Hnd2 & Hsub2 & Hin2 & Hreach2 & Hns).
      exists (sub ++ extra). split; [by rewrite app_assoc|].
      split; [|split; [|split; [|split]]].
      * apply NoDup_app. split; [done|]. split; [|done].
        intros u Hu1 Hu2. apply Hin1 in Hu1 as [Hu1 _]. apply Hin2 in Hu2 as [_ Hu2].
        done.
      * by transitivity vis1.
      * intros u. rewrite elem_of_app, Hin1, Hin2. split.
        -- intros [[Hu Hnot]|[Hu Hnot]]; [split; [by apply Hsub2|done]|].
           split; [done|]. intros Hold. apply Hnot. by apply Hsub1.
        -- intros [Hu Hnot]. destruct (decide (u ∈ vis1)); [by left|by right].
      * intros u [Hu|Hu]%elem_of_app.
        -- destruct (Hreach1 u Hu) as [Hnu Hset]. split.
           ++ exists n. split; [apply list_elem_of_here|done].
           ++ by apply (settled_mono vis1).
        -- destruct (Hreach2 u Hu) as [(m & Hm & Hmu) Hset]. split; [|done].
           exists m. split; [by apply list_elem_of_further|done].
      * intros m [->|Hm]%elem_of_cons; [|by apply Hns].
        apply Hsub2, Hin1. destruct sub as [|x sub]; [done|].
        injection Hhead as ->. apply list_elem_of_here.
Qed.

Lemma dfs_recursive_from_explores (frames : nat) :
  forall v visited r visited',
    v ∉ visited -> dfs_recursive_from frames g v visited = Ret (r, visited') ->
    head r = Some v /\ NoDup r /\ visited ⊆ visited' /\
    (forall u, u ∈ r <-> u ∈ visited' /\ u ∉ visited) /\
    (forall u, u ∈ r -> reachable g v u /\ settled g visited' u).
Proof.
  induction frames as [|frames IH]; intros v visited r visited' Hnew Hrun; [done|].
  cbn [dfs_recursive_from] in Hrun. unfold adj in Hrun.
  destruct (g !! v) as [neighbors|] eqn:Hv; bind_ret in Hrun; [|done].
  destruct (visit_neighbors_explores _ IH _ _ _ _ _ Hrun)
    as (extra & -> & Hnodup & Hsub & Hin & Hreach & Hns).
  assert (v ∈ visited') as Hv' by (apply Hsub, elem_of_union_l, elem_of_singleton; done).
  split; [done|]. split; [|split; [|split]].
  - apply NoDup_cons. split; [|done]. intros [_ Hnot]%Hin.
    apply Hnot, elem_of_union_l, elem_of_singleton. done.
  - intros u Hu. by apply Hsub, elem_of_union_r.
  - intros u. change ([v] ++ extra) with (v :: extra). rewrite elem_of_cons, Hin.
    rewrite not_elem_of_union, elem_of_singleton. split.
    + intros [->|[Hu [_ Hnot]]]; by split.
    + intros [Hu Hnot]. destruct (decide (u = v)); [by left|by right].
  - intros u [->|Hu]%elem_of_cons.
    + split; [constructor|]. by exists neighbors.
    + destruct (Hreach u Hu) as [(n & Hn & Hnu) Hset]. split; [|done].
      by apply (reachable_neighbor v n u neighbors).
Qed.

(** A set that holds [start] and is settled holds every reachable vertex. *)
Lemma settled_reachable (start : Z) (V : gset Z) :
  start ∈ V -> (forall u, u ∈ V -> settled g V u) ->
  forall v, reachable g start v -> v ∈ V.
Proof.
  intros Hstart Hsettled v Hv. induction Hv as [|u v ns _ IH Hu Hv]; [done|].
  destruct (Hsettled u IH) as (ns' & Hu' & Hall).
  apply Hall. by assert (ns' = ns) as -> by congruence.
Qed.

Lemma dfs_recursive_order (frames : nat) (start : Z) (order : list Z) :
  dfs_recursive frames g start = Ret order ->
  head order = Some start /\ NoDup order /\
  (forall v, v ∈ order <-> reachable g start v) /\
  closed_from g start.
Proof.
  unfold dfs_recursive. intros Hrun.
  destruct (dfs_recursive_from frames g start ∅) as [[r visited']|e|] eqn:Hcall;
    bind_ret in Hrun; [|done..].
  injection Hrun as ->.
  destruct (dfs_recursive_from_explores _ _ _ _ _ (not_elem_of_empty start) Hcall)
    as (Hhead & Hnodup & _ & Hin & Hreach).
  assert (forall v, reachable g start v -> v ∈ visited') as Hall.
  { apply settled_reachable.
    - apply Hin. destruct order as [|x order]; [done|].
      injection Hhead as ->. apply list_elem_of_here.
    - intros u Hu. apply Hreach, Hin. split; [done|apply not_elem_of_empty]. }
  split; [done|]. split; [done|]. split.
  - intros v. split; [intros Hv; by destruct (Hreach v Hv)|].
    intros Hv. apply Hin. split; [by apply Hall|apply not_elem_of_empty].
  - intros v Hv.
    assert (v ∈ order) as Hvo by (apply Hin; split; [by apply Hall|apply not_elem_of_empty]).
    destruct (Hreach v Hvo) as [_ (ns & Hns & _)]. by exists ns.
Qed.

End explores.

(** X16.  On every graph, a list that [dfs_recursive] returns holds the
    vertices reachable from [start], each of them once, and [start] first.
    The call returns when the graph has an entry for every reachable vertex
    and fewer entries than there are frames. *)
Theorem dfs_recursive_visits_reachable (frames : nat) (g : graph) (start : Z) :
  (forall order, dfs_recursive frames g start = Ret order ->
     head order = Some start /\ NoDup order /\
     forall v, v ∈ order <-> reachable g start v) /\
  (closed_from g start -> size g < frames ->
   exists order, dfs_recursive frames g start = Ret order).
Proof.
  split.
  - intros order Hrun.
    destruct (dfs_recursive_order g frames start order Hrun) as (? & ? & ? & _).
    done.
  - intros Hclosed Hsize.
    destruct (dfs_recursive_closed frames g start Hclosed) as [Hdeep|Hrun];
      [|done].
    by apply dfs_recursive_frames in Hdeep.
Qed.

Lemma dfs_recursive_visits_reachable_witness :
  exists order, dfs_recursive recursion_limit demo_graph 0%Z = Ret order /\
    head order = Some 0%Z /\ NoDup order /\
    forall v, v ∈ order <-> reachable demo_graph 0%Z v.
Proof.
  destruct (dfs_recursive_visits_reachable recursion_limit demo_graph 0%Z)
    as [Hvisits Hreturns].
  destruct Hreturns as [order Hrun].
  - apply all_entries_closed_from. vm_compute. reflexivity.
  - vm_compute. lia.
  - exists order. split; [exact Hrun|]. apply Hvisits, Hrun.
Defined.


(** *** BFS *)

Lemma enqueue_unvisited_filter (visited : gset Z) (neighbors queue : list Z) :
  enqueue_unvisited visited neighbors queue
  = queue ++ filter (fun n => n ∉ visited) neighbors.
Proof.
  revert queue. induction neighbors as [|n ns IH]; intros queue; simpl.
  - by rewrite app_nil_r.
  - rewrite IH. destruct (decide (n ∈ visited)).
    + by rewrite filter_cons_False by tauto.
    + rewrite filter_cons_True by done. by rewrite <- app_assoc.
Qed.

Section bfs.
Variable g : graph.
Variable start : Z.

Lemma bfs_loop_runs (fuel : nat) :
  forall queue visited result,
    length queue + unvisited_edges g visited < fuel ->
    bfs_loop fuel g queue visited result <> OutOfFuel.
Proof.
  induction fuel as [|fuel IH]; intros queue visited result Hfuel; [lia|].
  cbn [bfs_loop].
  destruct queue as [|v queue]; [done|]. cbn [length] in Hfuel.
  destruct (decide (v ∈ visited)) as [Hseen|Hnew]; [apply IH; lia|].
  destruct (adj g v) as [neighbors|e|] eqn:Hadj; bind_ret;
    [|done|unfold adj in Hadj; by destruct (g !! v)].
  assert (g !! v = Some neighbors) as Hv.
  { unfold adj in Hadj. destruct (g !! v); by simplify_eq. }
  apply IH. rewrite enqueue_unvisited_filter, length_app.
  pose proof (length_filter (fun n => n ∉ {[v]} ∪ visited) neighbors).
  pose proof (unvisited_edges_visit g v neighbors visited Hv Hnew). lia.
Qed.

Lemma bfs_loop_raises (fuel : nat) :
  forall queue visited result e,
    (forall u, u ∈ queue -> reachable g start u) ->
    bfs_loop fuel g queue visited result = Raise e ->
    e = KeyError /\ exists u, reachable g start u /\ g !! u = None.
Proof.
  induction fuel as [|fuel IH]; intros queue visited result e Hqueue Hrun; [done|].
  cbn [bfs_loop] in Hrun. destruct queue as [|v queue]; [done|].
  assert (reachable g start v) as Hv by apply Hqueue, list_elem_of_here.
  assert (forall u, u ∈ queue -> reachable g start u) as Hrest
    by (intros u Hu; by apply Hqueue, list_elem_of_further).
  destruct (decide (v ∈ visited)); [by eapply IH|].
  unfold adj in Hrun. destruct (g !! v) as [neighbors|] eqn:Hentry; bind_ret in Hrun.
  - eapply IH; [|exact Hrun].
    intros u. rewrite enqueue_unvisited_filter, elem_of_app, list_elem_of_filter.
    intros [Hu|[_ Hu]]; [by apply Hrest|]. by eapply reachable_step.
  - injection Hrun as <-. split; [done|]. by exists v.
Qed.

Lemma bfs_loop_explores (fuel : nat) :
  forall queue visited result order,
    bfs_loop fuel g queue visited result = Ret order ->
    NoDup result -> (forall u, u ∈ result <-> u ∈ visited) ->
    (forall u, u ∈ queue -> reachable g start u) ->
    (forall u, u ∈ visited -> reachable g start u) ->
    (forall u, u ∈ visited ->
       exists ns, g !! u = Some ns /\ forall w, w ∈ ns -> w ∈ visited \/ w ∈ queue) ->
    exists extra,
      order = result ++ extra /\ NoDup order /\
      (forall u, u ∈ order -> reachable g start u) /\
      (forall u, u ∈ order ->
         exists ns, g !! u = Some ns /\ forall w, w ∈ ns -> w ∈ order) /\
      (forall u, u ∈ queue -> u ∈ order).
Proof.
  induction fuel as [|fuel IH];
    intros queue visited result order Hrun Hnodup Hres Hqueue Hvisited Hsettled;
    [done|].
  cbn [bfs_loop] in Hrun. destruct queue as [|v queue].
  { injection Hrun as <-. exists []. rewrite app_nil_r.
    split; [done|]. split; [done|]. split; [|split].
    - intros u Hu. by apply Hvisited, Hres.
    - intros u Hu. destruct (Hsettled u (proj1 (Hres u) Hu)) as (ns & Hns & Hall).
      exists ns. split; [done|]. intros w Hw.
      destruct (Hall w Hw) as [?|?%elem_of_nil]; [by apply Hres|done].
    - by intros u ?%elem_of_nil. }
  assert (reachable g start v) as Hv by apply Hqueue, list_elem_of_here.
  assert (forall u, u ∈ queue -> reachable g start u) as Hrest
    by (intros u Hu; by apply Hqueue, list_elem_of_further).
  destruct (decide (v ∈ visited)) as [Hseen|Hnew].
  - destruct (IH _ _ _ _ Hrun Hnodup Hres Hrest Hvisited)
      as (extra & -> & Hnd & Hreach & Hset & Hq).
    { intros u Hu. destruct (Hsettled u Hu) as (ns & Hns & Hall).
      exists ns. split; [done|]. intros w Hw.
      destruct (Hall w Hw) as [?|[->|?]%elem_of_cons]; auto. }
    exists extra. split; [done|]. split; [done|]. split; [done|]. split; [done|].
    intros u [->|Hu]%elem_of_cons; [|by apply Hq].
    apply elem_of_app. left. by apply Hres.
  - unfold adj in Hrun. destruct (g !! v) as [neighbors|] eqn:Hentry;
      bind_ret in Hrun; [|done].
    rewrite enqueue_unvisited_filter in Hrun.
    destruct (IH _ _ _ _ Hrun) as (extra & -> & Hnd & Hreach & Hset & Hq).
    + apply NoDup_app. split; [done|]. split; [|apply NoDup_singleton].
      intros u Hu ->%list_elem_of_singleton. by apply Hnew, Hres.
    + intros u. rewrite elem_of_app, list_elem_of_singleton, elem_of_union,
        elem_of_singleton, Hres. tauto.
    + intros u. rewrite elem_of_app, list_elem_of_filter.
      intros [Hu|[_ Hu]]; [by apply Hrest|]. by eapply reachable_step.
    + intros u [->%elem_of_singleton|Hu]%elem_of_union; [done|by apply Hvisited].
    + intros u [->%elem_of_singleton|Hu]%elem_of_union.
      * exists neighbors. split; [done|]. intros w Hw.
        destruct (decide (w ∈ {[v]} ∪ visited)) as [|Hout]; [by left|right].
        apply elem_of_app. right. by apply list_elem_of_filter.
      * destruct (Hsettled u Hu) as (ns & Hns & Hall).
        exists ns. split; [done|]. intros w Hw.
        destruct (Hall w Hw) as [?|[->|?]%elem_of_cons].
        -- left. by apply elem_of_union_r.
        -- left. by apply elem_of_union_l, elem_of_singleton.
        -- right. apply elem_of_app. by left.
    + exists (v :: extra). split; [by rewrite <- app_assoc|].
      split; [done|]. split; [done|]. split; [done|].
      intros u [->|Hu]%elem_of_cons.
      * rewrite !elem_of_app, list_elem_of_singleton. tauto.
      * apply Hq. apply elem_of_app. by left.
Qed.

Lemma bfs_order (order : list Z) :
  bfs g start = Ret order ->
  head order = Some start /\ NoDup order /\
  (forall v, v ∈ order <-> reachable g start v) /\
  closed_from g start.
Proof.
  unfold bfs. generalize (S (edges g)) as fuel. intros fuel. cbn [bfs_loop].
  rewrite decide_False by apply not_elem_of_empty.
  unfold adj. destruct (g !! start) as [neighbors|] eqn:Hentry; bind_ret; [|done].
  rewrite enqueue_unvisited_filter. intros Hrun.
  apply bfs_loop_explores in Hrun as (extra & -> & Hnd & Hreach & Hset & _).
  - split; [done|]. split; [done|].
    assert (forall v, reachable g start v -> v ∈ ([] ++ [start]) ++ extra) as Hall.
    { intros v Hv. induction Hv as [|u v ns _ IH Hu Hv].
      - rewrite !elem_of_app, list_elem_of_singleton. tauto.
      - destruct (Hset u IH) as (ns' & Hu' & Hin). apply Hin.
        by assert (ns' = ns) as -> by congruence. }
    split; [split; [apply Hreach|apply Hall]|].
    intros v Hv. destruct (Hset v (Hall v Hv)) as (ns & Hns & _). by exists ns.
  - apply NoDup_singleton.
  - intros u. simpl. rewrite list_elem_of_singleton, elem_of_union, elem_of_singleton.
    pose proof (not_elem_of_empty (C := gset Z) u). tauto.
  - intros u. simpl. rewrite list_elem_of_filter.
    intros [_ Hu]. eapply reachable_step; [constructor|exact Hentry|exact Hu].
  - intros u [->%elem_of_singleton|Hu%not_elem_of_empty]%elem_of_union; [|done].
    constructor.
  - intros u [->%elem_of_singleton|Hu%not_elem_of_empty]%elem_of_union; [|done].
    exists neighbors. split; [done|]. intros w Hw.
    destruct (decide (w ∈ {[start]} ∪ (∅ : gset Z))) as [|Hout]; [by left|right].
    simpl. by apply list_elem_of_filter.
Qed.

Lemma bfs_outcome :
  (exists order, bfs g start = Ret order) \/
  (bfs g start = Raise KeyError /\ exists u, reachable g start u /\ g !! u = None).
Proof.
  pose proof (bfs_loop_runs (S (S (edges g))) [start] ∅ []) as Hruns.
  rewrite unvisited_edges_empty in Hruns. specialize (Hruns ltac:(simpl; lia)).
  fold (bfs g start) in Hruns.
  destruct (bfs g start) as [order|e|] eqn:Hrun; [left; by exists order| |done].
  right. unfold bfs in Hrun. apply bfs_loop_raises in Hrun as [-> Hu]; [done|].
  intros u ->%list_elem_of_singleton. constructor.
Qed.

End bfs.

(** X17.  On a graph with an entry for every vertex reachable from [start],
    [bfs] returns the reachable vertices, each of them once, and [start]
    first. *)
Theorem bfs_visits_reachable (g : graph) (start : Z) :
  closed_from g start ->
  exists order, bfs g start = Ret order /\
    head order = Some start /\ NoDup order /\
    forall v, v ∈ order <-> reachable g start v.
Proof.
  intros Hclosed.
  destruct (bfs_outcome g start) as [[order Hrun]|[_ (u & Hu & Hnone)]].
  - exists order. split; [done|].
    destruct (bfs_order g start order Hrun) as (? & ? & ? & _). done.
  - destruct (Hclosed u Hu) as [ns Hns]. congruence.
Qed.

Lemma bfs_visits_reachable_witness :
  exists order, bfs demo_graph 0%Z = Ret order /\
    head order = Some 0%Z /\ NoDup order /\
    forall v, v ∈ order <-> reachable demo_graph 0%Z v.
Proof.
  apply (bfs_visits_reachable demo_graph 0%Z).
  apply all_entries_closed_from. vm_compute. reflexivity.
Defined.

(** X18.  When a vertex reachable from [start] has no entry in the graph,
    [bfs] and [dfs_iterative] raise [KeyError]; [dfs_recursive] raises
    [KeyError] or runs out of frames, and it raises [KeyError] when there
    are more frames than entries of the graph. *)
Theorem traversals_raise_KeyError (frames : nat) (g : graph) (start u : Z) :
  reachable g start u -> g !! u = None ->
  bfs g start = Raise KeyError /\
  dfs_iterative g start = Raise KeyError /\
  (dfs_recursive frames g start = Raise KeyError \/
   dfs_recursive frames g start = Raise RecursionError) /\
  (size g < frames -> dfs_recursive frames g start = Raise KeyError).
Proof.
  intros Hu Hnone.
  assert (~ closed_from g start) as Hopen.
  { intros Hclosed. destruct (Hclosed u Hu) as [ns Hns]. congruence. }
  assert (forall n, dfs_recursive n g start = Raise KeyError \/
                    dfs_recursive n g start = Raise RecursionError) as Hdfs.
  { intros n. destruct (dfs_recursive n g start) as [order|e|] eqn:Hrun.
    - destruct (dfs_recursive_order g n start order Hrun) as (_ & _ & _ & Hclosed).
      done.
    - unfold dfs_recursive in Hrun.
      destruct (dfs_recursive_from n g start ∅) as [[r visited']|e'|]
        eqn:Hcall; bind_ret in Hrun; [done| |done].
      injection Hrun as <-.
      destruct (dfs_recursive_from_exn _ _ _ _ _ Hcall) as [->| ->]; auto.
    - unfold dfs_recursive in Hrun.
      pose proof (dfs_recursive_from_halts g n start ∅) as Hhalts.
      destruct (dfs_recursive_from n g start ∅) as [[r visited']|e'|];
        bind_ret in Hrun; done. }
  assert (forall n, size g < n -> dfs_recursive n g start = Raise KeyError)
    as Hkey.
  { intros n Hn. destruct (Hdfs n) as [?|Hdeep]; [done|].
    by apply dfs_recursive_frames in Hdeep. }
  split; [|split; [|split; [apply Hdfs|apply Hkey]]].
  - destruct (bfs_outcome g start) as [[order Hrun]|[Hrun _]]; [|done].
    destruct (bfs_order g start order Hrun) as (_ & _ & _ & Hclosed). done.
  - rewrite (dfs_iterative_recursive (S (size g))); rewrite Hkey; try done; lia.
Qed.

Lemma traversals_raise_KeyError_witness :
  bfs (<[1%Z := [2%Z]]> ∅) 1%Z = Raise KeyError /\
  dfs_iterative (<[1%Z := [2%Z]]> ∅) 1%Z = Raise KeyError /\
  dfs_recursive recursion_limit (<[1%Z := [2%Z]]> ∅) 1%Z = Raise KeyError.
Proof.
  destruct (traversals_raise_KeyError recursion_limit (<[1%Z := [2%Z]]> ∅)
              1%Z 2%Z) as (Hbfs & Hiter & _ & Hrec).
  - apply (reachable_step _ _ 1%Z 2%Z [2%Z]); [constructor|reflexivity|].
    apply list_elem_of_here.
  - reflexivity.
  - split; [exact Hbfs|]. split; [exact Hiter|]. apply Hrec. vm_compute. lia.
Defined.

End GraphTraversalSpec.
